(** * Animated Expense Tracker: the [ExpenseTracker] component

    A shallow embedding of [src/components/ExpenseTracker.tsx]: the record
    list and the values derived from it ([balance], [grouped], [chartLabels],
    [chartSeries]), the handlers [addTransaction] and [deleteTx], the
    [localStorage] initialiser and persist effect, and the count-up effect
    that animates [displayBalance].

    JavaScript values are modelled as the runtime has them: a [number] is an
    IEEE-754 binary64 (Rocq's primitive [float]), a string is a sequence of
    UTF-16 code units, a plain object is its own properties in enumeration
    order.  The builtins the component calls ([trim], [parseFloat],
    [toFixed], [Number], [JSON.stringify], [JSON.parse], [Object.keys],
    [Math.min], [Math.pow]) follow ECMA-262. *)

From Stdlib Require Import QArith Qpower Lqa.
From Stdlib Require Import ZArith NArith List String Ascii Bool Lia Floats.
From Stdlib Require Import Permutation DecimalN.
Import ListNotations.

Set Implicit Arguments.
Set Warnings "-register-all,-inexact-float".

(* ================================================================= *)
(** * JavaScript strings *)

(** A string is a sequence of 16-bit code units; [js "Food"] is the string
    whose code units are the characters of the literal. *)
Definition code_unit := N.
Definition jsstring := list code_unit.

Definition js (s : string) : jsstring :=
  map N_of_ascii (list_ascii_of_string s).

Fixpoint str_eqb (a b : jsstring) : bool :=
  match a, b with
  | [], [] => true
  | x :: a', y :: b' => N.eqb x y && str_eqb a' b'
  | _, _ => false
  end.

(** [prefix_of p s] is [Some rest] when [s = p ++ rest]. *)
Fixpoint prefix_of (p s : jsstring) : option jsstring :=
  match p, s with
  | [], _ => Some s
  | x :: p', y :: s' => if N.eqb x y then prefix_of p' s' else None
  | _ :: _, [] => None
  end.

(** WhiteSpace and LineTerminator code units (ECMA-262 12.2, 12.3): what
    [trim], [parseFloat] and [Number] strip. *)
Definition is_white_space (c : code_unit) : bool :=
  ((9 <=? c) && (c <=? 13) || (c =? 32) || (c =? 160) || (c =? 5760)
   || (8192 <=? c) && (c <=? 8202) || (c =? 8232) || (c =? 8233)
   || (c =? 8239) || (c =? 8287) || (c =? 12288) || (c =? 65279))%N.

Fixpoint trimStart (s : jsstring) : jsstring :=
  match s with
  | c :: s' => if is_white_space c then trimStart s' else s
  | [] => []
  end.

Definition trimEnd (s : jsstring) : jsstring := rev (trimStart (rev s)).

(** [String.prototype.trim]. *)
Definition trim (s : jsstring) : jsstring := trimEnd (trimStart s).

Definition is_digit (c : code_unit) : bool := ((48 <=? c) && (c <=? 57))%N.

Definition digit_value (c : code_unit) : Z := Z.of_N c - 48.

(** The longest run of decimal digits at the head of [s], and the rest. *)
Fixpoint span_digits (s : jsstring) : jsstring * jsstring :=
  match s with
  | c :: s' =>
      if is_digit c
      then let '(ds, rest) := span_digits s' in (c :: ds, rest)
      else ([], s)
  | [] => ([], [])
  end.

(** The value of a run of decimal digits, most significant first. *)
Definition digits_value (ds : jsstring) : Z :=
  fold_left (fun acc c => 10 * acc + digit_value c)%Z ds 0%Z.

(* ================================================================= *)
(** * JavaScript numbers *)

Definition number := float.

(** [ToBoolean] of a number: [NaN], [+0] and [-0] are falsy. *)
Definition number_truthy (x : number) : bool :=
  negb (PrimFloat.is_nan x || PrimFloat.is_zero x).

(** [Object.is] on numbers (SameValue): [NaN] is itself, [+0] is not [-0]. *)
Definition Object_is (x y : number) : bool := PrimFloat.Leibniz.eqb x y.

(** The binary64 nearest to the rational [n / d] ([d > 0]), ties to even:
    the rounding every conversion from decimal text goes through. *)
Definition round_ratio (neg : bool) (n d : Z) : spec_float :=
  match n, d with
  | Zpos _, Zpos _ =>
      let '(q, e, l) := SFdiv_core_binary prec emax n 0 d 0 in
      binary_round_aux prec emax neg q e l
  | _, _ => S754_zero neg
  end.

(** The Number value of [(-1)^neg * m * 10^e] for a natural [m]. *)
Definition of_decimal (neg : bool) (m e : Z) : number :=
  SF2Prim (if (0 <=? e)%Z
           then round_ratio neg (m * 10 ^ e) 1
           else round_ratio neg m (10 ^ (- e))).

(** Exact value of a finite non-zero number as [(negative, m, e)] with
    value [m * 2^e]; [None] for zeros, infinities and [NaN]. *)
Definition exact_value (x : number) : option (bool * Z * Z) :=
  match Prim2SF x with
  | S754_finite s m e => Some (s, Zpos m, e)
  | _ => None
  end.

(** A positive rational [m * 2^e] as numerator and denominator. *)
Definition ratio_of (m e : Z) : Z * Z :=
  if (0 <=? e)%Z then (m * 2 ^ e, 1)%Z else (m, 2 ^ (- e))%Z.

(** [scale10 (n, d) j] is the rational [n / d * 10^j]. *)
Definition scale10 (r : Z * Z) (j : Z) : Z * Z :=
  let '(n, d) := r in
  if (0 <=? j)%Z then (n * 10 ^ j, d)%Z else (n, d * 10 ^ (- j))%Z.

(** [pow10_le j r]: [10^j <= r]. *)
Definition pow10_le (j : Z) (r : Z * Z) : bool :=
  let '(n, d) := scale10 r (- j) in (d <=? n)%Z.

(** The decimal magnitude of a positive rational: the [n] with
    [10^(n-1) <= r < 10^n], found from a binary estimate. *)
Fixpoint mag10_up (fuel : nat) (n : Z) (r : Z * Z) : Z :=
  match fuel with
  | O => n
  | S fuel' => if pow10_le n r then mag10_up fuel' (n + 1) r else n
  end.

Fixpoint mag10_down (fuel : nat) (n : Z) (r : Z * Z) : Z :=
  match fuel with
  | O => n
  | S fuel' => if pow10_le (n - 1) r then n else mag10_down fuel' (n - 1) r
  end.

Definition mag10 (r : Z * Z) : Z :=
  let '(n, d) := r in
  let est := ((Z.log2 n - Z.log2 d) * 30103 / 100000)%Z in
  mag10_up 8 (mag10_down 8 (est + 2) r) r.

(** The decimal digits of a natural number, without leading zeros ("0" for
    zero). *)
Fixpoint uint_digits (d : Decimal.uint) : jsstring :=
  match d with
  | Decimal.Nil => []
  | Decimal.D0 d' => 48%N :: uint_digits d'
  | Decimal.D1 d' => 49%N :: uint_digits d'
  | Decimal.D2 d' => 50%N :: uint_digits d'
  | Decimal.D3 d' => 51%N :: uint_digits d'
  | Decimal.D4 d' => 52%N :: uint_digits d'
  | Decimal.D5 d' => 53%N :: uint_digits d'
  | Decimal.D6 d' => 54%N :: uint_digits d'
  | Decimal.D7 d' => 55%N :: uint_digits d'
  | Decimal.D8 d' => 56%N :: uint_digits d'
  | Decimal.D9 d' => 57%N :: uint_digits d'
  end.

Definition decimal_string (n : Z) : jsstring :=
  uint_digits (N.to_uint (Z.to_N n)).

Definition zeros (n : Z) : jsstring := repeat 48%N (Z.to_nat n).

(** One step of the search in [Number::toString]: the [k]-digit decimals
    next to [x], as [(n, s)] with [10^(k-1) <= s < 10^k] and value
    [s * 10^(n-k)], whose Number value is [x]; of two, the one nearer to
    [x]. *)
Definition digits_candidate (x : number) (r : Z * Z) (n0 k : Z)
  : option (Z * Z) :=
  let '(p, q) := scale10 r (k - n0) in
  let lo := (p / q)%Z in
  let ok n s :=
    (10 ^ (k - 1) <=? s)%Z && (s <? 10 ^ k)%Z
    && PrimFloat.Leibniz.eqb (of_decimal false s (n - k)) x in
  let hi := if (lo + 1 =? 10 ^ k)%Z then (n0 + 1, 10 ^ (k - 1))%Z
            else (n0, lo + 1)%Z in
  let lo_ok := ok n0 lo in
  let hi_ok := ok (fst hi) (snd hi) in
  let rem2 := (2 * (p - lo * q))%Z in
  if lo_ok && hi_ok
  then if (rem2 <? q)%Z || (rem2 =? q)%Z && Z.even lo
       then Some (n0, lo) else Some hi
  else if lo_ok then Some (n0, lo)
  else if hi_ok then Some hi
  else None.

(** The candidate with the fewest digits, trying [k], [k + 1], ... for
    [fuel] steps ([None] if none of them has one). *)
Fixpoint shortest_digits (fuel : nat) (x : number) (r : Z * Z) (n0 k : Z)
  : option (Z * Z) :=
  match fuel with
  | O => None
  | S fuel' =>
      match digits_candidate x r n0 k with
      | Some ns => Some ns
      | None => shortest_digits fuel' x r n0 (k + 1)
      end
  end.

(** The text of [s * 10^(n-k)], where [k] is the number of digits of [s]
    (ECMA-262 6.1.6.1.20, steps 6 to 12). *)
Definition format_digits (n s : Z) : jsstring :=
  let ds := decimal_string s in
  let k := Z.of_nat (List.length ds) in
  let exponent :=
    (if (0 <? n - 1)%Z then [43%N] else [45%N])
      ++ decimal_string (Z.abs (n - 1)) in
  if ((k <=? n) && (n <=? 21))%Z then ds ++ zeros (n - k)
  else if ((0 <? n) && (n <=? 21))%Z
  then firstn (Z.to_nat n) ds ++ [46%N] ++ skipn (Z.to_nat n) ds
  else if ((-6 <? n) && (n <=? 0))%Z
  then [48%N; 46%N] ++ zeros (- n) ++ ds
  else if (k =? 1)%Z then ds ++ [101%N] ++ exponent
  else firstn 1 ds ++ [46%N] ++ skipn 1 ds ++ [101%N] ++ exponent.

(** [Number::toString(x, 10)] for a positive finite [x = m * 2^e]: the
    shortest decimal that reads back as [x].  Seventeen digits always
    identify a binary64, so the search finds one; the empty text stands
    for the case that it did not. *)
Definition positive_toString (x : number) (m e : Z) : jsstring :=
  let r := ratio_of m e in
  match shortest_digits 17 x r (mag10 r) 1 with
  | Some (n, s) => format_digits n s
  | None => []
  end.

(** [Number.prototype.toString()]. *)
Definition Number_toString (x : number) : jsstring :=
  match Prim2SF x with
  | S754_nan => js "NaN"
  | S754_zero _ => js "0"
  | S754_infinity false => js "Infinity"
  | S754_infinity true => js "-Infinity"
  | S754_finite s m e =>
      (if s then [45%N] else [])
        ++ positive_toString (PrimFloat.abs x) (Zpos m) e
  end.

(** [Number.prototype.toFixed(f)] for [0 <= f] (ECMA-262 21.1.3.3): the
    nearest multiple of [10^-f] to the exact value, the larger of two. *)
Definition toFixed (x : number) (f : Z) : jsstring :=
  match exact_value x with
  | None =>
      match Prim2SF x with
      | S754_zero _ =>
          if (f =? 0)%Z then js "0" else [48%N; 46%N] ++ zeros f
      | _ => Number_toString x
      end
  | Some (s, m, e) =>
      let sign := if s then [45%N] else [] in
      let r := ratio_of m e in
      if pow10_le 21 r then sign ++ Number_toString (PrimFloat.abs x)
      else
        let '(p, q) := scale10 r f in
        let n := ((2 * p + q) / (2 * q))%Z in
        let ds := decimal_string n in
        let k := Z.of_nat (List.length ds) in
        let ds' := if (k <=? f)%Z then zeros (f + 1 - k) ++ ds else ds in
        let cut := (List.length ds' - Z.to_nat f)%nat in
        sign ++ (if (f =? 0)%Z then ds'
                 else firstn cut ds' ++ [46%N] ++ skipn cut ds')
  end.

(* ----------------------------------------------------------------- *)
(** ** Text to number *)

(** An optional sign: [(negative, rest)]. *)
Definition take_sign (s : jsstring) : bool * jsstring :=
  match s with
  | c :: r => if (c =? 43)%N then (false, r)
              else if (c =? 45)%N then (true, r)
              else (false, s)
  | [] => (false, s)
  end.

(** An ExponentPart at the head of [s], when it is well formed: its value
    and the rest; otherwise exponent 0 and [s] untouched. *)
Definition take_exponent (s : jsstring) : Z * jsstring :=
  match s with
  | c :: r =>
      if ((c =? 101) || (c =? 69))%N
      then let '(neg, r1) := take_sign r in
           let '(ds, r2) := span_digits r1 in
           match ds with
           | [] => (0%Z, s)
           | _ :: _ =>
               ((if neg then - digits_value ds else digits_value ds)%Z, r2)
           end
      else (0%Z, s)
  | [] => (0%Z, [])
  end.

(** A point and the digits after it, if [s] starts with a point. *)
Definition optional_fraction (s : jsstring) : jsstring * jsstring :=
  match s with
  | c :: r => if (c =? 46)%N then span_digits r else ([], s)
  | [] => ([], s)
  end.

(** The longest prefix of [s] that is a StrDecimalLiteral: its Number value
    and what follows it; [None] when no prefix is one. *)
Definition scan_decimal (s : jsstring) : option (number * jsstring) :=
  let '(neg, u) := take_sign s in
  match prefix_of (js "Infinity") u with
  | Some rest =>
      Some (if neg then PrimFloat.neg_infinity else PrimFloat.infinity, rest)
  | None =>
      let '(ip, r1) := span_digits u in
      let '(fp, r2) := optional_fraction r1 in
      match ip, fp with
      | [], [] => None
      | _, _ =>
          let '(ex, r3) := take_exponent r2 in
          Some (of_decimal neg (digits_value (ip ++ fp))
                  (ex - Z.of_nat (List.length fp)), r3)
      end
  end.

(** The global [parseFloat] (ECMA-262 19.2.4): leading white space is
    skipped, trailing text after the literal is ignored. *)
Definition parseFloat (s : jsstring) : number :=
  match scan_decimal (trimStart s) with
  | Some (x, _) => x
  | None => PrimFloat.nan
  end.

(** A NonDecimalIntegerLiteral ([0x], [0o], [0b] and digits of that radix,
    either case): its value, when the whole of [s] is one. *)
Definition radix_digit (radix : Z) (c : code_unit) : option Z :=
  let v := (if is_digit c then Z.of_N c - 48
            else if ((97 <=? c) && (c <=? 102))%N then Z.of_N c - 87
            else if ((65 <=? c) && (c <=? 70))%N then Z.of_N c - 55
            else 16)%Z in
  if (v <? radix)%Z then Some v else None.

Fixpoint radix_value (radix : Z) (s : jsstring) (acc : Z) : option Z :=
  match s with
  | [] => Some acc
  | c :: s' =>
      match radix_digit radix c with
      | Some v => radix_value radix s' (radix * acc + v)%Z
      | None => None
      end
  end.

Definition scan_radix (s : jsstring) : option number :=
  match s with
  | c0 :: c :: ((_ :: _) as ds) =>
      let radix := (if ((c =? 120) || (c =? 88))%N then 16
                    else if ((c =? 111) || (c =? 79))%N then 8
                    else if ((c =? 98) || (c =? 66))%N then 2 else 0)%Z in
      if negb (c0 =? 48)%N || (radix =? 0)%Z then None
      else option_map (fun v => of_decimal false v 0%Z) (radix_value radix ds 0%Z)
  | _ => None
  end.

(** [Number(s)] on a string (StringToNumber, ECMA-262 7.1.4.1.1): white
    space is trimmed on both sides, the empty string is [+0], and the whole
    of the rest must be one StrNumericLiteral. *)
Definition Number_of_string (s : jsstring) : number :=
  match trim s with
  | [] => PrimFloat.zero
  | t => match scan_radix t with
         | Some x => x
         | None => match scan_decimal t with
                   | Some (x, []) => x
                   | _ => PrimFloat.nan
                   end
         end
  end.

(** [Math.min(a, b)]: [NaN] if either is, and [-0] below [+0]. *)
Definition Math_min (a b : number) : number :=
  if PrimFloat.is_nan a || PrimFloat.is_nan b then PrimFloat.nan
  else if PrimFloat.ltb a b then a
  else if PrimFloat.ltb b a then b
  else if PrimFloat.get_sign a then a else b.

(** [Math.pow(x, 3)].  ECMA-262 leaves the precision of [Math.pow] to the
    engine; the cube is taken here as two correctly rounded products, which
    is exact wherever the true cube is a binary64. *)
Definition Math_pow3 (x : number) : number := (x * x * x)%float.

(* ================================================================= *)
(** * Ordinary objects: own properties in enumeration order *)

Section Objects.
Variable V : Type.

(** The own enumerable string-keyed properties, in the order
    [Object.keys] lists them (OrdinaryOwnPropertyKeys): array indices
    ascending, then the other keys in the order they were created. *)
Definition object := list (jsstring * V).

(** An array index is the canonical decimal text of an integer in
    [0, 2^32 - 2]. *)
Definition array_index (k : jsstring) : option Z :=
  match k with
  | [] => None
  | c :: rest =>
      if forallb is_digit k
         && (negb (c =? 48)%N || match rest with [] => true | _ => false end)
         && (List.length k <=? 10)%nat
         && (digits_value k <=? 4294967294)%Z
      then Some (digits_value k) else None
  end.

Fixpoint own_get (k : jsstring) (o : object) : option V :=
  match o with
  | [] => None
  | (k', v) :: o' => if str_eqb k' k then Some v else own_get k o'
  end.

Fixpoint own_update (k : jsstring) (v : V) (o : object) : object :=
  match o with
  | [] => []
  | (k', v') :: o' =>
      if str_eqb k' k then (k', v) :: o' else (k', v') :: own_update k v o'
  end.

(** A new array-index property goes before the first property that is
    not an array index or has a larger index. *)
Fixpoint insert_index (i : Z) (k : jsstring) (v : V) (o : object) : object :=
  match o with
  | [] => [(k, v)]
  | (k', v') :: o' =>
      match array_index k' with
      | Some j => if (j <? i)%Z then (k', v') :: insert_index i k v o'
                  else (k, v) :: o
      | None => (k, v) :: o
      end
  end.

(** Writing an own data property: an existing one keeps its place, a new
    one is created in enumeration order. *)
Definition define (k : jsstring) (v : V) (o : object) : object :=
  match own_get k o with
  | Some _ => own_update k v o
  | None =>
      match array_index k with
      | Some i => insert_index i k v o
      | None => o ++ [(k, v)]
      end
  end.

(** [Object.keys]. *)
Definition Object_keys (o : object) : list jsstring := map fst o.
End Objects.

(** The property names every plain object inherits from
    [Object.prototype]. *)
Definition Object_prototype_names : list jsstring :=
  map js ["constructor"; "__defineGetter__"; "__defineSetter__";
          "hasOwnProperty"; "__lookupGetter__"; "__lookupSetter__";
          "isPrototypeOf"; "propertyIsEnumerable"; "toString"; "valueOf";
          "__proto__"; "toLocaleString"]%string.

Definition inherited (k : jsstring) : bool :=
  existsb (str_eqb k) Object_prototype_names.

(* ================================================================= *)
(** * JSON *)

(** The values [JSON.parse] produces and [JSON.stringify] serialises. *)
Inductive json : Type :=
| JNull
| JBool (b : bool)
| JNum (x : number)
| JStr (s : jsstring)
| JArr (elements : list json)
| JObj (properties : list (jsstring * json)).

(* ----------------------------------------------------------------- *)
(** ** [JSON.stringify] (no replacer, no indentation) *)

Definition hex_digit (v : N) : code_unit :=
  (if v <? 10 then 48 + v else 87 + v)%N.

(** The escape [\uXXXX], in lower-case hexadecimal. *)
Definition unicode_escape (c : code_unit) : jsstring :=
  [92; 117; hex_digit (c / 4096 mod 16); hex_digit (c / 256 mod 16);
   hex_digit (c / 16 mod 16); hex_digit (c mod 16)]%N.

Definition is_high_surrogate (c : code_unit) : bool :=
  ((55296 <=? c) && (c <=? 56319))%N.
Definition is_low_surrogate (c : code_unit) : bool :=
  ((56320 <=? c) && (c <=? 57343))%N.

(** The characters of QuoteJSONString between the quotes: the short
    escapes, [\u] escapes for the other control characters and for lone
    surrogates, everything else as it is. *)
Fixpoint quote_chars (s : jsstring) : jsstring :=
  match s with
  | [] => []
  | c :: s' =>
      if (c =? 8)%N then [92; 98]%N ++ quote_chars s'
      else if (c =? 9)%N then [92; 116]%N ++ quote_chars s'
      else if (c =? 10)%N then [92; 110]%N ++ quote_chars s'
      else if (c =? 12)%N then [92; 102]%N ++ quote_chars s'
      else if (c =? 13)%N then [92; 114]%N ++ quote_chars s'
      else if (c =? 34)%N then [92; 34]%N ++ quote_chars s'
      else if (c =? 92)%N then [92; 92]%N ++ quote_chars s'
      else if (c <? 32)%N then unicode_escape c ++ quote_chars s'
      else if is_high_surrogate c then
        match s' with
        | d :: s'' =>
            if is_low_surrogate d then c :: d :: quote_chars s''
            else unicode_escape c ++ quote_chars s'
        | [] => unicode_escape c
        end
      else if is_low_surrogate c then unicode_escape c ++ quote_chars s'
      else c :: quote_chars s'
  end.

Definition QuoteJSONString (s : jsstring) : jsstring :=
  [34%N] ++ quote_chars s ++ [34%N].

(** The parts joined by commas. *)
Fixpoint join_comma (parts : list jsstring) : jsstring :=
  match parts with
  | [] => []
  | [p] => p
  | p :: rest => p ++ [44%N] ++ join_comma rest
  end.

Fixpoint JSON_stringify (v : json) : jsstring :=
  match v with
  | JNull => js "null"
  | JBool true => js "true"
  | JBool false => js "false"
  | JNum x => if PrimFloat.is_finite x then Number_toString x else js "null"
  | JStr s => QuoteJSONString s
  | JArr l => [91%N] ++ join_comma (map JSON_stringify l) ++ [93%N]
  | JObj o =>
      [123%N]
        ++ join_comma
             (map (fun kv => QuoteJSONString (fst kv) ++ [58%N]
                               ++ JSON_stringify (snd kv)) o)
        ++ [125%N]
  end.

(* ----------------------------------------------------------------- *)
(** ** [JSON.parse] (no reviver) *)

(** JSON white space: tab, line feed, carriage return, space. *)
Definition is_json_ws (c : code_unit) : bool :=
  ((c =? 9) || (c =? 10) || (c =? 13) || (c =? 32))%N.

Fixpoint skip_ws (s : jsstring) : jsstring :=
  match s with
  | c :: s' => if is_json_ws c then skip_ws s' else s
  | [] => []
  end.

Definition hex_value (c : code_unit) : option N :=
  if is_digit c then Some (c - 48)%N
  else if ((97 <=? c) && (c <=? 102))%N then Some (c - 87)%N
  else if ((65 <=? c) && (c <=? 70))%N then Some (c - 55)%N
  else None.

Definition hex4 (a b c d : code_unit) : option code_unit :=
  match hex_value a, hex_value b, hex_value c, hex_value d with
  | Some x, Some y, Some z, Some w => Some (4096 * x + 256 * y + 16 * z + w)%N
  | _, _, _, _ => None
  end.

(** The rest of a string literal after its opening quote: the string it
    denotes and what follows the closing quote. *)
Fixpoint parse_string_body (s : jsstring) : option (jsstring * jsstring) :=
  let cons c r :=
    match parse_string_body r with
    | Some (t, rest) => Some (c :: t, rest)
    | None => None
    end in
  match s with
  | [] => None
  | c :: r =>
      if (c =? 34)%N then Some ([], r)
      else if (c =? 92)%N then
        match r with
        | [] => None
        | e :: r' =>
            if (e =? 34)%N then cons 34%N r'
            else if (e =? 92)%N then cons 92%N r'
            else if (e =? 47)%N then cons 47%N r'
            else if (e =? 98)%N then cons 8%N r'
            else if (e =? 102)%N then cons 12%N r'
            else if (e =? 110)%N then cons 10%N r'
            else if (e =? 114)%N then cons 13%N r'
            else if (e =? 116)%N then cons 9%N r'
            else if (e =? 117)%N then
              match r' with
              | h1 :: h2 :: h3 :: h4 :: r'' =>
                  match hex4 h1 h2 h3 h4 with
                  | Some u => cons u r''
                  | None => None
                  end
              | _ => None
              end
            else None
        end
      else if (c <? 32)%N then None
      else cons c r
  end.

(** The parts of a JSON number. *)
Definition strip_minus (s : jsstring) : bool * jsstring :=
  match s with
  | c :: r => if (c =? 45)%N then (true, r) else (false, s)
  | [] => (false, s)
  end.

Definition has_leading_zero (ip : jsstring) : bool :=
  match ip with
  | c :: _ :: _ => (c =? 48)%N
  | _ => false
  end.

(** A point must be followed by a digit. *)
Definition fraction_part (s : jsstring) : option (jsstring * jsstring) :=
  match s with
  | c :: r =>
      if (c =? 46)%N
      then let '(fp, r2) := span_digits r in
           match fp with [] => None | _ :: _ => Some (fp, r2) end
      else Some ([], s)
  | [] => Some ([], s)
  end.

(** An exponent mark must be followed by digits, after an optional sign. *)
Definition exponent_part (s : jsstring) : option (Z * jsstring) :=
  match s with
  | c :: r =>
      if ((c =? 101) || (c =? 69))%N
      then let '(neg, r1) := take_sign r in
           let '(ds, r2) := span_digits r1 in
           match ds with
           | [] => None
           | _ :: _ =>
               Some ((if neg then - digits_value ds else digits_value ds)%Z, r2)
           end
      else Some (0%Z, s)
  | [] => Some (0%Z, s)
  end.

(** A JSON number at the head of [s]: no leading zeros, digits after a
    point and after an exponent mark. *)
Definition parse_number (s : jsstring) : option (number * jsstring) :=
  let '(neg, u) := strip_minus s in
  let '(ip, r1) := span_digits u in
  match ip with
  | [] => None
  | _ :: _ =>
      if has_leading_zero ip then None
      else
        match fraction_part r1 with
        | None => None
        | Some (fp, r2) =>
            match exponent_part r2 with
            | None => None
            | Some (ex, r3) =>
                Some (of_decimal neg (digits_value (ip ++ fp))
                        (ex - Z.of_nat (List.length fp)), r3)
            end
        end
  end.

Section ParseLoops.
(** The value parser one nesting level down. *)
Variable parse_inner : jsstring -> option (json * jsstring).

(** The elements of an array after the first, up to the closing bracket. *)
Fixpoint parse_elements (fuel : nat) (s : jsstring)
  : option (list json * jsstring) :=
  match fuel with
  | O => None
  | S fuel' =>
      match parse_inner s with
      | None => None
      | Some (v, r) =>
          match skip_ws r with
          | 44%N :: r' =>
              match parse_elements fuel' r' with
              | Some (vs, r'') => Some (v :: vs, r'')
              | None => None
              end
          | 93%N :: r' => Some ([v], r')
          | _ => None
          end
      end
  end.

(** The members of an object, each defined on [acc] in source order, up
    to the closing brace. *)
Fixpoint parse_members (fuel : nat) (s : jsstring) (acc : object json)
  : option (object json * jsstring) :=
  match fuel with
  | O => None
  | S fuel' =>
      match skip_ws s with
      | 34%N :: r =>
          match parse_string_body r with
          | None => None
          | Some (k, r1) =>
              match skip_ws r1 with
              | 58%N :: r2 =>
                  match parse_inner r2 with
                  | None => None
                  | Some (v, r3) =>
                      match skip_ws r3 with
                      | 44%N :: r4 =>
                          parse_members fuel' r4 (define k v acc)
                      | 125%N :: r4 => Some (define k v acc, r4)
                      | _ => None
                      end
                  end
              | _ => None
              end
          end
      | _ => None
      end
  end.
End ParseLoops.

(** One JSON value at the head of [s], after white space; [fuel] bounds
    the nesting depth and the number of elements at each level. *)
Fixpoint parse_value (fuel : nat) (s : jsstring) : option (json * jsstring) :=
  match fuel with
  | O => None
  | S fuel' =>
      match skip_ws s with
      | [] => None
      | c :: r =>
          if (c =? 110)%N then
            option_map (fun rest => (JNull, rest)) (prefix_of (js "ull") r)
          else if (c =? 116)%N then
            option_map (fun rest => (JBool true, rest)) (prefix_of (js "rue") r)
          else if (c =? 102)%N then
            option_map (fun rest => (JBool false, rest))
              (prefix_of (js "alse") r)
          else if (c =? 34)%N then
            option_map (fun '(t, rest) => (JStr t, rest)) (parse_string_body r)
          else if (c =? 91)%N then
            match skip_ws r with
            | 93%N :: r' => Some (JArr [], r')
            | _ =>
                option_map (fun '(vs, rest) => (JArr vs, rest))
                  (parse_elements (parse_value fuel') fuel' r)
            end
          else if (c =? 123)%N then
            match skip_ws r with
            | 125%N :: r' => Some (JObj [], r')
            | _ =>
                option_map (fun '(o, rest) => (JObj o, rest))
                  (parse_members (parse_value fuel') fuel' r [])
            end
          else
            option_map (fun '(x, rest) => (JNum x, rest))
              (parse_number (c :: r))
      end
  end.

(** [JSON.parse]: [None] stands for the [SyntaxError] it throws.  The whole
    text must be one value between white space. *)
Definition JSON_parse (s : jsstring) : option json :=
  match parse_value (S (List.length s)) s with
  | Some (v, rest) =>
      match skip_ws rest with
      | [] => Some v
      | _ => None
      end
  | None => None
  end.

(* ================================================================= *)
(** * The component's data *)

Inductive TxType : Type := Income | Expense.

Module Tx.
(** [type Transaction]. *)
Record Transaction : Type := {
  id : jsstring;
  description : jsstring;
  amount : number;
  category : jsstring;
  type : TxType;
  date : jsstring
}.
End Tx.
Abbreviation Transaction := Tx.Transaction.

Definition STORAGE_KEY : jsstring := js "aet_transactions_v1".

Definition TxType_string (ty : TxType) : jsstring :=
  match ty with
  | Income => js "Income"
  | Expense => js "Expense"
  end.

(** [t.type === "Income"] and [t.type === "Expense"]. *)
Definition is_Income (t : Transaction) : bool :=
  match Tx.type t with Income => true | Expense => false end.
Definition is_Expense (t : Transaction) : bool :=
  match Tx.type t with Expense => true | Income => false end.

(** A record as the object the literal in [addTransaction] creates: its six
    properties in the order they are written. *)
Definition tx_json (t : Transaction) : json :=
  JObj [(js "id", JStr (Tx.id t));
        (js "description", JStr (Tx.description t));
        (js "amount", JNum (Tx.amount t));
        (js "category", JStr (Tx.category t));
        (js "type", JStr (TxType_string (Tx.type t)));
        (js "date", JStr (Tx.date t))].

Definition transactions_json (txs : list Transaction) : json :=
  JArr (map tx_json txs).

(** The typed reading of a parsed document, for the values that are a
    [Transaction[]] at run time (the initialiser itself does not check). *)
Definition as_string (v : option json) : option jsstring :=
  match v with Some (JStr s) => Some s | _ => None end.

Definition as_TxType (v : option json) : option TxType :=
  match as_string v with
  | Some s => if str_eqb s (js "Income") then Some Income
              else if str_eqb s (js "Expense") then Some Expense
              else None
  | None => None
  end.

Definition as_transaction (v : json) : option Transaction :=
  match v with
  | JObj o =>
      match as_string (own_get (js "id") o),
            as_string (own_get (js "description") o),
            own_get (js "amount") o,
            as_string (own_get (js "category") o),
            as_TxType (own_get (js "type") o),
            as_string (own_get (js "date") o) with
      | Some i, Some d, Some (JNum a), Some c, Some ty, Some dt =>
          Some {| Tx.id := i; Tx.description := d; Tx.amount := a;
                  Tx.category := c; Tx.type := ty; Tx.date := dt |}
      | _, _, _, _, _, _ => None
      end
  | _ => None
  end.

Fixpoint as_transaction_list (l : list json) : option (list Transaction) :=
  match l with
  | [] => Some []
  | v :: l' =>
      match as_transaction v, as_transaction_list l' with
      | Some t, Some ts => Some (t :: ts)
      | _, _ => None
      end
  end.

Definition as_transactions (v : json) : option (list Transaction) :=
  match v with
  | JArr l => as_transaction_list l
  | _ => None
  end.

(* ================================================================= *)
(** * Persistence: [localStorage] *)

(** The outcome of a call that may throw. *)
Inductive completion (A : Type) : Type :=
| Normal (a : A)
| Throws.
Arguments Normal {A} a.
Arguments Throws {A}.

(** The browser's storage area: its items, or access refused (reading
    [localStorage] then throws a [SecurityError]). *)
Record LocalStorage : Type := {
  blocked : bool;
  items : list (jsstring * jsstring)
}.

Fixpoint lookup_item (k : jsstring) (l : list (jsstring * jsstring))
  : option jsstring :=
  match l with
  | [] => None
  | (k', v) :: l' => if str_eqb k' k then Some v else lookup_item k l'
  end.

Fixpoint store_item (k v : jsstring) (l : list (jsstring * jsstring))
  : list (jsstring * jsstring) :=
  match l with
  | [] => [(k, v)]
  | (k', v') :: l' =>
      if str_eqb k' k then (k', v) :: l' else (k', v') :: store_item k v l'
  end.

Definition getItem (ls : LocalStorage) (k : jsstring)
  : completion (option jsstring) :=
  if blocked ls then Throws else Normal (lookup_item k (items ls)).

Definition setItem (ls : LocalStorage) (k v : jsstring)
  : completion LocalStorage :=
  if blocked ls then Throws
  else Normal {| blocked := false; items := store_item k v (items ls) |}.

(** The [useState] initialiser of [transactions]:
    [try { raw = getItem(KEY); return raw ? JSON.parse(raw) : [] }
     catch { return [] }].  The empty string is falsy. *)
Definition load (ls : LocalStorage) : json :=
  match getItem ls STORAGE_KEY with
  | Throws => JArr []
  | Normal None => JArr []
  | Normal (Some []) => JArr []
  | Normal (Some raw) =>
      match JSON_parse raw with
      | Some v => v
      | None => JArr []
      end
  end.

(** The persist effect: [setItem(KEY, JSON.stringify(transactions))]. *)
Definition save (txs : list Transaction) (ls : LocalStorage)
  : completion LocalStorage :=
  setItem ls STORAGE_KEY (JSON_stringify (transactions_json txs)).

(* ================================================================= *)
(** * Derived values *)

(** [transactions.reduce((acc, t) =>
       acc + (t.type === "Income" ? t.amount : -t.amount), 0)]. *)
Definition balance (transactions : list Transaction) : number :=
  fold_left
    (fun acc t => (acc + (if is_Income t then Tx.amount t
                          else - Tx.amount t))%float)
    transactions 0%float.

Definition expenseTx (transactions : list Transaction) : list Transaction :=
  filter is_Expense transactions.

(** What a property of [grouped] can hold: a number, or the text that [+]
    produces once an operand is not a number (its characters come from the
    engine's rendering of a builtin). *)
Inductive total : Type :=
| Sum (x : number)
| Text.

(** [(acc[k] || 0) + amount], where [acc[k]] is the own property, else the
    member inherited from [Object.prototype], else [undefined]. *)
Definition accumulate (k : jsstring) (acc : object total) (amount : number)
  : total :=
  match own_get k acc with
  | Some (Sum x) =>
      Sum ((if number_truthy x then x else 0) + amount)%float
  | Some Text => Text
  | None => if inherited k then Text else Sum (0 + amount)%float
  end.

(** [acc[k] = v]: an own property is overwritten; [__proto__] is an
    accessor whose setter ignores a primitive; any other key is created. *)
Definition assign (k : jsstring) (v : total) (acc : object total)
  : object total :=
  match own_get k acc with
  | Some _ => own_update k v acc
  | None => if str_eqb k (js "__proto__") then acc else define k v acc
  end.

(** [expenseTx.reduce((acc, t) => { acc[t.category] =
       (acc[t.category] || 0) + t.amount; return acc }, {})]. *)
Definition grouped (transactions : list Transaction) : object total :=
  fold_left
    (fun acc t =>
       assign (Tx.category t) (accumulate (Tx.category t) acc (Tx.amount t))
         acc)
    (expenseTx transactions) [].

Definition chartLabels (transactions : list Transaction) : list jsstring :=
  Object_keys (grouped transactions).

(** [chartLabels.map((k) => grouped[k])]. *)
Definition chartSeries (transactions : list Transaction)
  : list (option total) :=
  map (fun k => own_get k (grouped transactions)) (chartLabels transactions).

(* ================================================================= *)
(** * The entry form *)

Record Form : Type := {
  description : jsstring;
  amountStr : jsstring;
  category : jsstring;
  type : TxType;
  date : jsstring
}.

(** What a call of [addTransaction] does: the alert and nothing else, or
    the new list and the form reset. *)
Inductive AddResult : Type :=
| Alert (message : jsstring)
| Added (transactions : list Transaction) (form : Form).

(** [Date.now().toString()] for the time value [now], an integral number of
    milliseconds. *)
Definition Date_now_toString (now : Z) : jsstring :=
  (if (now <? 0)%Z then [45%N] else []) ++ decimal_string (Z.abs now).

(** [addTransaction], with the clock reading [now] ([Date.now()]) and
    [today] ([new Date().toISOString().slice(0, 10)]). *)
Definition addTransaction (now : Z) (today : jsstring) (f : Form)
    (transactions : list Transaction) : AddResult :=
  let amount := parseFloat (amountStr f) in
  if match trim (description f) with [] => true | _ => false end
     || PrimFloat.is_nan amount || PrimFloat.leb amount 0
  then Alert (js "Please add a valid description and positive amount.")
  else
    let newTx :=
      {| Tx.id := Date_now_toString now;
         Tx.description := trim (description f);
         Tx.amount := amount;
         Tx.category := match category f with
                        | [] => js "Other"
                        | c => c
                        end;
         Tx.type := type f;
         Tx.date := date f |} in
    Added (newTx :: transactions)
      {| description := []; amountStr := []; category := js "Other";
         type := Expense; date := today |}.

(** [deleteTx]: [s.filter((t) => t.id !== id)]. *)
Definition deleteTx (id : jsstring) (transactions : list Transaction)
  : list Transaction :=
  filter (fun t => negb (str_eqb (Tx.id t) id)) transactions.

(* ================================================================= *)
(** * The count-up effect *)

(** One run of the effect: the values its closure captured. *)
Record Run : Type := {
  from : number;
  to : number;
  start : number
}.

(** [displayBalance], [prevBalanceRef.current], and the run whose frame
    callback is scheduled ([raf]), if any. *)
Record Animator : Type := {
  displayBalance : number;
  prevBalanceRef : number;
  raf : option Run
}.

Definition duration : number := 550%float.

(** The value [step(now)] passes to [setDisplayBalance]. *)
Definition frame_value (r : Run) (now : number) : number :=
  let t := Math_min 1%float ((now - start r) / duration)%float in
  let eased := (1 - Math_pow3 (1 - t))%float in
  let current := (from r + (to r - from r) * eased)%float in
  Number_of_string (toFixed current 2).

(** [step(now)]: show the frame's value; before the end, ask for the next
    frame; at the end, record the target. *)
Definition step (r : Run) (now : number) (a : Animator) : Animator :=
  let t := Math_min 1%float ((now - start r) / duration)%float in
  if (t <? 1)%float
  then {| displayBalance := frame_value r now;
          prevBalanceRef := prevBalanceRef a;
          raf := Some r |}
  else {| displayBalance := frame_value r now;
          prevBalanceRef := to r;
          raf := None |}.

(** An animation frame at time [now]: the scheduled callback, if any. *)
Definition frame (now : number) (a : Animator) : Animator :=
  match raf a with
  | Some r => step r now a
  | None => a
  end.

(** The effect for a new [balance] at time [now] ([performance.now()]):
    the clean-up of the previous run cancels its frame, then the body
    starts a run from [prevBalanceRef.current]. *)
Definition effect (balance : number) (now : number) (a : Animator)
  : Animator :=
  {| displayBalance := displayBalance a;
     prevBalanceRef := prevBalanceRef a;
     raf := Some {| from := prevBalanceRef a; to := balance; start := now |} |}.

(** The animator as the component is created: [useState(0)], [useRef(0)],
    nothing scheduled. *)
Definition initial_animator : Animator :=
  {| displayBalance := 0%float; prevBalanceRef := 0%float; raf := None |}.

(** A render that follows a change of [transactions]: the effect runs when
    the new balance is not [Object.is] the one of the previous render. *)
Definition rerender (previous : list Transaction)
    (transactions : list Transaction) (now : number) (a : Animator)
  : Animator :=
  if Object_is (balance previous) (balance transactions) then a
  else effect (balance transactions) now a.

(** The first render: [displayBalance] is 0, and the effect runs once. *)
Definition mount (transactions : list Transaction) (now : number)
  : Animator :=
  effect (balance transactions) now initial_animator.

(** A user interaction with the record store. *)
Inductive operation : Type :=
| OpAdd (now : Z) (today : jsstring) (f : Form)
| OpDelete (id : jsstring).

(** The list after one operation (a rejected add leaves it as it was). *)
Definition apply_operation (transactions : list Transaction) (op : operation)
  : list Transaction :=
  match op with
  | OpAdd now today f =>
      match addTransaction now today f transactions with
      | Alert _ => transactions
      | Added transactions' _ => transactions'
      end
  | OpDelete id => deleteTx id transactions
  end.

Definition run_operations (ops : list operation)
    (transactions : list Transaction) : list Transaction :=
  fold_left apply_operation ops transactions.

(** [before_end start now]: the frame at [now] is not the last of the run
    started at [start] ([t < 1] in [step]). *)
Definition before_end (start now : number) : bool :=
  PrimFloat.ltb (Math_min 1%float ((now - start) / duration)%float) 1%float.

(* ================================================================= *)
(** * Vocabulary of the properties *)

(** What a record contributes to the balance. *)
Definition signed_amount (t : Transaction) : number :=
  if is_Income t then Tx.amount t else (- Tx.amount t)%float.

(** The sum of a list of numbers taken from left to right, from 0. *)
Definition sum_left (l : list number) : number :=
  fold_left PrimFloat.add l 0%float.

(** [removal id l out]: [out] is [l] without the records whose id is [id],
    the others kept in their order. *)
Inductive removal (id : jsstring) : list Transaction -> list Transaction -> Prop :=
| removal_nil : removal id [] []
| removal_drop t l out :
    Tx.id t = id -> removal id l out -> removal id (t :: l) out
| removal_keep t l out :
    Tx.id t <> id -> removal id l out -> removal id (t :: l) (t :: out).

(** The description has no character other than white space. *)
Definition whitespace_only (s : jsstring) : bool := forallb is_white_space s.

(** The number is greater than zero (which [+Infinity] is). *)
Definition is_positive (x : number) : bool := PrimFloat.ltb 0%float x.

(** The number is greater than zero and finite. *)
Definition is_positive_finite (x : number) : bool :=
  is_positive x && PrimFloat.is_finite x.

(** Validation as the specification words it: refuse a blank description
    and an amount that is not a positive finite number. *)
Definition spec_rejects (f : Form) : bool :=
  whitespace_only (description f)
  || negb (is_positive_finite (parseFloat (amountStr f))).

(** The keys of a list in the order of their first occurrence. *)
Fixpoint first_seen (seen : list jsstring) (l : list jsstring)
  : list jsstring :=
  match l with
  | [] => []
  | k :: l' =>
      if existsb (str_eqb k) seen then first_seen seen l'
      else k :: first_seen (k :: seen) l'
  end.

(** The amounts of the expense records of one category, in list order. *)
Definition category_amounts (c : jsstring) (transactions : list Transaction)
  : list number :=
  map Tx.amount
    (filter (fun t => is_Expense t && str_eqb (Tx.category t) c) transactions).

(** The total of a category as the specification words it: the sum of its
    amounts; [None] when no expense has the category. *)
Definition category_sum (c : jsstring) (transactions : list Transaction)
  : option number :=
  match category_amounts c transactions with
  | [] => None
  | l => Some (sum_left l)
  end.

(** A category that is neither an array index nor a name inherited from
    [Object.prototype]. *)
Definition plain_key (k : jsstring) : bool :=
  match array_index k with
  | Some _ => false
  | None => negb (inherited k)
  end.

(** The clock readings of the adds of a history, oldest first. *)
Fixpoint add_clocks (ops : list operation) : list Z :=
  match ops with
  | [] => []
  | OpAdd now _ _ :: ops' => now :: add_clocks ops'
  | OpDelete _ :: ops' => add_clocks ops'
  end.

(** Each reading is later than the one before. *)
Fixpoint increasing (l : list Z) : Prop :=
  match l with
  | [] => True
  | x :: l' => match l' with
               | [] => True
               | y :: _ => (x < y)%Z
               end /\ increasing l'
  end.

(** The animation frames at the times [nows], in turn. *)
Definition frames (nows : list number) (a : Animator) : Animator :=
  fold_left (fun a now => frame now a) nows a.

(* ================================================================= *)
(** * Vocabulary of the proofs *)

(** [(v || 0) + amount] for a total [v] that is a number or [undefined]. *)
Definition add_amount (v : option number) (amount : number) : number :=
  match v with
  | Some x => ((if number_truthy x then x else 0) + amount)%float
  | None => (0 + amount)%float
  end.

(** The total of a category: its amounts added up in list order;
    [None] when no expense has the category. *)
Definition category_total (c : jsstring) (transactions : list Transaction)
  : option number :=
  fold_left (fun v a => Some (add_amount v a))
    (category_amounts c transactions) None.

(** The ids of the store are readings of the clock before [bound]. *)
Definition stamped_before (bound : Z) (l : list Transaction) : Prop :=
  forall t, In t l -> exists c, (c < bound)%Z /\ Tx.id t = Date_now_toString c.

(** Every total so far is a number. *)
Definition all_sums (acc : object total) : Prop :=
  forall k, own_get k acc <> Some Text.

(** The number held for a key, if any. *)
Definition value_of (k : jsstring) (acc : object total) : option number :=
  match own_get k acc with
  | Some (Sum x) => Some x
  | _ => None
  end.

(** One step of the reduce, on a plain category. *)
Definition reduce_step (acc : object total) (t : Transaction) : object total :=
  assign (Tx.category t) (accumulate (Tx.category t) acc (Tx.amount t)) acc.

(** The least exponent of a binary64 ([-1074]). *)
Abbreviation emin64 := (SpecFloat.emin prec emax).

(** The rational that a pair of integers stands for. *)
Definition Qratio (r : Z * Z) : Q := (inject_Z (fst r) / inject_Z (snd r))%Q.

(** [located N B mrs]: the record of a shift holds twice the quotient
    [N / B] rounded down, as mantissa and round bit, and whether anything
    is left below (the sticky bit). *)
Definition located (N B : Z) (mrs : shr_record) : Prop :=
  (2 * shr_m mrs + Z.b2z (shr_r mrs) = N / B)%Z
  /\ shr_s mrs = negb (N mod B =? 0)%Z.

(** [decade x N]: [10^(N-1) <= x < 10^N]. *)
Definition decade (x : Q) (N : Z) : Prop := (10 ^ (N - 1) <= x < 10 ^ N)%Q.

(** The estimate [mag10] starts from, for the binary exponent [L], and the
    check that it is within a few units of the decimal exponent. *)
Definition estimate (L : Z) : Z := (L * 30103 / 100000)%Z.

Definition estimate_ok (L : Z) : bool :=
  Qle_bool (10 ^ (estimate L - 5)) (2 ^ L)
  && Qle_bool (2 ^ (L + 1)) (10 ^ (estimate L + 9)).

Definition all_digits (ds : jsstring) : Prop := forallb is_digit ds = true.

(** The text of a number literal: integer digits, fraction digits, and an
    exponent with its sign. *)
Definition fraction_text (fp : jsstring) : jsstring :=
  match fp with [] => [] | _ :: _ => 46%N :: fp end.

Definition exponent_text (ex : option (bool * jsstring)) : jsstring :=
  match ex with
  | None => []
  | Some (neg, ed) => 101%N :: (if neg then 45%N else 43%N) :: ed
  end.

Definition number_token (ip fp : jsstring) (ex : option (bool * jsstring))
  : jsstring :=
  ip ++ fraction_text fp ++ exponent_text ex.

Definition exponent_value (ex : option (bool * jsstring)) : Z :=
  match ex with
  | None => 0
  | Some (neg, ed) => if neg then - digits_value ed else digits_value ed
  end.

Definition token_value (ip fp : jsstring) (ex : option (bool * jsstring))
  : number :=
  of_decimal false (digits_value (ip ++ fp))
    (exponent_value ex - Z.of_nat (List.length fp)).

Definition well_formed_token (ip fp : jsstring)
    (ex : option (bool * jsstring)) : Prop :=
  all_digits ip /\ ip <> []
  /\ match ip with c :: _ :: _ => c <> 48%N | _ => True end
  /\ all_digits fp
  /\ match ex with
     | None => True
     | Some (_, ed) => all_digits ed /\ ed <> []
     end.

(** What may follow a number in JSON text: nothing that extends it. *)
Definition ends_number (rest : jsstring) : Prop :=
  match rest with
  | [] => True
  | c :: _ => is_digit c = false /\ c <> 46%N /\ c <> 101%N /\ c <> 69%N
  end.

(** A character of a number literal: a digit, the point, [e], or a sign. *)
Definition number_char (c : code_unit) : Prop :=
  (48 <= c <= 57)%N \/ c = 46%N \/ c = 101%N \/ c = 43%N \/ c = 45%N.

(** The text of one member, followed by [tail]. *)
Definition member_text (k value tail : jsstring) : jsstring :=
  34%N :: quote_chars k ++ 34%N :: 58%N :: value ++ tail.

(* ================================================================= *)
(** * Sample data *)

(** A record with the given type, category and amount. *)
Definition sample (ty : TxType) (c : string) (a : number) : Transaction :=
  {| Tx.id := []; Tx.description := js "sample"; Tx.amount := a;
     Tx.category := js c; Tx.type := ty; Tx.date := js "2024-01-01" |}.

(** A record with the given id. *)
Definition with_id (i : string) (t : Transaction) : Transaction :=
  {| Tx.id := js i; Tx.description := Tx.description t;
     Tx.amount := Tx.amount t; Tx.category := Tx.category t;
     Tx.type := Tx.type t; Tx.date := Tx.date t |}.

(** Three incomes whose sum depends on the order of addition. *)
Definition three_incomes : list Transaction :=
  [sample Income "Other" 0.1; sample Income "Other" 0.2;
   sample Income "Other" 0.3]%float.

(** A list, as storage may hold it, in which two records share an id. *)
Definition shared_id_list : list Transaction :=
  [with_id "7" (sample Expense "Food" 1%float);
   with_id "8" (sample Income "Other" 2%float);
   with_id "7" (sample Expense "Bills" 3%float);
   with_id "9" (sample Expense "Food" 4%float)].

(** A store holding 500, then an expense of 400 (balance 100), then an
    income of 100 (balance 200). *)
Definition holding_500 : list Transaction := [sample Income "Other" 500%float].
Definition holding_100 : list Transaction :=
  sample Expense "Bills" 400%float :: holding_500.
Definition holding_200 : list Transaction :=
  sample Income "Other" 100%float :: holding_100.

(** The animator settled at 500: mounted at time 0, last frame at 550. *)
Definition settled_at_500 : Animator := frame 550%float (mount holding_500 0%float).

(** The expense is added at time 1000; the frame at 1275 is half way
    through the run toward 100. *)
Definition running_to_100 : Animator :=
  frame 1275%float (rerender holding_500 holding_100 1000%float settled_at_500).

(** The income is added at time 1275, while that run is in flight. *)
Definition retargeted_to_200 : Animator :=
  rerender holding_100 holding_200 1275%float running_to_100.

(** A form as the user filled it in. *)
Definition form_of (d a c : string) (ty : TxType) (dt : string) : Form :=
  {| description := js d; amountStr := js a; category := js c;
     type := ty; date := js dt |}.

(** A description and "Infinity" typed as the amount. *)
Definition infinite_amount_form : Form :=
  form_of "Rent" "Infinity" "Bills" Expense "2024-01-01".

Definition coffee_form : Form :=
  form_of "Coffee" "4.50" "Food" Expense "2024-01-01".
Definition paycheck_form : Form :=
  form_of "Paycheck" "1000" "Other" Income "2024-01-02".

(** The scenario of the specification: the coffee, then the paycheck. *)
Definition coffee_then_paycheck : list operation :=
  [OpAdd 1704067200000 (js "2024-01-01") coffee_form;
   OpAdd 1704153600000 (js "2024-01-02") paycheck_form].

(** Both adds while the clock reads the same millisecond. *)
Definition same_millisecond_adds : list operation :=
  [OpAdd 1704067200000 (js "2024-01-01") coffee_form;
   OpAdd 1704067200000 (js "2024-01-01") paycheck_form].

(** The records of the specification's scenario, newest first. *)
Definition paycheck_and_coffee : list Transaction :=
  run_operations coffee_then_paycheck [].

(** The record that [addTransaction] makes of "Infinity" (see
    [infinite_amount_form]). *)
Definition infinite_record : Transaction :=
  {| Tx.id := js "1704067200000"; Tx.description := js "Rent";
     Tx.amount := PrimFloat.infinity; Tx.category := js "Bills";
     Tx.type := Expense; Tx.date := js "2024-01-01" |}.

(** Expenses whose categories are the texts of two integers. *)
Definition numbered_categories : list Transaction :=
  [sample Expense "2" 5%float; sample Expense "1" 7%float].

(** Expenses whose category is a name every object inherits. *)
Definition inherited_category : list Transaction :=
  [sample Expense "constructor" 5%float; sample Expense "constructor" 7%float].

(** JSON text written with an apostrophe wherever the text has a double
    quote. *)
Definition json_text (s : string) : jsstring :=
  map (fun c => if (c =? 39)%N then 34%N else c) (js s).

(** A storage area that holds the text [raw] under the component's key. *)
Definition storage_with (raw : string) : LocalStorage :=
  {| blocked := false; items := [(STORAGE_KEY, json_text raw)] |}.

(** The storage area before anything was saved. *)
Definition empty_storage : LocalStorage := {| blocked := false; items := [] |}.

(* ================================================================= *)
(** * The component as a whole *)

(** [sampleCategories]: the options of the category select. *)
Definition sampleCategories : list jsstring :=
  map js ["Food"; "Bills"; "Transport"; "Entertainment"; "Shopping";
          "Other"]%string.

(** The form as the component is created ([today] is
    [new Date().toISOString().slice(0, 10)]). *)
Definition initial_form (today : jsstring) : Form :=
  {| description := []; amountStr := []; category := js "Other";
     type := Expense; date := today |}.

(** [chartSeries.length ? <Chart .../> : <div>No expense data yet</div>]. *)
Definition chart_visible (transactions : list Transaction) : bool :=
  negb (List.length (chartSeries transactions) =? 0)%nat.

Module State.
(** What the component holds between two events: the record list, the form
    fields, the count-up state, and the browser's storage area. *)
Record Component : Type := {
  transactions : list Transaction;
  form : Form;
  animator : Animator;
  storage : LocalStorage
}.
End State.
Abbreviation Component := State.Component.

(** What can happen to the mounted component: a change of a form field (the
    value the control reports), a click on Add (with [Date.now()], today's
    date, and [performance.now()] when the effects run), a click on a
    record's delete button, an animation frame. *)
Inductive event : Type :=
| ChangeDescription (value : jsstring)
| ChangeAmount (value : jsstring)
| ChangeCategory (value : jsstring)
| ChangeType (value : TxType)
| ChangeDate (value : jsstring)
| ClickAdd (now : Z) (today : jsstring) (time : number)
| ClickDelete (id : jsstring) (time : number)
| AnimationFrame (time : number).

(** The render that follows [setTransactions] and its effects: the persist
    effect writes the new list, the count-up effect restarts if the balance
    changed.  An effect that throws takes the component down. *)
Definition commit (c : Component) (transactions' : list Transaction)
    (form' : Form) (time : number) : completion Component :=
  match save transactions' (State.storage c) with
  | Throws => Throws
  | Normal storage' =>
      Normal {| State.transactions := transactions';
                State.form := form';
                State.animator :=
                  rerender (State.transactions c) transactions' time
                    (State.animator c);
                State.storage := storage' |}
  end.

Definition with_form (c : Component) (form' : Form) : Component :=
  {| State.transactions := State.transactions c;
     State.form := form';
     State.animator := State.animator c;
     State.storage := State.storage c |}.

(** The handlers. *)
Definition handle (c : Component) (e : event) : completion Component :=
  let f := State.form c in
  match e with
  | ChangeDescription v =>
      Normal (with_form c {| description := v; amountStr := amountStr f;
                             category := category f; type := type f;
                             date := date f |})
  | ChangeAmount v =>
      Normal (with_form c {| description := description f; amountStr := v;
                             category := category f; type := type f;
                             date := date f |})
  | ChangeCategory v =>
      Normal (with_form c {| description := description f;
                             amountStr := amountStr f;
                             category := v; type := type f;
                             date := date f |})
  | ChangeType v =>
      Normal (with_form c {| description := description f;
                             amountStr := amountStr f;
                             category := category f; type := v;
                             date := date f |})
  | ChangeDate v =>
      Normal (with_form c {| description := description f;
                             amountStr := amountStr f;
                             category := category f; type := type f;
                             date := v |})
  | ClickAdd now today time =>
      match addTransaction now today f (State.transactions c) with
      | Alert _ => Normal c
      | Added transactions' form' => commit c transactions' form' time
      end
  | ClickDelete id time =>
      commit c (deleteTx id (State.transactions c)) f time
  | AnimationFrame time =>
      Normal {| State.transactions := State.transactions c;
                State.form := f;
                State.animator := frame time (State.animator c);
                State.storage := State.storage c |}
  end.

(** The first render and its effects, for the record list that the
    initialiser read from storage. *)
Definition mount_component (transactions : list Transaction)
    (today : jsstring) (time : number) (ls : LocalStorage)
  : completion Component :=
  match save transactions ls with
  | Throws => Throws
  | Normal storage' =>
      Normal {| State.transactions := transactions;
                State.form := initial_form today;
                State.animator := mount transactions time;
                State.storage := storage' |}
  end.

Fixpoint run_events (events : list event) (c : Component)
  : completion Component :=
  match events with
  | [] => Normal c
  | e :: events' =>
      match handle c e with
      | Throws => Throws
      | Normal c' => run_events events' c'
      end
  end.

(** The operation on the record list that an event stands for, if any. *)
Definition operation_of (f : Form) (e : event) : option operation :=
  match e with
  | ClickAdd now today _ => Some (OpAdd now today f)
  | ClickDelete id _ => Some (OpDelete id)
  | _ => None
  end.

(* ================================================================= *)
(** * Vocabulary of the properties of the component *)

(** What every record made by [addTransaction] has: an amount above zero,
    a description that is trimmed and not empty, a category that is not
    empty. *)
Definition kept (t : Transaction) : Prop :=
  is_positive (Tx.amount t) = true
  /\ Tx.description t <> []
  /\ trim (Tx.description t) = Tx.description t
  /\ Tx.category t <> [].

(** A record as [JSON.parse] gives it back from the saved document: an
    amount that is not finite was written as [null]. *)
Definition stored_json (t : Transaction) : json :=
  JObj [(js "id", JStr (Tx.id t));
        (js "description", JStr (Tx.description t));
        (js "amount", if PrimFloat.is_finite (Tx.amount t)
                      then JNum (Tx.amount t) else JNull);
        (js "category", JStr (Tx.category t));
        (js "type", JStr (TxType_string (Tx.type t)));
        (js "date", JStr (Tx.date t))].

(** An event that the page's controls can produce: the category select
    reports one of its options. *)
Definition from_controls (e : event) : Prop :=
  match e with
  | ChangeCategory v => In v sampleCategories
  | _ => True
  end.

(** The balance that the count-up is heading to, or rests at. *)
Definition heading (a : Animator) : number :=
  match raf a with
  | Some r => to r
  | None => prevBalanceRef a
  end.

(** The Number value of a whole amount: what [parseFloat] makes of the
    decimal digits of [n]. *)
Definition whole (n : Z) : number := of_decimal false n 0.

(** The same for a signed total; the total 0 is [+0]. *)
Definition whole_signed (z : Z) : number :=
  match z with
  | Z0 => 0%float
  | Zpos _ => whole z
  | Zneg p => (- whole (Zpos p))%float
  end.

(** The mantissa and exponent of a whole number from 1 to [2^53] as a
    binary64. *)
Definition whole_exponent (n : Z) : Z := (Zdigits2 n - 53)%Z.
Definition whole_mantissa (n : Z) : positive :=
  Z.to_pos (if (0 <=? whole_exponent n)%Z then n / 2 ^ whole_exponent n
            else n * 2 ^ (- whole_exponent n)).

(** The sum of the amounts of a list, in units, and the sum of its signed
    amounts. *)
Definition total_units (units : Transaction -> Z) (l : list Transaction) : Z :=
  fold_right (fun t s => units t + s)%Z 0%Z l.

Definition signed_units (units : Transaction -> Z) (l : list Transaction) : Z :=
  fold_right (fun t s => (if is_Income t then units t else - units t) + s)%Z
    0%Z l.

(** The whole part of a Number; 0 when it is not finite. *)
Definition whole_part (x : number) : Z :=
  match Prim2SF x with
  | S754_finite s m e =>
      cond_Zopp s (if (0 <=? e)%Z then Zpos m * 2 ^ e
                   else Zpos m / 2 ^ (- e))
  | _ => 0%Z
  end.

(** Every amount of the list is a whole number of units, at least 1. *)
Definition whole_amounts (units : Transaction -> Z) (l : list Transaction)
    : Prop :=
  Forall (fun t => (0 < units t)%Z /\ Tx.amount t = whole (units t)) l.

(** What may follow the digits of a whole amount: nothing, or text that
    starts with neither a digit, a point nor an exponent mark. *)
Definition plain_tail (s : jsstring) : bool :=
  match s with
  | [] => true
  | c :: _ => negb (is_digit c || (c =? 46) || (c =? 101) || (c =? 69))%N
  end.

(** The text starts with one to fifteen digits, followed by a plain
    tail. *)
Definition whole_text (s : jsstring) : bool :=
  let '(ds, rest) := span_digits s in
  negb (List.length ds =? 0)%nat && (List.length ds <=? 15)%nat
  && plain_tail rest.

(** The whole number [whole_text] starts with. *)
Definition whole_text_value (s : jsstring) : Z :=
  digits_value (fst (span_digits s)).

(** The operation types no amount but a whole one. *)
Definition whole_operation (op : operation) : Prop :=
  match op with
  | OpAdd _ _ f => whole_text (amountStr f) = true
  | OpDelete _ => True
  end.

(** The amount of a record in units. *)
Definition units_of (t : Transaction) : Z := whole_part (Tx.amount t).

(* ================================================================= *)
(** * Sample visits *)

(** A visit: the coffee is entered and added, a frame passes, the paycheck
    is entered and added, the coffee is deleted. *)
Definition coffee_visit : list event :=
  [ChangeDescription (js " Coffee "); ChangeAmount (js "4.50");
   ChangeCategory (js "Food");
   ClickAdd 1704067200000 (js "2024-01-01") 2000%float;
   AnimationFrame 2275%float;
   ChangeDescription (js "Paycheck"); ChangeAmount (js "1000");
   ChangeType Income;
   ClickAdd 1704153600000 (js "2024-01-02") 3000%float;
   ClickDelete (js "1704067200000") 4000%float].

(** A storage area whose access is refused. *)
Definition blocked_storage : LocalStorage := {| blocked := true; items := [] |}.

(** Amounts typed with text after the digits. *)
Definition lenient_adds : list operation :=
  [OpAdd 1704067200000 (js "2024-01-01")
     (form_of "Rent" "950 EUR" "Bills" Expense "2024-01-01");
   OpAdd 1704153600000 (js "2024-01-02")
     (form_of "Paycheck" "1000" "Other" Income "2024-01-02");
   OpAdd 1704240000000 (js "2024-01-03")
     (form_of "Lunch" "12abc" "Food" Expense "2024-01-03")].

(** A visit that adds three expenses in two categories through the
    controls of the form. *)
Definition lunch_visit : list event :=
  [ChangeDescription (js "Lunch"); ChangeAmount (js "12");
   ChangeCategory (js "Food");
   ClickAdd 1704067200000 (js "2024-01-01") 1000%float;
   ChangeDescription (js "Rent"); ChangeAmount (js "950");
   ChangeCategory (js "Bills");
   ClickAdd 1704153600000 (js "2024-01-02") 2000%float;
   ChangeDescription (js "Snack"); ChangeAmount (js "3");
   ChangeCategory (js "Food");
   ClickAdd 1704240000000 (js "2024-01-03") 3000%float].

Unset Implicit Arguments.

(* ================================================================= *)
(** * Strings *)

Lemma str_eqb_eq (a b : jsstring) : str_eqb a b = true <-> a = b.
Proof.
  revert b; induction a as [|x a IH]; intros [|y b]; simpl;
    try (split; [discriminate | discriminate]); try tauto.
  rewrite andb_true_iff, N.eqb_eq, IH.
  split; [intros [-> ->]; reflexivity | intros [= -> ->]; auto].
Qed.

Lemma str_eqb_refl (a : jsstring) : str_eqb a a = true.
Proof. apply str_eqb_eq; reflexivity. Qed.

Lemma str_eqb_neq (a b : jsstring) : str_eqb a b = false <-> a <> b.
Proof.
  rewrite <- str_eqb_eq. destruct (str_eqb a b); split; congruence.
Qed.

Lemma str_eqb_sym (a b : jsstring) : str_eqb a b = str_eqb b a.
Proof.
  destruct (str_eqb a b) eqn:E.
  - apply str_eqb_eq in E; subst; symmetry; apply str_eqb_refl.
  - symmetry; apply str_eqb_neq; apply str_eqb_neq in E; congruence.
Qed.

(* ================================================================= *)
(** * Removing records *)

Section Delete.
Variable id : jsstring.

Lemma deleteTx_cons (t : Transaction) (l : list Transaction) :
  deleteTx id (t :: l)
  = if str_eqb (Tx.id t) id then deleteTx id l else t :: deleteTx id l.
Proof. unfold deleteTx; simpl; destruct (str_eqb (Tx.id t) id); reflexivity. Qed.

Lemma deleteTx_In (t : Transaction) (l : list Transaction) :
  In t (deleteTx id l) <-> In t l /\ Tx.id t <> id.
Proof.
  unfold deleteTx; rewrite filter_In, negb_true_iff, str_eqb_neq; tauto.
Qed.

Lemma deleteTx_absent (l : list Transaction) :
  ~ In id (map Tx.id l) -> deleteTx id l = l.
Proof.
  induction l as [|t l IH]; intros H; [reflexivity|].
  rewrite deleteTx_cons.
  destruct (str_eqb (Tx.id t) id) eqn:E.
  - apply str_eqb_eq in E; exfalso; apply H; left; exact E.
  - f_equal; apply IH; intros Hin; apply H; right; exact Hin.
Qed.

Lemma deleteTx_removal (l : list Transaction) : removal id l (deleteTx id l).
Proof.
  induction l as [|t l IH]; [constructor|].
  rewrite deleteTx_cons.
  destruct (str_eqb (Tx.id t) id) eqn:E.
  - apply removal_drop; [apply str_eqb_eq; exact E | exact IH].
  - apply removal_keep; [apply str_eqb_neq; exact E | exact IH].
Qed.

Lemma deleteTx_no_id (l : list Transaction) :
  ~ In id (map Tx.id (deleteTx id l)).
Proof.
  rewrite in_map_iff; intros (t & Ht & Hin).
  apply deleteTx_In in Hin; tauto.
Qed.
End Delete.

(** A removal determines its result: the relation is the graph of a
    function, so [removal] pins [deleteTx] down completely. *)
Lemma removal_functional (id : jsstring) (l out1 out2 : list Transaction) :
  removal id l out1 -> removal id l out2 -> out1 = out2.
Proof.
  intros H1; revert out2; induction H1; intros out2 H2; inversion H2; subst;
    try reflexivity; try contradiction; try (f_equal; auto); auto.
Qed.

(** C9.  [deleteTx] is idempotent: deleting an id a second time changes
    nothing, and deleting an id that no record carries leaves the list as
    it is.  [deleteTx] is a total function: no call raises an error. *)
Theorem deleteTx_idempotent (id : jsstring) (transactions : list Transaction) :
  deleteTx id (deleteTx id transactions) = deleteTx id transactions
  /\ (~ In id (map Tx.id transactions) -> deleteTx id transactions = transactions).
Proof.
  split.
  - apply deleteTx_absent, deleteTx_no_id.
  - apply deleteTx_absent.
Qed.

(** C10.  After [deleteTx id] no record with that id is left, however many
    carried it, and the other records are all kept, in their order. *)
Theorem deleteTx_removes_every_match (id : jsstring)
    (transactions : list Transaction) :
  (forall t, In t (deleteTx id transactions) -> Tx.id t <> id)
  /\ removal id transactions (deleteTx id transactions).
Proof.
  split.
  - intros t Hin; apply deleteTx_In in Hin; tauto.
  - apply deleteTx_removal.
Qed.

(** Both records with id 7 go, the others stay in order; deleting 7 again,
    or an id nobody has, changes nothing. *)
Example deleteTx_shared_id :
  map Tx.id (deleteTx (js "7") shared_id_list) = [js "8"; js "9"]
  /\ deleteTx (js "7") (deleteTx (js "7") shared_id_list)
     = deleteTx (js "7") shared_id_list
  /\ deleteTx (js "10") shared_id_list = shared_id_list.
Proof. repeat split; vm_compute; reflexivity. Qed.

(* ================================================================= *)
(** * The balance *)

Lemma balance_app (l1 l2 : list Transaction) :
  balance (l1 ++ l2)
  = fold_left (fun acc t => (acc + signed_amount t)%float) l2 (balance l1).
Proof. unfold balance; rewrite fold_left_app; reflexivity. Qed.

Lemma fold_signed (l : list Transaction) (x : number) :
  fold_left (fun acc t => (acc + signed_amount t)%float) l x
  = fold_left PrimFloat.add (map signed_amount l) x.
Proof. revert x; induction l as [|t l IH]; intros x; simpl; auto. Qed.

(** The claim C2 as stated fails: the same three incomes in two orders give
    two balances, 0.6000000000000001 and 0.6. *)
Lemma balance_depends_on_order :
  Permutation three_incomes (rev three_incomes)
  /\ balance three_incomes = 0.60000000000000009%float
  /\ balance (rev three_incomes) = 0.59999999999999998%float
  /\ PrimFloat.eqb (balance three_incomes) (balance (rev three_incomes))
     = false.
Proof.
  split; [apply Permutation_rev|].
  repeat split; vm_compute; reflexivity.
Qed.

(** C2, amended.  The balance is the sum of the signed amounts, [+amount]
    for an income and [-amount] for an expense, added in list order from 0
    in binary64 arithmetic: appending a record adds its signed amount to the
    balance of the list before it. *)
Theorem balance_signed_sum (transactions : list Transaction) :
  balance transactions = sum_left (map signed_amount transactions)
  /\ balance [] = 0%float
  /\ forall t, balance (transactions ++ [t])
               = (balance transactions + signed_amount t)%float.
Proof.
  split; [|split].
  - unfold sum_left; rewrite <- fold_signed; reflexivity.
  - reflexivity.
  - intros t; rewrite balance_app; reflexivity.
Qed.

(* ================================================================= *)
(** * The count-up effect *)

Section Animation.
Variables (a : Animator) (target started : number).

(** The run the effect starts. *)
Let run : Run :=
  {| from := prevBalanceRef a; to := target; start := started |}.

Lemma frame_before_end (now : number) (b : Animator) :
  raf b = Some run -> before_end started now = true ->
  raf (frame now b) = Some run
  /\ prevBalanceRef (frame now b) = prevBalanceRef b
  /\ displayBalance (frame now b) = frame_value run now.
Proof.
  intros Hraf Hlt; unfold frame, step; rewrite Hraf; simpl.
  unfold before_end in Hlt; rewrite Hlt; simpl; auto.
Qed.

Lemma frame_at_end (now : number) (b : Animator) :
  raf b = Some run -> before_end started now = false ->
  raf (frame now b) = None
  /\ prevBalanceRef (frame now b) = target
  /\ displayBalance (frame now b) = frame_value run now.
Proof.
  intros Hraf Hlt; unfold frame, step; rewrite Hraf; simpl.
  unfold before_end in Hlt; rewrite Hlt; simpl; auto.
Qed.

(** Frames before the end keep the run scheduled and leave
    [prevBalanceRef] alone. *)
Lemma frames_before_end (nows : list number) (b : Animator) :
  raf b = Some run ->
  Forall (fun now => before_end started now = true) nows ->
  raf (frames nows b) = Some run
  /\ prevBalanceRef (frames nows b) = prevBalanceRef b.
Proof.
  intros Hraf Hall; revert b Hraf.
  induction Hall as [|now nows Hnow _ IH]; intros b Hraf; [auto|].
  destruct (@frame_before_end now b Hraf Hnow) as (Hr & Hp & _).
  unfold frames; simpl; fold (frames nows (frame now b)).
  destruct (IH _ Hr) as (Hr' & Hp'); rewrite Hr', Hp', Hp; auto.
Qed.
End Animation.

(** The claim C1 as stated fails.  The displayed balance is 150, half way
    through a run from 500 toward 100, when the target becomes 200: the new
    run starts from 500, the target recorded before the cancelled run, and
    its first frame shows 500 again. *)
Lemma retarget_restarts_from_recorded_target :
  displayBalance running_to_100 = 150%float
  /\ raf running_to_100
     = Some {| from := 500%float; to := 100%float; start := 1000%float |}
  /\ raf retargeted_to_200
     = Some {| from := 500%float; to := 200%float; start := 1275%float |}
  /\ displayBalance (frame 1275%float retargeted_to_200) = 500%float
  /\ displayBalance (frame 1550%float retargeted_to_200) = 237.5%float.
Proof. repeat split; vm_compute; reflexivity. Qed.

(** C1, amended.  When a new target arrives while a run is in flight (every
    frame so far was before the run's end), that run's callback is replaced
    by the new run's, so it never fires again, and the new run goes toward
    the new target from [prevBalanceRef.current]: the value the cancelled run
    itself started from, whatever is displayed by then.  The frames that
    follow show the new run's values. *)
Theorem retarget_keeps_recorded_target
    (a : Animator) (target started : number) (nows : list number)
    (target' started' : number) :
  Forall (fun now => before_end started now = true) nows ->
  let in_flight := frames nows (effect target started a) in
  let restarted := effect target' started' in_flight in
  let run' :=
    {| from := prevBalanceRef a; to := target'; start := started' |} in
  raf in_flight
    = Some {| from := prevBalanceRef a; to := target; start := started |}
  /\ raf restarted = Some run'
  /\ prevBalanceRef restarted = prevBalanceRef a
  /\ displayBalance restarted = displayBalance in_flight
  /\ forall now, displayBalance (frame now restarted) = frame_value run' now.
Proof.
  intros Hall in_flight restarted run'.
  destruct (@frames_before_end a target started nows
              (effect target started a) eq_refl Hall) as (Hraf & Hprev).
  simpl in Hprev.
  repeat split.
  - exact Hraf.
  - unfold restarted, run', effect; simpl; fold in_flight in Hprev;
      rewrite Hprev; reflexivity.
  - exact Hprev.
  - intros now; unfold restarted, frame, step, effect; simpl.
    fold in_flight in Hprev; rewrite Hprev; fold run'.
    destruct (_ <? _)%float; reflexivity.
Qed.

Lemma retarget_keeps_recorded_target_witness :
  let in_flight :=
    frames [1100; 1275]%float (effect 100%float 1000%float settled_at_500) in
  raf in_flight
    = Some {| from := 500%float; to := 100%float; start := 1000%float |}
  /\ raf (effect 200%float 1275%float in_flight)
     = Some {| from := 500%float; to := 200%float; start := 1275%float |}
  /\ displayBalance in_flight = 150%float.
Proof.
  destruct (retarget_keeps_recorded_target settled_at_500 100%float 1000%float
              [1100; 1275]%float 200%float 1275%float) as (H1 & H2 & _).
  - repeat constructor.
  - split; [exact H1 | split; [exact H2 | vm_compute; reflexivity]].
Defined.

(** The claim C7 as stated fails: with a persisted income of 100 the
    balance is 100, yet the component mounts showing 0 and counts up, so
    that half way through the first run it shows 87.5. *)
Lemma mount_starts_from_zero :
  balance [sample Income "Other" 100%float] = 100%float
  /\ displayBalance (mount [sample Income "Other" 100%float] 0%float) = 0%float
  /\ raf (mount [sample Income "Other" 100%float] 0%float)
     = Some {| from := 0%float; to := 100%float; start := 0%float |}
  /\ displayBalance
       (frame 275%float (mount [sample Income "Other" 100%float] 0%float))
     = 87.5%float.
Proof. repeat split; vm_compute; reflexivity. Qed.

(** With nothing persisted the balance is 0 and every frame shows 0. *)
Example mount_empty :
  displayBalance (frames [16; 275]%float (mount [] 0%float)) = 0%float
  /\ frame 550%float (frames [16; 275]%float (mount [] 0%float))
     = initial_animator.
Proof. split; vm_compute; reflexivity. Qed.

(** C7, amended.  On initial mount the displayed value is 0 and an ordinary
    run from 0 toward the initial balance is started; frames before its end
    keep it going, and the first frame at or after the end stops it and
    records the initial balance as the previous target. *)
Theorem mount_counts_up_from_zero
    (transactions : list Transaction) (started : number)
    (nows : list number) (last : number) :
  Forall (fun now => before_end started now = true) nows ->
  before_end started last = false ->
  let run :=
    {| from := 0%float; to := balance transactions; start := started |} in
  let mounted := mount transactions started in
  displayBalance mounted = 0%float
  /\ raf mounted = Some run
  /\ raf (frames nows mounted) = Some run
  /\ prevBalanceRef (frames nows mounted) = 0%float
  /\ raf (frame last (frames nows mounted)) = None
  /\ prevBalanceRef (frame last (frames nows mounted)) = balance transactions
  /\ displayBalance (frame last (frames nows mounted)) = frame_value run last.
Proof.
  intros Hall Hlast run mounted.
  destruct (@frames_before_end initial_animator (balance transactions)
              started nows mounted eq_refl Hall) as (Hraf & Hprev).
  destruct (@frame_at_end initial_animator (balance transactions) started
              last (frames nows mounted) Hraf Hlast) as (H1 & H2 & H3).
  repeat split; auto.
Qed.

Lemma mount_counts_up_from_zero_witness :
  let mounted := mount [sample Income "Other" 100%float] 0%float in
  displayBalance mounted = 0%float
  /\ raf (frames [16; 275]%float mounted)
     = Some {| from := 0%float; to := 100%float; start := 0%float |}
  /\ prevBalanceRef (frame 550%float (frames [16; 275]%float mounted))
     = 100%float.
Proof.
  destruct (mount_counts_up_from_zero [sample Income "Other" 100%float]
              0%float [16; 275]%float 550%float)
    as (H1 & _ & H3 & _ & _ & H6 & _).
  - repeat constructor.
  - reflexivity.
  - split; [exact H1 | split; [exact H3 | exact H6]].
Defined.

(* ================================================================= *)
(** * Validation in [addTransaction] *)

Lemma trimStart_nil (s : jsstring) :
  trimStart s = [] <-> whitespace_only s = true.
Proof.
  unfold whitespace_only; induction s as [|c s IH]; simpl; [tauto|].
  destruct (is_white_space c); simpl; [exact IH|].
  split; discriminate.
Qed.

Lemma trimStart_whitespace_only (s : jsstring) :
  whitespace_only (trimStart s) = whitespace_only s.
Proof.
  unfold whitespace_only; induction s as [|c s IH]; simpl; [reflexivity|].
  destruct (is_white_space c) eqn:E; simpl; [exact IH | rewrite E; reflexivity].
Qed.

Lemma whitespace_only_rev (s : jsstring) :
  whitespace_only (rev s) = whitespace_only s.
Proof.
  unfold whitespace_only.
  destruct (forallb is_white_space s) eqn:E.
  - rewrite forallb_forall in *; intros c Hc; apply E, in_rev; exact Hc.
  - destruct (forallb is_white_space (rev s)) eqn:E'; [|reflexivity].
    rewrite <- E; symmetry.
    rewrite forallb_forall in *; intros c Hc; apply E'.
    rewrite <- in_rev; exact Hc.
Qed.

(** [trim] leaves nothing exactly when the string is blank. *)
Lemma trim_nil (s : jsstring) : trim s = [] <-> whitespace_only s = true.
Proof.
  unfold trim, trimEnd.
  rewrite <- trimStart_whitespace_only, <- whitespace_only_rev,
    <- trimStart_nil.
  split; intros H.
  - rewrite <- (rev_involutive (trimStart _)), H; reflexivity.
  - rewrite H; reflexivity.
Qed.

Lemma SFcompare_refl (x : spec_float) :
  x <> S754_nan -> SFcompare x x = Some Eq.
Proof.
  destruct x as [[]|[]| |[] m e]; simpl; intros H; try reflexivity;
    try congruence;
    rewrite Z.compare_refl, Pos.compare_cont_refl; reflexivity.
Qed.

(** [Number.isNaN(x) || x <= 0] is the negation of [0 < x]. *)
Lemma not_positive_spec (x : number) :
  PrimFloat.is_nan x || PrimFloat.leb x 0%float = negb (is_positive x).
Proof.
  unfold is_positive, PrimFloat.is_nan.
  rewrite FloatAxioms.eqb_spec, FloatAxioms.leb_spec, FloatAxioms.ltb_spec.
  change (Prim2SF 0%float) with (S754_zero false).
  unfold SFeqb, SFleb, SFltb.
  destruct (Prim2SF x) as [[]|[]| |[] m e] eqn:E; try reflexivity;
    rewrite SFcompare_refl by discriminate; reflexivity.
Qed.

(** The claim C3 as stated fails: "Infinity" parses to a number that is not
    finite, yet the record is added, with [Infinity] as its amount. *)
Lemma infinite_amount_is_accepted :
  spec_rejects infinite_amount_form = true
  /\ parseFloat (amountStr infinite_amount_form) = PrimFloat.infinity
  /\ addTransaction 1704067200000 (js "2024-01-01") infinite_amount_form []
     = Added
         [{| Tx.id := js "1704067200000"; Tx.description := js "Rent";
             Tx.amount := PrimFloat.infinity; Tx.category := js "Bills";
             Tx.type := Expense; Tx.date := js "2024-01-01" |}]
         (form_of "" "" "Other" Expense "2024-01-01")
  /\ parseFloat (js "1e999") = PrimFloat.infinity.
Proof. repeat split; vm_compute; reflexivity. Qed.

(** C3, amended.  [addTransaction] fails validation, with the alert and the
    record list untouched, exactly when the description is empty or only
    white space, or the parsed amount is not greater than zero ([NaN], zero
    or negative).  Otherwise, and so also for an amount that parses to
    [+Infinity], it prepends one record with the trimmed description and the
    parsed amount, and resets the form. *)
Theorem addTransaction_validation
    (now : Z) (today : jsstring) (f : Form) (transactions : list Transaction) :
  if whitespace_only (description f)
     || negb (is_positive (parseFloat (amountStr f)))
  then addTransaction now today f transactions
       = Alert (js "Please add a valid description and positive amount.")
       /\ apply_operation transactions (OpAdd now today f) = transactions
  else exists t,
      addTransaction now today f transactions
      = Added (t :: transactions)
          {| description := []; amountStr := []; category := js "Other";
             type := Expense; date := today |}
      /\ apply_operation transactions (OpAdd now today f) = t :: transactions
      /\ Tx.description t = trim (description f)
      /\ Tx.amount t = parseFloat (amountStr f)
      /\ Tx.type t = type f
      /\ Tx.date t = date f.
Proof.
  unfold apply_operation, addTransaction.
  rewrite <- orb_assoc, not_positive_spec.
  destruct (whitespace_only (description f)) eqn:Hd.
  - apply trim_nil in Hd; rewrite Hd; simpl; auto.
  - assert (Ht : trim (description f) <> []).
    { intros H; apply trim_nil in H; congruence. }
    destruct (trim (description f)) as [|c d] eqn:Et; [congruence|].
    simpl.
    destruct (negb (is_positive (parseFloat (amountStr f)))); simpl; [auto|].
    eexists; repeat split; reflexivity.
Qed.

(* ================================================================= *)
(** * Record ids *)

Lemma uint_digits_inj (d d' : Decimal.uint) :
  uint_digits d = uint_digits d' -> d = d'.
Proof.
  revert d'; induction d; intros d'; destruct d'; simpl; intros H;
    try discriminate; try reflexivity;
    injection H as H; f_equal; apply IHd; exact H.
Qed.

Lemma uint_digits_are_digits (d : Decimal.uint) :
  forallb is_digit (uint_digits d) = true.
Proof. induction d; simpl; auto. Qed.

Lemma to_uint_not_nil (n : N) : N.to_uint n <> Decimal.Nil.
Proof.
  destruct n as [|p]; simpl; [discriminate|].
  apply DecimalPos.Unsigned.to_uint_nonnil.
Qed.

Lemma decimal_string_inj (a b : Z) :
  (0 <= a)%Z -> (0 <= b)%Z -> decimal_string a = decimal_string b -> a = b.
Proof.
  unfold decimal_string; intros Ha Hb H.
  apply uint_digits_inj, DecimalN.Unsigned.to_uint_inj in H.
  apply Z2N.inj; assumption.
Qed.

(** The first character of a decimal string is a digit. *)
Lemma decimal_string_head (n : Z) :
  exists c rest, decimal_string n = c :: rest /\ is_digit c = true.
Proof.
  unfold decimal_string.
  pose proof (uint_digits_are_digits (N.to_uint (Z.to_N n))) as Hd.
  pose proof (to_uint_not_nil (Z.to_N n)) as Hn.
  destruct (N.to_uint (Z.to_N n)); try congruence; simpl in *;
    eexists; eexists; (split; [reflexivity | reflexivity]).
Qed.

(** Two clock readings give the same id only if they are the same. *)
Lemma Date_now_toString_inj (a b : Z) :
  Date_now_toString a = Date_now_toString b -> a = b.
Proof.
  unfold Date_now_toString.
  destruct (decimal_string_head (Z.abs a)) as (ca & ra & Ea & Hca).
  destruct (decimal_string_head (Z.abs b)) as (cb & rb & Eb & Hcb).
  destruct (Z.ltb_spec a 0) as [La | La], (Z.ltb_spec b 0) as [Lb | Lb];
    simpl; intros E.
  - injection E as E; apply decimal_string_inj in E; lia.
  - rewrite Eb in E; injection E as E _; subst cb; discriminate.
  - rewrite Ea in E; injection E as E _; subst ca; discriminate.
  - apply decimal_string_inj in E; lia.
Qed.

(** A successful add prepends a record whose id is the clock reading. *)
Lemma addTransaction_id (now : Z) (today : jsstring) (f : Form)
    (l l' : list Transaction) (f' : Form) :
  addTransaction now today f l = Added l' f' ->
  exists t, l' = t :: l /\ Tx.id t = Date_now_toString now.
Proof.
  unfold addTransaction.
  destruct (_ || _); [discriminate|].
  intros [= <- _]; eexists; split; reflexivity.
Qed.

Lemma deleteTx_NoDup (id : jsstring) (l : list Transaction) :
  NoDup (map Tx.id l) -> NoDup (map Tx.id (deleteTx id l)).
Proof.
  induction l as [|t l IH]; intros H; [constructor|].
  simpl in H; inversion H as [|? ? Hnotin Hnd]; subst.
  rewrite deleteTx_cons; destruct (str_eqb (Tx.id t) id); [auto|].
  simpl; constructor; [|auto].
  rewrite in_map_iff; intros (u & Hu & Hin).
  apply Hnotin; rewrite in_map_iff; exists u; split; [exact Hu|].
  apply deleteTx_In in Hin; tauto.
Qed.

Lemma stamped_before_weaken (b b' : Z) (l : list Transaction) :
  (b <= b')%Z -> stamped_before b l -> stamped_before b' l.
Proof.
  intros Hb H t Hin; destruct (H t Hin) as (c & Hc & E).
  exists c; split; [lia | exact E].
Qed.

Lemma run_operations_unique (ops : list operation) :
  forall (l : list Transaction) (bound : Z),
    NoDup (map Tx.id l) -> stamped_before bound l ->
    increasing (add_clocks ops) ->
    match add_clocks ops with [] => True | c :: _ => (bound <= c)%Z end ->
    NoDup (map Tx.id (run_operations ops l)).
Proof.
  induction ops as [|op ops IH]; intros l bound Hnd Hst Hinc Hfirst;
    [exact Hnd|].
  unfold run_operations; simpl; fold (run_operations ops (apply_operation l op)).
  destruct op as [now today f | id]; simpl in *.
  - destruct Hinc as (Hnext & Hinc).
    assert (Hfirst' : match add_clocks ops with
                      | [] => True
                      | c :: _ => (now + 1 <= c)%Z
                      end).
    { destruct (add_clocks ops); [exact I | lia]. }
    destruct (addTransaction now today f l) as [msg | l' f'] eqn:E.
    + apply (IH l (now + 1)%Z); auto.
      apply (stamped_before_weaken bound); [lia | exact Hst].
    + destruct (addTransaction_id now today f l l' f' E) as (t & -> & Hid).
      apply (IH (t :: l) (now + 1)%Z); auto.
      * simpl; constructor; [|exact Hnd].
        rewrite in_map_iff; intros (u & Hu & Hin).
        destruct (Hst u Hin) as (c & Hc & Ec).
        rewrite Hid, Ec in Hu; apply Date_now_toString_inj in Hu; lia.
      * intros u [<- | Hin].
        -- exists now; split; [lia | exact Hid].
        -- destruct (Hst u Hin) as (c & Hc & Ec).
           exists c; split; [lia | exact Ec].
  - apply (IH (deleteTx id l) bound); auto.
    + apply deleteTx_NoDup; exact Hnd.
    + intros t Hin; apply deleteTx_In in Hin; apply Hst; tauto.
Qed.

(** The claim C8 as stated fails: two adds while [Date.now()] reads the same
    millisecond give two records with the same id. *)
Lemma same_millisecond_same_id :
  map Tx.id (run_operations same_millisecond_adds [])
  = [js "1704067200000"; js "1704067200000"]
  /\ map Tx.description (run_operations same_millisecond_adds [])
     = [js "Paycheck"; js "Coffee"].
Proof. split; vm_compute; reflexivity. Qed.

(** C8, amended.  A successful add gives the new record the decimal text of
    the clock reading as its id.  In a store built from the empty list by
    adds and removes, ids are unique provided every add reads a later clock
    value than the add before it. *)
Theorem ids_unique_when_clock_advances (ops : list operation) :
  increasing (add_clocks ops) ->
  NoDup (map Tx.id (run_operations ops [])).
Proof.
  intros Hinc.
  destruct (add_clocks ops) as [|c cs] eqn:E.
  - apply (run_operations_unique ops [] 0%Z); try rewrite E; simpl; auto.
    + constructor.
    + intros t [].
  - apply (run_operations_unique ops [] c); try rewrite E; simpl; auto.
    + constructor.
    + intros t [].
    + lia.
Qed.

Lemma ids_unique_when_clock_advances_witness :
  NoDup (map Tx.id (run_operations coffee_then_paycheck []))
  /\ map Tx.id (run_operations coffee_then_paycheck [])
     = [js "1704153600000"; js "1704067200000"].
Proof.
  split.
  - apply (ids_unique_when_clock_advances coffee_then_paycheck).
    simpl; lia.
  - vm_compute; reflexivity.
Defined.

(* ================================================================= *)
(** * Loading *)

(** The claim C6 as stated fails: a stored document that is valid JSON but
    not a sequence of records is returned as it parses; [null] comes back as
    [null], an object as that object. *)
Lemma load_returns_what_parses :
  load (storage_with "null") = JNull
  /\ as_transactions (load (storage_with "null")) = None
  /\ load (storage_with "{'id':'1'}") = JObj [(js "id", JStr (js "1"))].
Proof. repeat split; vm_compute; reflexivity. Qed.

(** C6, amended.  [load] is a total function (no exception reaches the
    caller).  It returns the empty sequence when reading the storage
    throws, when the key is missing, and when the stored text (the empty
    string included) is not syntactically valid JSON; text that is valid
    JSON is returned as [JSON.parse] reads it, record list or not. *)
Theorem load_never_throws (ls : LocalStorage) :
  load ls
  = if blocked ls then JArr []
    else match lookup_item STORAGE_KEY (items ls) with
         | None => JArr []
         | Some raw => match JSON_parse raw with
                       | None => JArr []
                       | Some v => v
                       end
         end.
Proof.
  unfold load, getItem.
  destruct (blocked ls); [reflexivity|].
  destruct (lookup_item STORAGE_KEY (items ls)) as [[|c raw]|]; reflexivity.
Qed.

(** Truncated and otherwise malformed documents load as the empty list. *)
Example load_malformed :
  load (storage_with "[{'id':'1704067200000','descr") = JArr []
  /\ load (storage_with "[1,2") = JArr []
  /\ load (storage_with "not json") = JArr []
  /\ load (storage_with "") = JArr []
  /\ load {| blocked := false; items := [] |} = JArr []
  /\ load {| blocked := true; items := [] |} = JArr [].
Proof. repeat split; vm_compute; reflexivity. Qed.

(* ================================================================= *)
(** * Sums of positive numbers *)

Lemma shr_1_div2 (mrs : shr_record) :
  (0 <= shr_m mrs)%Z -> shr_m (shr_1 mrs) = (shr_m mrs / 2)%Z.
Proof.
  destruct mrs as [m r s]; simpl; intros Hm.
  rewrite <- Z.div2_div.
  destruct m as [|[p|p|]|p]; try reflexivity; lia.
Qed.

Lemma shr_iter_div (p : positive) :
  forall mrs : shr_record,
    (0 <= shr_m mrs)%Z ->
    shr_m (iter_pos shr_1 p mrs) = (shr_m mrs / 2 ^ Zpos p)%Z.
Proof.
  induction p as [p IH | p IH |]; intros mrs Hm; simpl iter_pos.
  - assert (H1 : (0 <= shr_m (shr_1 mrs))%Z).
    { rewrite shr_1_div2 by exact Hm; apply Z.div_pos; lia. }
    assert (H2 : (0 <= shr_m (iter_pos shr_1 p (shr_1 mrs)))%Z).
    { rewrite IH by exact H1; apply Z.div_pos; [exact H1 | lia]. }
    rewrite IH, IH, shr_1_div2 by assumption.
    rewrite !Z.div_div by lia.
    replace (Zpos p~1) with (1 + (Zpos p + Zpos p))%Z by lia.
    rewrite !Z.pow_add_r, Z.pow_1_r by lia.
    f_equal; ring.
  - assert (H2 : (0 <= shr_m (iter_pos shr_1 p mrs))%Z).
    { rewrite IH by exact Hm; apply Z.div_pos; [exact Hm | lia]. }
    rewrite IH, IH by assumption.
    rewrite Z.div_div by lia.
    replace (Zpos p~0) with (Zpos p + Zpos p)%Z by lia.
    rewrite Z.pow_add_r by lia; reflexivity.
  - rewrite shr_1_div2 by exact Hm; reflexivity.
Qed.

(** A positive integer has at least the value of its top bit. *)
Lemma digits2_pos_lower (m : positive) :
  (2 ^ (Zpos (digits2_pos m) - 1) <= Zpos m)%Z.
Proof.
  induction m as [m IH | m IH |]; simpl digits2_pos;
    rewrite ?Pos2Z.inj_succ; try reflexivity.
  - replace (Z.succ (Zpos (digits2_pos m)) - 1)%Z
      with (1 + (Zpos (digits2_pos m) - 1))%Z by lia.
    rewrite Z.pow_add_r by lia; lia.
  - replace (Z.succ (Zpos (digits2_pos m)) - 1)%Z
      with (1 + (Zpos (digits2_pos m) - 1))%Z by lia.
    rewrite Z.pow_add_r by lia; lia.
Qed.

(** Rounding a positive mantissa at an exponent not below [emin] leaves a
    positive mantissa. *)
Lemma shr_fexp_positive (m : positive) (e : Z) (l : location) :
  (emin64 <= e)%Z ->
  (0 < shr_m (fst (shr_fexp prec emax (Zpos m) e l)))%Z
  /\ (emin64 <= snd (shr_fexp prec emax (Zpos m) e l))%Z.
Proof.
  intros He; unfold shr_fexp, shr, fexp; cbn [Zdigits2].
  set (d := Zpos (digits2_pos m)).
  assert (Hrec : shr_m (shr_record_of_loc (Zpos m) l) = Zpos m).
  { destruct l as [|[]]; reflexivity. }
  destruct (Z.max (d + e - prec) emin64 - e)%Z as [|n|n] eqn:En;
    cbn [fst snd]; try (rewrite Hrec; lia).
  rewrite shr_iter_div by (rewrite Hrec; lia).
  rewrite Hrec; split; [|lia].
  assert (Hn : (Zpos n = d - prec)%Z) by (unfold prec in *; lia).
  pose proof (digits2_pos_lower m) as Hm; fold d in Hm.
  apply Z.div_str_pos; split; [lia|].
  eapply Z.le_trans; [|exact Hm].
  apply Z.pow_le_mono_r; unfold prec in *; lia.
Qed.

Lemma round_nearest_even_positive (m : Z) (l : location) :
  (0 < m)%Z -> (0 < round_nearest_even m l)%Z.
Proof.
  intros Hm; destruct l as [|[]]; simpl; try lia.
  destruct (Z.even m); lia.
Qed.

Lemma binary_round_aux_positive (m : positive) (e : Z) (l : location) :
  (emin64 <= e)%Z ->
  match binary_round_aux prec emax false (Zpos m) e l with
  | S754_infinity false | S754_finite false _ _ => True
  | _ => False
  end.
Proof.
  intros He; unfold binary_round_aux.
  destruct (shr_fexp_positive m e l He) as (H1 & H1').
  destruct (shr_fexp prec emax (Zpos m) e l) as (mrs', e'); cbn [fst snd] in *.
  pose proof (round_nearest_even_positive (shr_m mrs')
                (loc_of_shr_record mrs') H1) as H2.
  destruct (round_nearest_even (shr_m mrs') (loc_of_shr_record mrs'))
    as [|m2|m2]; try lia.
  destruct (shr_fexp_positive m2 e' loc_Exact H1') as (H3 & _).
  destruct (shr_fexp prec emax (Zpos m2) e' loc_Exact) as (mrs'', e'');
    cbn [fst snd] in *.
  destruct (shr_m mrs'') as [|m3|m3]; try lia.
  destruct (e'' <=? emax - prec)%Z; exact I.
Qed.

Lemma binary_round_positive (m : positive) (e : Z) :
  (emin64 <= e)%Z ->
  match binary_round prec emax false m e with
  | S754_infinity false | S754_finite false _ _ => True
  | _ => False
  end.
Proof.
  intros He; unfold binary_round, shl_align.
  destruct (fexp prec emax (Zpos (digits2_pos m) + e) - e)%Z eqn:Ed;
    try (apply binary_round_aux_positive; exact He).
  apply binary_round_aux_positive; unfold fexp; lia.
Qed.

(** A finite binary64 in canonical form has an exponent not below [emin]. *)
Lemma valid_exponent (s : bool) (m : positive) (e : Z) :
  valid_binary (S754_finite s m e) = true -> (emin64 <= e)%Z.
Proof.
  unfold valid_binary, bounded, canonical_mantissa, fexp.
  intros H; apply andb_true_iff in H; destruct H as (H & _).
  apply Z.eqb_eq in H; lia.
Qed.

(** The readings of [0 < x] on the specification side. *)
Lemma is_positive_spec (x : number) :
  is_positive x = true
  <-> match Prim2SF x with
      | S754_infinity false | S754_finite false _ _ => True
      | _ => False
      end.
Proof.
  unfold is_positive; rewrite FloatAxioms.ltb_spec.
  change (Prim2SF 0%float) with (S754_zero false).
  destruct (Prim2SF x) as [[]|[]| |[] m e]; simpl; split;
    try discriminate; try contradiction; auto.
Qed.

(** The sum of two positive numbers is positive. *)
Lemma add_positive (x y : number) :
  is_positive x = true -> is_positive y = true ->
  is_positive (x + y)%float = true.
Proof.
  rewrite !is_positive_spec, FloatAxioms.add_spec.
  pose proof (FloatAxioms.Prim2SF_valid x) as Vx.
  pose proof (FloatAxioms.Prim2SF_valid y) as Vy.
  unfold FloatAxioms.SF64add.
  destruct (Prim2SF x) as [[]|[]| |[] mx ex]; try contradiction;
    destruct (Prim2SF y) as [[]|[]| |[] my ey]; try contradiction;
    intros _ _; try exact I.
  apply valid_exponent in Vx, Vy.
  unfold SFadd, cond_Zopp, binary_normalize.
  rewrite <- Pos2Z.inj_add.
  apply binary_round_positive; lia.
Qed.

(** Adding a positive number to zero gives that number. *)
Lemma zero_add_positive (x : number) :
  is_positive x = true -> (0 + x)%float = x.
Proof.
  rewrite is_positive_spec; intros H.
  apply FloatAxioms.Prim2SF_inj; rewrite FloatAxioms.add_spec.
  change (Prim2SF 0%float) with (S754_zero false).
  destruct (Prim2SF x) as [[]|[]| |[] m e]; try contradiction; reflexivity.
Qed.

(** A positive number is truthy. *)
Lemma positive_truthy (x : number) :
  is_positive x = true -> number_truthy x = true.
Proof.
  rewrite is_positive_spec; intros H.
  unfold number_truthy, PrimFloat.is_nan, PrimFloat.is_zero.
  rewrite !FloatAxioms.eqb_spec.
  change (Prim2SF PrimFloat.zero) with (S754_zero false).
  unfold SFeqb.
  destruct (Prim2SF x) as [[]|[]| |[] m e]; try contradiction;
    try reflexivity.
  rewrite SFcompare_refl by discriminate; reflexivity.
Qed.

(* ================================================================= *)
(** * Totals by category *)

Section Properties.
Variable V : Type.
Implicit Types (o : object V) (k : jsstring) (v : V).

Lemma own_get_keys k o :
  own_get k o = None <-> existsb (str_eqb k) (Object_keys o) = false.
Proof.
  induction o as [|[k' v'] o IH]; simpl; [tauto|].
  rewrite (str_eqb_sym k k').
  destruct (str_eqb k' k); simpl; [split; discriminate | exact IH].
Qed.

Lemma own_update_keys k v o : Object_keys (own_update k v o) = Object_keys o.
Proof.
  induction o as [|[k' v'] o IH]; simpl; [reflexivity|].
  destruct (str_eqb k' k); simpl; [reflexivity | f_equal; exact IH].
Qed.

Lemma own_get_update k v o k' :
  own_get k' (own_update k v o)
  = if str_eqb k k' then option_map (fun _ => v) (own_get k o)
    else own_get k' o.
Proof.
  induction o as [|[k0 v0] o IH]; simpl.
  - destruct (str_eqb k k'); reflexivity.
  - destruct (str_eqb k0 k) eqn:E0; simpl.
    + apply str_eqb_eq in E0; subst k0.
      destruct (str_eqb k k'); reflexivity.
    + rewrite IH.
      destruct (str_eqb k k') eqn:E; [|reflexivity].
      apply str_eqb_eq in E; subst k'; rewrite E0; reflexivity.
Qed.

Lemma own_get_app k o k' v :
  own_get k (o ++ [(k', v)])
  = match own_get k o with
    | Some x => Some x
    | None => if str_eqb k' k then Some v else None
    end.
Proof.
  induction o as [|[k0 v0] o IH]; simpl; [reflexivity|].
  destruct (str_eqb k0 k); [reflexivity | exact IH].
Qed.

(** A key that is not an array index is created last. *)
Lemma define_plain k v o :
  array_index k = None -> own_get k o = None -> define k v o = o ++ [(k, v)].
Proof. intros Hi Hg; unfold define; rewrite Hg, Hi; reflexivity. Qed.
End Properties.

Lemma first_seen_ext (s1 s2 l : list jsstring) :
  (forall k, existsb (str_eqb k) s1 = existsb (str_eqb k) s2) ->
  first_seen s1 l = first_seen s2 l.
Proof.
  revert s1 s2; induction l as [|k l IH]; intros s1 s2 H; simpl;
    [reflexivity|].
  rewrite <- (H k).
  destruct (existsb (str_eqb k) s1); [apply IH; exact H|].
  f_equal; apply IH; intros k'; simpl; rewrite (H k'); reflexivity.
Qed.

Lemma plain_key_spec (k : jsstring) :
  plain_key k = true ->
  array_index k = None /\ inherited k = false
  /\ str_eqb k (js "__proto__") = false.
Proof.
  unfold plain_key; destruct (array_index k); [discriminate|].
  intros H; apply negb_true_iff in H; repeat split; auto.
  destruct (str_eqb k (js "__proto__")) eqn:E; [|reflexivity].
  apply str_eqb_eq in E; subst k; vm_compute in H; discriminate.
Qed.

Lemma reduce_step_plain (acc : object total) (t : Transaction) :
  all_sums acc -> plain_key (Tx.category t) = true ->
  let v := Sum (add_amount (value_of (Tx.category t) acc) (Tx.amount t)) in
  reduce_step acc t
  = match own_get (Tx.category t) acc with
    | Some _ => own_update (Tx.category t) v acc
    | None => acc ++ [(Tx.category t, v)]
    end.
Proof.
  intros Hs Hp; destruct (plain_key_spec _ Hp) as (Hi & Hh & Hproto).
  unfold reduce_step, assign, accumulate, value_of; simpl.
  specialize (Hs (Tx.category t)).
  destruct (own_get (Tx.category t) acc) as [[x|]|] eqn:E;
    [reflexivity | congruence |].
  rewrite Hh, Hproto; apply define_plain; assumption.
Qed.

Lemma reduce_plain (l : list Transaction) :
  forall acc,
    all_sums acc -> Forall (fun t => plain_key (Tx.category t) = true) l ->
    let out := fold_left reduce_step l acc in
    Object_keys out
    = Object_keys acc ++ first_seen (Object_keys acc) (map Tx.category l)
    /\ all_sums out
    /\ forall c,
        value_of c out
        = fold_left (fun v a => Some (add_amount v a))
            (map Tx.amount (filter (fun t => str_eqb (Tx.category t) c) l))
            (value_of c acc).
Proof.
  induction l as [|t l IH]; intros acc Hs Hp; simpl.
  - rewrite app_nil_r; auto.
  - inversion Hp as [|? ? Hpt Hpl]; subst.
    pose proof (reduce_step_plain acc t Hs Hpt) as Hstep; simpl in Hstep.
    set (k := Tx.category t) in *.
    set (v := Sum (add_amount (value_of k acc) (Tx.amount t))) in *.
    assert (Hs' : all_sums (reduce_step acc t)).
    { intros k'; rewrite Hstep.
      destruct (own_get k acc) eqn:E.
      - rewrite own_get_update, E; simpl.
        destruct (str_eqb k k'); [discriminate | apply Hs].
      - rewrite own_get_app.
        pose proof (Hs k') as Hk'.
        destruct (own_get k' acc); [exact Hk'|].
        destruct (str_eqb k k'); discriminate. }
    destruct (IH (reduce_step acc t) Hs' Hpl) as (Hkeys & Hall & Hval).
    split; [|split; [exact Hall|]].
    + rewrite Hkeys, Hstep.
      destruct (own_get k acc) eqn:E.
      * rewrite own_update_keys.
        destruct (existsb (str_eqb k) (Object_keys acc)) eqn:Ex;
          [reflexivity|].
        apply own_get_keys in Ex; congruence.
      * apply own_get_keys in E; rewrite E.
        unfold Object_keys at 1 2; rewrite map_app; simpl.
        rewrite <- app_assoc; simpl; do 2 f_equal.
        apply first_seen_ext; intros k'.
        rewrite existsb_app; simpl.
        rewrite orb_false_r; apply orb_comm.
    + intros c; rewrite Hval; clear Hval Hkeys Hall IH.
      assert (Hc : value_of c (reduce_step acc t)
                   = if str_eqb k c
                     then Some (add_amount (value_of c acc) (Tx.amount t))
                     else value_of c acc).
      { unfold value_of at 1; rewrite Hstep.
        destruct (own_get k acc) eqn:E.
        - rewrite own_get_update, E; simpl.
          destruct (str_eqb k c) eqn:Ec; [|reflexivity].
          apply str_eqb_eq in Ec; subst c; reflexivity.
        - rewrite own_get_app.
          destruct (str_eqb k c) eqn:Ec.
          + apply str_eqb_eq in Ec; subst c; rewrite E; reflexivity.
          + unfold value_of; destruct (own_get c acc) as [[x|]|]; reflexivity. }
      rewrite Hc; destruct (str_eqb k c); reflexivity.
Qed.

Lemma filter_filter (A : Type) (f g : A -> bool) (l : list A) :
  filter f (filter g l) = filter (fun x => g x && f x) l.
Proof.
  induction l as [|x l IH]; simpl; [reflexivity|].
  destruct (g x); simpl; [destruct (f x); rewrite IH |]; auto.
Qed.

Lemma grouped_fold (transactions : list Transaction) :
  grouped transactions = fold_left reduce_step (expenseTx transactions) [].
Proof. reflexivity. Qed.

(** The claim C5 as stated fails.  Categories that are the text of an
    integer are listed in ascending numeric order, not as first seen; and
    for a category named like a member of [Object.prototype] the total is
    text, not a sum. *)
Lemma integer_categories_are_reordered :
  first_seen [] (map Tx.category (expenseTx numbered_categories))
  = [js "2"; js "1"]
  /\ chartLabels numbered_categories = [js "1"; js "2"]
  /\ chartSeries numbered_categories = [Some (Sum 7%float); Some (Sum 5%float)]
  /\ chartLabels inherited_category = [js "constructor"]
  /\ chartSeries inherited_category = [Some Text].
Proof. repeat split; vm_compute; reflexivity. Qed.

(** On plain categories the reduce considers the Expense records only,
    groups them by the exact category string, lists the categories in the
    order they are first seen, and accumulates [(total || 0) + amount] for
    each, starting from [undefined]. *)
Lemma grouped_plain_keys (transactions : list Transaction) :
  Forall (fun t => plain_key (Tx.category t) = true) (expenseTx transactions) ->
  chartLabels transactions
  = first_seen [] (map Tx.category (expenseTx transactions))
  /\ (forall c, own_get c (grouped transactions)
                = option_map Sum (category_total c transactions))
  /\ chartSeries transactions
     = map (fun c => option_map Sum (category_total c transactions))
         (chartLabels transactions).
Proof.
  intros Hp.
  assert (H0 : all_sums []) by (intros k; discriminate).
  destruct (reduce_plain (expenseTx transactions) [] H0 Hp)
    as (Hkeys & Hall & Hval).
  unfold chartLabels, chartSeries; rewrite grouped_fold.
  set (g := fold_left reduce_step (expenseTx transactions) []) in *.
  assert (Hget : forall c, own_get c g
                           = option_map Sum (category_total c transactions)).
  { intros c; specialize (Hval c); specialize (Hall c).
    unfold category_total, category_amounts.
    rewrite <- (filter_filter Transaction
                  (fun t => str_eqb (Tx.category t) c) is_Expense).
    change (value_of c []) with (@None number) in Hval.
    fold (expenseTx transactions); rewrite <- Hval; unfold value_of.
    destruct (own_get c g) as [[x|]|];
      [reflexivity | congruence | reflexivity]. }
  split; [exact Hkeys | split; [exact Hget|]].
  apply map_ext; exact Hget.
Qed.

(** With positive amounts, [(total || 0) + amount] is plain addition. *)
Lemma fold_add_amount (l : list number) :
  forall x : number,
    is_positive x = true -> Forall (fun a => is_positive a = true) l ->
    fold_left (fun v a => Some (add_amount v a)) l (Some x)
    = Some (fold_left PrimFloat.add l x).
Proof.
  induction l as [|a l IH]; intros x Hx Hl; [reflexivity|].
  inversion Hl as [|? ? Ha Hl']; subst.
  cbn [fold_left add_amount]; rewrite (positive_truthy x Hx).
  apply IH; [apply add_positive; assumption | exact Hl'].
Qed.

Lemma category_total_sum (c : jsstring) (transactions : list Transaction) :
  Forall (fun t => is_positive (Tx.amount t) = true) (expenseTx transactions) ->
  category_total c transactions = category_sum c transactions.
Proof.
  intros Hpos; unfold category_total, category_sum.
  assert (Hl : Forall (fun a => is_positive a = true)
                 (category_amounts c transactions)).
  { unfold category_amounts; rewrite Forall_forall in *.
    intros a Ha; apply in_map_iff in Ha; destruct Ha as (t & <- & Ht).
    apply filter_In in Ht; destruct Ht as (Ht & Hc).
    apply andb_true_iff in Hc; destruct Hc as (He & _).
    apply Hpos; unfold expenseTx; apply filter_In; auto. }
  destruct (category_amounts c transactions) as [|a l]; [reflexivity|].
  inversion Hl as [|? ? Ha Hl']; subst.
  cbn [fold_left add_amount]; unfold sum_left; cbn [fold_left].
  apply fold_add_amount; [|exact Hl'].
  rewrite zero_add_positive; assumption.
Qed.

(** C5, amended.  When every Expense record has a positive amount and no
    Expense record has a category that is the decimal text of an array
    index or the name of a member of [Object.prototype], the totals consider
    the Expense records only, group them by the exact category string, list
    the categories in the order they are first seen among the expenses, and
    give each the sum of its amounts, added in list order from 0. *)
Theorem grouped_by_category (transactions : list Transaction) :
  Forall (fun t => plain_key (Tx.category t) = true) (expenseTx transactions) ->
  Forall (fun t => is_positive (Tx.amount t) = true) (expenseTx transactions) ->
  chartLabels transactions
  = first_seen [] (map Tx.category (expenseTx transactions))
  /\ (forall c, own_get c (grouped transactions)
                = option_map Sum (category_sum c transactions))
  /\ chartSeries transactions
     = map (fun c => option_map Sum (category_sum c transactions))
         (chartLabels transactions).
Proof.
  intros Hp Hpos.
  destruct (grouped_plain_keys transactions Hp) as (Hkeys & Hget & Hseries).
  split; [exact Hkeys | split].
  - intros c; rewrite Hget, (category_total_sum c transactions Hpos).
    reflexivity.
  - rewrite Hseries; apply map_ext; intros c.
    rewrite (category_total_sum c transactions Hpos); reflexivity.
Qed.

Lemma grouped_by_category_witness :
  chartLabels paycheck_and_coffee = [js "Food"]
  /\ own_get (js "Food") (grouped paycheck_and_coffee) = Some (Sum 4.5%float)
  /\ own_get (js "Other") (grouped paycheck_and_coffee) = None
  /\ balance paycheck_and_coffee = 995.5%float.
Proof.
  destruct (grouped_by_category paycheck_and_coffee) as (H1 & H2 & _).
  - repeat constructor.
  - repeat constructor.
  - rewrite H1, !H2; repeat split; vm_compute; reflexivity.
Defined.

(* ================================================================= *)
(** * JSON text of strings *)

Lemma hex_value_digit (v : N) :
  (v < 16)%N -> hex_value (hex_digit v) = Some v.
Proof.
  intros H.
  assert (E : In v [0; 1; 2; 3; 4; 5; 6; 7; 8; 9; 10; 11; 12; 13; 14; 15]%N).
  { simpl; lia. }
  simpl in E; repeat (destruct E as [<- | E]; [reflexivity|]); destruct E.
Qed.

Lemma hex4_digits (c : code_unit) :
  (c < 65536)%N ->
  hex4 (hex_digit (c / 4096 mod 16)) (hex_digit (c / 256 mod 16))
    (hex_digit (c / 16 mod 16)) (hex_digit (c mod 16)) = Some c.
Proof.
  intros H; unfold hex4.
  rewrite !hex_value_digit by (apply N.mod_upper_bound; discriminate).
  f_equal; zify; Z.to_euclidean_division_equations; lia.
Qed.

(** A character that stands for itself inside a JSON string. *)
Lemma parse_string_body_raw (c : code_unit) (r : jsstring) :
  (c =? 34)%N = false -> (c =? 92)%N = false -> (c <? 32)%N = false ->
  parse_string_body (c :: r)
  = match parse_string_body r with
    | Some (t, rest) => Some (c :: t, rest)
    | None => None
    end.
Proof. intros H1 H2 H3; simpl; rewrite H1, H2, H3; reflexivity. Qed.

Lemma parse_string_body_escape (c : code_unit) (r : jsstring) :
  (c < 65536)%N ->
  parse_string_body (unicode_escape c ++ r)
  = match parse_string_body r with
    | Some (t, rest) => Some (c :: t, rest)
    | None => None
    end.
Proof.
  intros H; unfold unicode_escape.
  cbn [app parse_string_body N.eqb Pos.eqb].
  rewrite (hex4_digits c H); reflexivity.
Qed.

Lemma parse_quote_chars_length (n : nat) :
  forall (s rest : jsstring),
    (List.length s <= n)%nat ->
    parse_string_body (quote_chars s ++ 34%N :: rest) = Some (s, rest).
Proof.
  induction n as [|n IH]; intros s rest Hlen.
  - destruct s; [reflexivity | simpl in Hlen; lia].
  - destruct s as [|c s]; [reflexivity|].
    simpl in Hlen.
    assert (IHs : forall rest', parse_string_body (quote_chars s ++ 34%N :: rest')
                               = Some (s, rest')).
    { intros rest'; apply IH; lia. }
    cbn [quote_chars].
    repeat match goal with
    | |- context [if (c =? ?k)%N then _ else _] =>
        destruct (N.eqb_spec c k) as [-> | ?];
        [ cbn [app parse_string_body N.eqb Pos.eqb]; rewrite IHs; reflexivity |]
    end.
    destruct (N.ltb_spec c 32) as [Hlt | Hge].
    { rewrite <- app_assoc, parse_string_body_escape, IHs by lia; reflexivity. }
    assert (Hraw : forall d r, (32 <= d)%N -> d <> 34%N -> d <> 92%N ->
              parse_string_body (d :: r)
              = match parse_string_body r with
                | Some (t, rest) => Some (d :: t, rest)
                | None => None
                end).
    { intros d r H1 H2 H3; apply parse_string_body_raw.
      - apply N.eqb_neq; assumption.
      - apply N.eqb_neq; assumption.
      - apply N.ltb_ge; assumption. }
    unfold is_high_surrogate, is_low_surrogate.
    destruct (N.leb_spec 55296 c) as [Hhi | Hhi];
      destruct (N.leb_spec c 56319) as [Hhi' | Hhi']; cbn [andb].
    + destruct s as [|d s'].
      * rewrite parse_string_body_escape by lia; reflexivity.
      * destruct (N.leb_spec 56320 d) as [Hlo | Hlo];
          destruct (N.leb_spec d 57343) as [Hlo' | Hlo']; cbn [andb].
        -- cbn [app]; rewrite !Hraw by lia.
           rewrite (IH s' rest) by (simpl in Hlen; lia); reflexivity.
        -- rewrite <- app_assoc, parse_string_body_escape, IHs by lia.
           reflexivity.
        -- rewrite <- app_assoc, parse_string_body_escape, IHs by lia.
           reflexivity.
        -- rewrite <- app_assoc, parse_string_body_escape, IHs by lia.
           reflexivity.
    + destruct (N.leb_spec 56320 c) as [Hlo | Hlo];
        destruct (N.leb_spec c 57343) as [Hlo' | Hlo']; cbn [andb];
        try (rewrite <- app_assoc, parse_string_body_escape, IHs by lia;
             reflexivity);
        cbn [app]; rewrite Hraw, IHs by lia; reflexivity.
    + destruct (N.leb_spec 56320 c) as [Hlo | Hlo];
        destruct (N.leb_spec c 57343) as [Hlo' | Hlo']; cbn [andb];
        try lia; cbn [app]; rewrite Hraw, IHs by lia; reflexivity.
    + lia.
Qed.

(** Reading a quoted string gives the string back. *)
Lemma parse_quote_chars (s rest : jsstring) :
  parse_string_body (quote_chars s ++ 34%N :: rest) = Some (s, rest).
Proof. apply (parse_quote_chars_length (List.length s)); lia. Qed.

(* ================================================================= *)
(** * Rounding to nearest *)

(** What [round_ratio] returns for a quotient next to a binary64: the
    shift of [binary_round_aux] followed step by step on integers, then
    stated on rationals. *)

(** A shift by one bit halves the quotient that the record holds. *)
Lemma shr_1_located (N B : Z) (mrs : shr_record) :
  (0 < B)%Z -> (0 <= N)%Z ->
  located N B mrs -> located N (2 * B) (shr_1 mrs).
Proof.
  intros HB HN (H1 & H2).
  assert (Hq : (0 <= N / B)%Z) by (apply Z.div_pos; lia).
  assert (Hd : (N / (2 * B) = N / B / 2)%Z).
  { rewrite Zdiv_Zdiv by lia. f_equal; lia. }
  assert (Hm : (N mod (2 * B) = N mod B + B * ((N / B) mod 2))%Z).
  { rewrite (Z.mul_comm 2 B). apply Z.rem_mul_r; lia. }
  pose proof (Z.mod_pos_bound N B HB) as Hr.
  destruct mrs as [m r s]; cbn [shr_m shr_r shr_s] in *.
  unfold located, shr_1.
  assert (Hm0 : (0 <= m)%Z) by (destruct r; cbn [Z.b2z] in H1; lia).
  rewrite Hd, Hm, <- H1, H2.
  assert (Hpar : ((2 * m + Z.b2z r) mod 2 = Z.b2z r)%Z).
  { destruct r; cbn [Z.b2z]; [|rewrite Z.add_0_r].
    - rewrite Z.add_comm, Z.mul_comm, Z.mod_add by lia. reflexivity.
    - rewrite Z.mul_comm; apply Z.mod_mul; lia. }
  assert (Hhalf : ((2 * m + Z.b2z r) / 2 = m)%Z).
  { destruct r; cbn [Z.b2z]; [|rewrite Z.add_0_r].
    - rewrite Z.add_comm, Z.mul_comm, Z.div_add by lia. reflexivity.
    - rewrite Z.mul_comm; apply Z.div_mul; lia. }
  rewrite Hpar, Hhalf.
  assert (Hs : (r || negb (N mod B =? 0)%Z
                = negb (N mod B + B * Z.b2z r =? 0)%Z)).
  { destruct r; cbn [Z.b2z orb].
    - symmetry; apply negb_true_iff, Z.eqb_neq; lia.
    - rewrite Z.mul_0_r, Z.add_0_r; reflexivity. }
  destruct m as [|[p|p|]|p]; cbn [shr_m shr_r shr_s]; try lia;
    rewrite Hs; split; reflexivity.
Qed.

(** A shift by [p] bits divides it by [2^p]. *)
Lemma iter_located (p : positive) :
  forall (N B : Z) (mrs : shr_record),
    (0 < B)%Z -> (0 <= N)%Z ->
    located N B mrs -> located N (2 ^ Zpos p * B) (iter_pos shr_1 p mrs).
Proof.
  induction p as [p IH | p IH |]; intros N B mrs HB HN H; simpl iter_pos.
  - replace (2 ^ Zpos p~1 * B)%Z with (2 ^ Zpos p * (2 ^ Zpos p * (2 * B)))%Z.
    + assert (H2 : (0 < 2 ^ Zpos p)%Z) by (apply Z.pow_pos_nonneg; lia).
      apply IH; [nia | lia |]. apply IH; [lia | lia |].
      apply shr_1_located; assumption.
    + replace (Zpos p~1) with (Zpos p + Zpos p + 1)%Z by lia.
      rewrite !Z.pow_add_r, Z.pow_1_r by lia. ring.
  - replace (2 ^ Zpos p~0 * B)%Z with (2 ^ Zpos p * (2 ^ Zpos p * B))%Z.
    + assert (H2 : (0 < 2 ^ Zpos p)%Z) by (apply Z.pow_pos_nonneg; lia).
      apply IH; [nia | lia |]. apply IH; assumption.
    + replace (Zpos p~0) with (Zpos p + Zpos p)%Z by lia.
      rewrite !Z.pow_add_r by lia. ring.
  - change (2 ^ 1)%Z with 2%Z. apply shr_1_located; assumption.
Qed.

(** The quotient and the location that the division hands to the rounding. *)
Lemma new_location_located (a d : Z) :
  (0 <= a)%Z -> (0 < d)%Z ->
  located (2 * a) d
    (shr_record_of_loc (a / d) (new_location d (a mod d))).
Proof.
  intros Ha Hd.
  pose proof (Z.mod_pos_bound a d Hd) as Hr.
  pose proof (Z.div_mod a d ltac:(lia)) as Ea.
  set (q := (a / d)%Z) in *; set (r := (a mod d)%Z) in *.
  assert (Hlow : (2 * r < d)%Z ->
                 ((2 * a) / d = 2 * q /\ (2 * a) mod d = 2 * r)%Z).
  { intros H. assert (E : (2 * a = d * (2 * q) + 2 * r)%Z) by lia.
    split; [symmetry; apply (Z.div_unique_pos _ _ _ (2 * r)%Z); lia
           | symmetry; apply (Z.mod_unique_pos _ _ (2 * q)%Z); lia]. }
  assert (Hhigh : (d <= 2 * r)%Z ->
                  ((2 * a) / d = 2 * q + 1 /\ (2 * a) mod d = 2 * r - d)%Z).
  { intros H. assert (E : (2 * a = d * (2 * q + 1) + (2 * r - d))%Z) by lia.
    split; [symmetry; apply (Z.div_unique_pos _ _ _ (2 * r - d)%Z); lia
           | symmetry; apply (Z.mod_unique_pos _ _ (2 * q + 1)%Z); lia]. }
  unfold located, new_location, new_location_even, new_location_odd.
  destruct (Z.even d) eqn:Ev.
  - destruct (Z.eqb_spec r 0) as [E0|N0].
    + destruct Hlow as (-> & ->); [lia|].
      cbn [shr_record_of_loc shr_m shr_r shr_s Z.b2z]. rewrite E0. split; [lia | reflexivity].
    + destruct (Z.compare_spec (2 * r) d) as [E|L|G];
        cbn [shr_record_of_loc shr_m shr_r shr_s Z.b2z].
      * destruct Hhigh as (-> & ->); [lia|].
        split; [lia|]. replace (2 * r - d)%Z with 0%Z by lia. reflexivity.
      * destruct Hlow as (-> & ->); [lia|].
        split; [lia|]. symmetry; apply negb_true_iff, Z.eqb_neq; lia.
      * destruct Hhigh as (-> & ->); [lia|].
        split; [lia|]. symmetry; apply negb_true_iff, Z.eqb_neq; lia.
  - assert (Hodd : (2 * r <> d)%Z).
    { intros E. rewrite <- E, Z.even_mul in Ev. discriminate. }
    destruct (Z.eqb_spec r 0) as [E0|N0].
    + destruct Hlow as (-> & ->); [lia|].
      cbn [shr_record_of_loc shr_m shr_r shr_s Z.b2z]. rewrite E0. split; [lia | reflexivity].
    + destruct (Z.compare_spec (2 * r + 1) d) as [E|L|G];
        cbn [shr_record_of_loc shr_m shr_r shr_s Z.b2z].
      * destruct Hlow as (-> & ->); [lia|].
        split; [lia|]. symmetry; apply negb_true_iff, Z.eqb_neq; lia.
      * destruct Hlow as (-> & ->); [lia|].
        split; [lia|]. symmetry; apply negb_true_iff, Z.eqb_neq; lia.
      * destruct Hhigh as (-> & ->); [lia|].
        split; [lia|]. symmetry; apply negb_true_iff, Z.eqb_neq; lia.
Qed.

(** The number of binary digits of a positive integer. *)
Lemma digits2_pos_log2 (p : positive) :
  Zpos (digits2_pos p) = (Z.log2 (Zpos p) + 1)%Z.
Proof.
  assert (H : forall q, digits2_pos q = Pos.size q).
  { induction q as [q IH | q IH |]; simpl; congruence. }
  rewrite H; destruct p as [p|p|]; simpl; lia.
Qed.

Lemma Zdigits2_bounds (q : Z) :
  (0 < q)%Z -> (2 ^ (Zdigits2 q - 1) <= q < 2 ^ Zdigits2 q)%Z.
Proof.
  intros Hq; destruct q as [|p|p]; try lia.
  cbn [Zdigits2]; rewrite digits2_pos_log2.
  pose proof (Z.log2_spec (Zpos p) Hq) as H.
  replace (Z.log2 (Zpos p) + 1 - 1)%Z with (Z.log2 (Zpos p)) by lia.
  replace (Z.log2 (Zpos p) + 1)%Z with (Z.succ (Z.log2 (Zpos p))) by lia.
  exact H.
Qed.

Lemma Zdigits2_unique (q d : Z) :
  (2 ^ (d - 1) <= q < 2 ^ d)%Z -> (0 < q)%Z -> Zdigits2 q = d.
Proof.
  intros H Hq; destruct q as [|p|p]; try lia.
  cbn [Zdigits2]; rewrite digits2_pos_log2.
  assert (Hd : (0 < d)%Z).
  { destruct (Z.lt_ge_cases 0 d) as [|Hd]; [assumption|].
    destruct (Z.eq_dec d 0) as [->|Hn]; [simpl in H; lia|].
    rewrite (Z.pow_neg_r 2 d) in H by lia; lia. }
  rewrite (Z.log2_unique (Zpos p) (d - 1)); [lia | lia |].
  replace (Z.succ (d - 1)) with d by lia; exact H.
Qed.

Lemma Zdigits2_nonneg (q : Z) : (0 <= Zdigits2 q)%Z.
Proof. destruct q; simpl; lia. Qed.

Lemma Zdigits2_le (a b : Z) :
  (0 <= a <= b)%Z -> (Zdigits2 a <= Zdigits2 b)%Z.
Proof.
  intros H.
  destruct (Z.eq_dec a 0) as [->|Ha]; [apply Zdigits2_nonneg|].
  pose proof (Zdigits2_bounds a ltac:(lia)) as Ba.
  pose proof (Zdigits2_bounds b ltac:(lia)) as Bb.
  destruct (Z.le_gt_cases (Zdigits2 a) (Zdigits2 b)) as [|G]; [assumption|].
  assert (2 ^ Zdigits2 b <= 2 ^ (Zdigits2 a - 1))%Z.
  { apply Z.pow_le_mono_r; lia. }
  lia.
Qed.

(** A finite binary64 in canonical form: the exponent that [fexp] gives its
    digits, within range. *)
Lemma bounded_spec (m : positive) (e : Z) :
  bounded prec emax m e = true ->
  fexp prec emax (Zpos (digits2_pos m) + e) = e /\ (e <= emax - prec)%Z.
Proof.
  unfold bounded, canonical_mantissa; intros H.
  apply andb_true_iff in H; destruct H as (H1 & H2).
  apply Z.eqb_eq in H1; apply Z.leb_le in H2; auto.
Qed.

(** Rounding to nearest, on integers: when the shift ends at the exponent
    [e] and the quotient there is in the half-unit below or above [m], the
    result is [m * 2^e]. *)
Lemma binary_round_aux_located (q e' : Z) (l : location) (N B : Z)
    (m : positive) (e : Z) :
  (0 < B)%Z -> (0 <= N)%Z ->
  located N B (shr_record_of_loc q l) ->
  bounded prec emax m e = true ->
  Z.max (fexp prec emax (Zdigits2 q + e')) e' = e ->
  (N / (2 ^ (e - e') * B) = 2 * Zpos m
   \/ (N / (2 ^ (e - e') * B) = 2 * Zpos m - 1
       /\ N mod (2 ^ (e - e') * B) <> 0))%Z ->
  binary_round_aux prec emax false q e' l = S754_finite false m e.
Proof.
  intros HB HN Hloc Hb He Hq.
  destruct (bounded_spec m e Hb) as (Hc & Hmax).
  assert (H1 : exists mrs,
             shr_fexp prec emax q e' l = (mrs, e)
             /\ located N (2 ^ (e - e') * B) mrs).
  { unfold shr_fexp, shr.
    destruct (fexp prec emax (Zdigits2 q + e') - e')%Z as [|p|p] eqn:Es.
    - exists (shr_record_of_loc q l); split; [f_equal; lia|].
      replace (e - e')%Z with 0%Z by lia.
      rewrite Z.pow_0_r, Z.mul_1_l; exact Hloc.
    - exists (iter_pos shr_1 p (shr_record_of_loc q l)); split; [f_equal; lia|].
      replace (e - e')%Z with (Zpos p) by lia.
      apply iter_located; assumption.
    - exists (shr_record_of_loc q l); split; [f_equal; lia|].
      replace (e - e')%Z with 0%Z by lia.
      rewrite Z.pow_0_r, Z.mul_1_l; exact Hloc. }
  destruct H1 as (mrs & E1 & (L1 & L2)).
  unfold binary_round_aux; rewrite E1.
  assert (Hr : round_nearest_even (shr_m mrs) (loc_of_shr_record mrs) = Zpos m).
  { destruct mrs as [m1 r1 s1]; cbn [shr_m shr_r shr_s] in *.
    destruct Hq as [Hq | (Hq & Hne)]; rewrite Hq in L1.
    - destruct r1; cbn [Z.b2z] in L1; [lia|].
      assert (m1 = Zpos m) by lia; subst m1.
      destruct s1; reflexivity.
    - destruct r1; cbn [Z.b2z] in L1; [|lia].
      assert (Hs : s1 = true).
      { rewrite L2; apply negb_true_iff, Z.eqb_neq; exact Hne. }
      rewrite Hs; cbn [loc_of_shr_record round_nearest_even]; lia. }
  rewrite Hr.
  unfold shr_fexp, shr; cbn [Zdigits2]; rewrite Hc, Z.sub_diag.
  cbn [shr_record_of_loc shr_m].
  apply Z.leb_le in Hmax; rewrite Hmax; reflexivity.
Qed.

(* ----------------------------------------------------------------- *)
(** ** Quotients as rationals *)

Lemma Qpow_pos (b : Q) (e : Z) : (0 < b)%Q -> (0 < b ^ e)%Q.
Proof. apply Qpower_0_lt. Qed.

Lemma Qpow_Z (b k : Z) : (0 <= k)%Z -> (inject_Z (b ^ k) == inject_Z b ^ k)%Q.
Proof. apply Zpower_Qpower. Qed.

Lemma Qpow_add (b : Q) (i j : Z) :
  (0 < b)%Q -> (b ^ (i + j) == b ^ i * b ^ j)%Q.
Proof. intros Hb; apply Qpower_plus; lra. Qed.

Lemma Qpow_sub (b : Q) (i j : Z) :
  (0 < b)%Q -> (b ^ (i - j) == b ^ i / b ^ j)%Q.
Proof. intros Hb; apply Qpower_minus; lra. Qed.

Lemma Qpow_lt_inv (b : Q) (i j : Z) :
  (1 < b)%Q -> (b ^ i < b ^ j)%Q -> (i < j)%Z.
Proof.
  intros Hb H.
  destruct (Z.lt_ge_cases i j) as [|G]; [assumption|exfalso].
  assert (b ^ j <= b ^ i)%Q by (apply Qpower_le_compat_l; [lia | lra]).
  lra.
Qed.

Lemma Qpow_le (b : Q) (i j : Z) :
  (1 <= b)%Q -> (i <= j)%Z -> (b ^ i <= b ^ j)%Q.
Proof. intros Hb H; apply Qpower_le_compat_l; assumption. Qed.

(** Comparing two fractions with positive denominators. *)
Lemma Qdiv_le_cross (a b c d : Q) :
  (0 < b)%Q -> (0 < d)%Q -> (a / b <= c / d)%Q <-> (a * d <= c * b)%Q.
Proof.
  intros Hb Hd.
  assert (E1 : (a * d == a / b * (b * d))%Q) by (field; lra).
  assert (E2 : (c * b == c / d * (b * d))%Q) by (field; lra).
  assert (Hbd : (0 < b * d)%Q) by nra.
  rewrite E1, E2; split; intros H.
  - apply Qmult_le_compat_r; lra.
  - apply Qmult_le_r in H; assumption.
Qed.

Lemma Qdiv_lt_cross (a b c d : Q) :
  (0 < b)%Q -> (0 < d)%Q -> (a / b < c / d)%Q <-> (a * d < c * b)%Q.
Proof.
  intros Hb Hd.
  assert (E1 : (a * d == a / b * (b * d))%Q) by (field; lra).
  assert (E2 : (c * b == c / d * (b * d))%Q) by (field; lra).
  assert (Hbd : (0 < b * d)%Q) by nra.
  rewrite E1, E2; split; intros H.
  - apply Qmult_lt_compat_r; lra.
  - apply Qmult_lt_r in H; assumption.
Qed.

Lemma inject_Z_pos (z : Z) : (0 < z)%Z -> (0 < inject_Z z)%Q.
Proof. intros H; change 0%Q with (inject_Z 0); rewrite <- Zlt_Qlt; exact H. Qed.

Section Scaled.
Variables (c n d e k T : Z).
Hypothesis Hd : (0 < d)%Z.
Hypothesis Hk : (0 <= k)%Z.
Hypothesis HT : (0 <= T)%Z.
Hypothesis He : (e = k - T)%Z.

Lemma scaled_value :
  (inject_Z c * 2 ^ e == inject_Z (c * 2 ^ k) / inject_Z (2 ^ T))%Q.
Proof.
  rewrite He, Qpow_sub by lra.
  rewrite inject_Z_mult, !Qpow_Z by assumption.
  change (inject_Z 2) with 2%Q.
  assert (0 < 2 ^ T)%Q by (apply Qpow_pos; lra).
  field; lra.
Qed.

Lemma pow2_pos_T : (0 < inject_Z (2 ^ T))%Q.
Proof. apply inject_Z_pos, Z.pow_pos_nonneg; lia. Qed.

Lemma scaled_le :
  (inject_Z c * 2 ^ e <= inject_Z n / inject_Z d)%Q ->
  (c * 2 ^ k * d <= n * 2 ^ T)%Z.
Proof.
  rewrite scaled_value.
  rewrite Qdiv_le_cross by (apply pow2_pos_T || apply inject_Z_pos, Hd).
  rewrite <- !inject_Z_mult, <- Zle_Qle; trivial.
Qed.

Lemma scaled_lt_l :
  (inject_Z c * 2 ^ e < inject_Z n / inject_Z d)%Q ->
  (c * 2 ^ k * d < n * 2 ^ T)%Z.
Proof.
  rewrite scaled_value.
  rewrite Qdiv_lt_cross by (apply pow2_pos_T || apply inject_Z_pos, Hd).
  rewrite <- !inject_Z_mult, <- Zlt_Qlt; trivial.
Qed.

Lemma scaled_lt_r :
  (inject_Z n / inject_Z d < inject_Z c * 2 ^ e)%Q ->
  (n * 2 ^ T < c * 2 ^ k * d)%Z.
Proof.
  rewrite scaled_value.
  rewrite Qdiv_lt_cross by (apply pow2_pos_T || apply inject_Z_pos, Hd).
  rewrite <- !inject_Z_mult, <- Zlt_Qlt; trivial.
Qed.

End Scaled.

(** The quotient and location that [SFdiv_core_binary] computes for two
    positive integers. *)
Lemma SFdiv_core_binary_pos (n d : Z) :
  (0 < n)%Z -> (0 < d)%Z ->
  let e' := Z.min (fexp prec emax (Zdigits2 n - Zdigits2 d)) 0 in
  SFdiv_core_binary prec emax n 0 d 0
  = ((n * 2 ^ (- e') / d)%Z, e', new_location d ((n * 2 ^ (- e')) mod d)%Z).
Proof.
  intros Hn Hd e'; unfold SFdiv_core_binary.
  rewrite !Z.add_0_r, Z.sub_diag; fold e'.
  assert (He' : (e' <= 0)%Z) by (unfold e'; lia).
  replace (0 - e')%Z with (- e')%Z by lia.
  assert (Em : match (- e')%Z with
               | Zpos _ => Z.shiftl n (- e')
               | Z0 => n
               | Zneg _ => 0%Z
               end = (n * 2 ^ (- e'))%Z).
  { destruct (- e')%Z as [|p|p] eqn:E; try lia.
    rewrite Z.shiftl_mul_pow2 by lia; reflexivity. }
  rewrite Em.
  unfold Z.div, Z.modulo.
  destruct (Z.div_eucl (n * 2 ^ (- e')) d) as (q, r); reflexivity.
Qed.

(** The exponent at which the division is carried out is not above the
    exponent of a number that bounds the quotient. *)
Lemma division_exponent_le (n d : Z) (m : positive) (e : Z) :
  (0 < n)%Z -> (0 < d)%Z -> bounded prec emax m e = true ->
  (inject_Z n / inject_Z d < 2 ^ (Zpos (digits2_pos m) + e))%Q ->
  (Z.min (fexp prec emax (Zdigits2 n - Zdigits2 d)) 0 <= e)%Z.
Proof.
  intros Hn Hd Hb Hlt.
  destruct (bounded_spec m e Hb) as (Hc & _).
  pose proof (Zdigits2_bounds n Hn) as (Bn & _).
  pose proof (Zdigits2_bounds d Hd) as (Bd1 & Bd).
  assert (Hdn : (1 <= Zdigits2 n)%Z).
  { destruct n; simpl; lia. }
  assert (Hdd : (1 <= Zdigits2 d)%Z).
  { destruct d; simpl; lia. }
  set (dn := Zdigits2 n) in *; set (dd := Zdigits2 d) in *.
  assert (Hz : (2 ^ (dn - 1) * d < n * 2 ^ dd)%Z).
  { assert (0 < 2 ^ (dn - 1))%Z by (apply Z.pow_pos_nonneg; lia). nia. }
  assert (Hq : (2 ^ (dn - 1 - dd) < inject_Z n / inject_Z d)%Q).
  { rewrite Qpow_sub by lra.
    change 2%Q with (inject_Z 2); rewrite <- !Qpow_Z by lia.
    apply Qdiv_lt_cross;
      try (apply inject_Z_pos; try apply Z.pow_pos_nonneg; lia).
    rewrite <- !inject_Z_mult, <- Zlt_Qlt; exact Hz. }
  assert (Hlt' : (dn - 1 - dd < Zpos (digits2_pos m) + e)%Z).
  { apply (Qpow_lt_inv 2); [lra|]. eapply Qlt_trans; eassumption. }
  unfold fexp in *; lia.
Qed.

(** A positive integer below the next power of two, as rationals. *)
Lemma mantissa_below_pow (m : positive) :
  (inject_Z (Zpos m) + 1 <= 2 ^ Zpos (digits2_pos m))%Q.
Proof.
  pose proof (Zdigits2_bounds (Zpos m) ltac:(lia)) as (_ & H).
  cbn [Zdigits2] in H.
  change 2%Q with (inject_Z 2); rewrite <- Qpow_Z by lia.
  change 1%Q with (inject_Z 1); rewrite <- inject_Z_plus, <- Zle_Qle; lia.
Qed.

(** Round to nearest, from above: a quotient in the half-unit above
    [m * 2^e] is rounded to it. *)
Lemma round_ratio_above (n d : Z) (m : positive) (e : Z) :
  (0 < n)%Z -> (0 < d)%Z -> bounded prec emax m e = true ->
  (inject_Z (Zpos m) * 2 ^ e <= inject_Z n / inject_Z d)%Q ->
  (inject_Z n / inject_Z d < (inject_Z (Zpos m) + (1 # 2)) * 2 ^ e)%Q ->
  round_ratio false n d = S754_finite false m e.
Proof.
  intros Hn Hd Hb Hlo Hhi.
  destruct (bounded_spec m e Hb) as (Hc & Hmax).
  pose proof (Qpow_pos 2 e ltac:(lra)) as P2.
  pose proof (mantissa_below_pow m) as Hm1.
  set (dm := Zpos (digits2_pos m)) in *.
  set (e' := Z.min (fexp prec emax (Zdigits2 n - Zdigits2 d)) 0).
  assert (He' : (e' <= e)%Z).
  { apply (division_exponent_le n d m e); try assumption.
    fold dm; rewrite Qpow_add by lra.
    eapply Qlt_le_trans; [exact Hhi|].
    apply Qmult_le_compat_r; lra. }
  assert (He0 : (e' <= 0)%Z) by (unfold e'; lia).
  set (T := (- e')%Z); set (k := (e - e')%Z).
  assert (A1 : (Zpos m * 2 ^ k * d <= n * 2 ^ T)%Z).
  { apply (scaled_le _ _ _ e); unfold k, T; try lia; exact Hlo. }
  assert (A2 : (2 * n * 2 ^ T < (2 * Zpos m + 1) * 2 ^ k * d)%Z).
  { apply (scaled_lt_r _ _ _ e); unfold k, T; try lia.
    rewrite inject_Z_plus, !inject_Z_mult.
    change (inject_Z 2) with 2%Q; change (inject_Z 1) with 1%Q.
    assert (E : (2 * inject_Z n / inject_Z d == 2 * (inject_Z n / inject_Z d))%Q).
    { field. pose proof (inject_Z_pos d Hd); lra. }
    rewrite E; lra. }
  assert (Pk : (0 < 2 ^ k)%Z) by (apply Z.pow_pos_nonneg; unfold k; lia).
  assert (PT : (0 < 2 ^ T)%Z) by (apply Z.pow_pos_nonneg; unfold T; lia).
  pose proof (Zdigits2_bounds (Zpos m) ltac:(lia)) as (Bm1 & Bm2).
  cbn [Zdigits2] in Bm1, Bm2; fold dm in Bm1, Bm2.
  assert (Hdm : (1 <= dm)%Z) by (unfold dm; lia).
  unfold round_ratio.
  destruct n as [|pn|pn]; try lia; destruct d as [|pd|pd]; try lia.
  rewrite (SFdiv_core_binary_pos (Zpos pn) (Zpos pd) Hn Hd).
  cbv zeta; fold e'; fold T.
  set (a := (Zpos pn * 2 ^ T)%Z) in *.
  assert (Ha : (0 < a)%Z) by (unfold a; apply Z.mul_pos_pos; lia).
  apply (binary_round_aux_located _ _ _ (2 * a) (Zpos pd)); try assumption.
  - lia.
  - apply new_location_located; lia.
  - assert (Hq1 : (Zpos m * 2 ^ k <= a / Zpos pd)%Z).
    { apply Z.div_le_lower_bound; lia. }
    assert (Hq2 : (a / Zpos pd < (Zpos m + 1) * 2 ^ k)%Z).
    { apply Z.div_lt_upper_bound; [lia|]. nia. }
    assert (Hdq : Zdigits2 (a / Zpos pd) = (dm + k)%Z).
    { apply Zdigits2_unique; [|nia].
      replace (dm + k - 1)%Z with (dm - 1 + k)%Z by lia.
      rewrite !Z.pow_add_r by (unfold k; lia). nia. }
    rewrite Hdq.
    replace (dm + k + e')%Z with (dm + e)%Z by (unfold k; lia).
    rewrite Hc; lia.
  - left. fold k.
    symmetry; apply (Z.div_unique_pos _ _ _ (2 * a - 2 ^ k * Zpos pd * (2 * Zpos m))%Z);
      [|ring].
    unfold a; nia.
Qed.

(** Round to nearest, from below: a quotient in the half-unit below
    [m * 2^e] is rounded to it, when the numbers below [m * 2^e] have the
    same exponent ([m] is not a power of two, or [e] is the least
    exponent). *)
Lemma round_ratio_below (n d : Z) (m : positive) (e : Z) :
  (0 < n)%Z -> (0 < d)%Z -> bounded prec emax m e = true ->
  (2 ^ (Zpos (digits2_pos m) - 1) < Zpos m)%Z \/ e = emin64 ->
  ((inject_Z (Zpos m) - (1 # 2)) * 2 ^ e < inject_Z n / inject_Z d)%Q ->
  (inject_Z n / inject_Z d < inject_Z (Zpos m) * 2 ^ e)%Q ->
  round_ratio false n d = S754_finite false m e.
Proof.
  intros Hn Hd Hb Hside Hlo Hhi.
  destruct (bounded_spec m e Hb) as (Hc & Hmax).
  pose proof (Qpow_pos 2 e ltac:(lra)) as P2.
  pose proof (mantissa_below_pow m) as Hm1.
  remember (Zpos (digits2_pos m)) as dm eqn:Edm.
  remember (Z.min (fexp prec emax (Zdigits2 n - Zdigits2 d)) 0) as e' eqn:Ee'.
  assert (He' : (e' <= e)%Z).
  { rewrite Ee'; apply (division_exponent_le n d m e); try assumption.
    rewrite <- Edm, Qpow_add by lra.
    eapply Qlt_le_trans; [exact Hhi|].
    apply Qmult_le_compat_r; lra. }
  assert (He0 : (e' <= 0)%Z) by lia.
  assert (Hemin : (emin64 <= e')%Z).
  { rewrite Ee'; unfold fexp, SpecFloat.emin, prec, emax; lia. }
  remember (- e')%Z as T eqn:ET; remember (e - e')%Z as k eqn:Ek.
  assert (B1 : ((2 * Zpos m - 1) * 2 ^ k * d < 2 * n * 2 ^ T)%Z).
  { apply (scaled_lt_l _ _ _ e); try lia.
    rewrite inject_Z_mult.
    replace (2 * Zpos m - 1)%Z with (2 * Zpos m + - 1)%Z by lia.
    rewrite inject_Z_plus, inject_Z_mult.
    change (inject_Z 2) with 2%Q; change (inject_Z (- 1)) with (- 1)%Q.
    assert (E : (2 * inject_Z n / inject_Z d == 2 * (inject_Z n / inject_Z d))%Q).
    { field. pose proof (inject_Z_pos d Hd); lra. }
    rewrite E; lra. }
  assert (B2 : (n * 2 ^ T < Zpos m * 2 ^ k * d)%Z).
  { apply (scaled_lt_r _ _ _ e); try lia; exact Hhi. }
  assert (Pk : (0 < 2 ^ k)%Z) by (apply Z.pow_pos_nonneg; lia).
  assert (PT : (0 < 2 ^ T)%Z) by (apply Z.pow_pos_nonneg; lia).
  pose proof (Zdigits2_bounds (Zpos m) ltac:(lia)) as (Bm1 & Bm2).
  cbn [Zdigits2] in Bm1, Bm2; rewrite <- Edm in Bm1, Bm2.
  assert (Hdm : (1 <= dm)%Z) by lia.
  unfold round_ratio.
  destruct n as [|pn|pn]; try lia; destruct d as [|pd|pd]; try lia.
  rewrite (SFdiv_core_binary_pos (Zpos pn) (Zpos pd) Hn Hd).
  cbv zeta; rewrite <- Ee', <- ET.
  remember (Zpos pn * 2 ^ T)%Z as a eqn:Eqa.
  assert (Ha : (0 < a)%Z) by (rewrite Eqa; apply Z.mul_pos_pos; lia).
  replace (2 * Zpos pn * 2 ^ T)%Z with (2 * a)%Z in B1 by (rewrite Eqa; ring).
  pose proof (Z.div_mod a (Zpos pd) ltac:(lia)) as Ea.
  pose proof (Z.mod_pos_bound a (Zpos pd) Hd) as Ra.
  remember (a / Zpos pd)%Z as q eqn:Eq.
  remember (a mod Zpos pd)%Z as r0 eqn:Er0.
  assert (Hq0 : (0 <= q)%Z) by (rewrite Eq; apply Z.div_pos; lia).
  assert (Hq2 : (q < Zpos m * 2 ^ k)%Z).
  { rewrite Eq; apply Z.div_lt_upper_bound; lia. }
  assert (Hq1 : ((2 * Zpos m - 1) * 2 ^ k < 2 * (q + 1))%Z).
  { apply (Z.mul_lt_mono_pos_r (Zpos pd)); [lia|].
    clear - B1 Ea Ra; lia. }
  apply (binary_round_aux_located _ _ _ (2 * a) (Zpos pd)); try assumption.
  - lia.
  - rewrite Eq, Er0; apply new_location_located; lia.
  - destruct Hside as [Hside | Hside].
    + assert (Hk2 : (2 ^ (dm + k) = 2 ^ (dm - 1) * 2 * 2 ^ k)%Z).
      { replace (dm + k)%Z with (dm - 1 + 1 + k)%Z by lia.
        rewrite !Z.pow_add_r by lia. reflexivity. }
      assert (Hk1 : (2 ^ (dm + k - 1) = 2 ^ (dm - 1) * 2 ^ k)%Z).
      { replace (dm + k - 1)%Z with (dm - 1 + k)%Z by lia.
        rewrite !Z.pow_add_r by lia. reflexivity. }
      assert (Hm2 : ((2 * 2 ^ (dm - 1) + 1) * 2 ^ k
                     <= (2 * Zpos m - 1) * 2 ^ k)%Z).
      { apply Z.mul_le_mono_nonneg_r; lia. }
      assert (Hpow : (2 ^ dm = 2 ^ (dm - 1) * 2)%Z).
      { replace dm with (dm - 1 + 1)%Z at 1 by lia.
        rewrite Z.pow_add_r by lia; reflexivity. }
      assert (Hm3 : (Zpos m * 2 ^ k <= 2 ^ (dm - 1) * 2 * 2 ^ k)%Z).
      { apply Z.mul_le_mono_nonneg_r; lia. }
      assert (Hp : (0 < 2 ^ (dm - 1) * 2 ^ k)%Z).
      { apply Z.mul_pos_pos; [apply Z.pow_pos_nonneg|]; lia. }
      assert (Hdq : Zdigits2 q = (dm + k)%Z).
      { apply Zdigits2_unique; [rewrite Hk1, Hk2|];
          clear - Hm2 Hm3 Hq1 Hq2 Pk Hp; lia. }
      rewrite Hdq.
      replace (dm + k + e')%Z with (dm + e)%Z by lia.
      rewrite Hc; lia.
    + assert (Ek0 : k = 0%Z) by lia.
      rewrite Ek0, Z.pow_0_r in Hq2.
      assert (Hdq : (Zdigits2 q <= dm)%Z).
      { rewrite Edm; change (Zpos (digits2_pos m)) with (Zdigits2 (Zpos m)).
        apply Zdigits2_le; lia. }
      unfold fexp, SpecFloat.emin, prec, emax in *; lia.
  - right. rewrite <- Ek.
    remember (2 * a - 2 ^ k * Zpos pd * (2 * Zpos m - 1))%Z as r eqn:Er.
    assert (Hr : (0 < r < 2 ^ k * Zpos pd)%Z) by lia.
    split.
    + symmetry; apply (Z.div_unique_pos _ _ _ r); [lia | rewrite Er; ring].
    + rewrite <- (Z.mod_unique_pos (2 * a) (2 ^ k * Zpos pd)
                   (2 * Zpos m - 1) r); [lia | lia | rewrite Er; ring].
Qed.

(* ================================================================= *)
(** * Decimal magnitude *)

(** Multiplying a fraction by a power of an integer base, the way
    [ratio_of] and [scale10] do it. *)
Lemma Qratio_scale (b n d j : Z) :
  (0 < b)%Z -> (0 < d)%Z ->
  (Qratio (if (0 <=? j)%Z then (n * b ^ j, d)%Z else (n, d * b ^ (- j))%Z)
   == Qratio (n, d) * inject_Z b ^ j)%Q.
Proof.
  intros Hb Hd; unfold Qratio.
  pose proof (inject_Z_pos d Hd) as Qd.
  pose proof (inject_Z_pos b Hb) as Qb.
  destruct (Z.leb_spec 0 j) as [Hj|Hj]; cbn [fst snd].
  - rewrite inject_Z_mult, Qpow_Z by lia. field; lra.
  - rewrite inject_Z_mult, Qpow_Z by lia.
    rewrite Qpower_opp.
    pose proof (Qpow_pos (inject_Z b) j Qb).
    field; split; lra.
Qed.

Lemma scale_positive (b n d j : Z) :
  (0 < b)%Z -> (0 < n)%Z -> (0 < d)%Z ->
  let r := if (0 <=? j)%Z then (n * b ^ j, d)%Z else (n, d * b ^ (- j))%Z in
  (0 < fst r)%Z /\ (0 < snd r)%Z.
Proof.
  intros Hb Hn Hd.
  destruct (Z.leb_spec 0 j) as [Hj|Hj]; cbn [fst snd]; split; try assumption;
    apply Z.mul_pos_pos; try assumption; apply Z.pow_pos_nonneg; lia.
Qed.

Lemma ratio_of_value (m e : Z) :
  (Qratio (ratio_of m e) == inject_Z m * 2 ^ e)%Q.
Proof.
  unfold ratio_of.
  replace (m, 2 ^ (- e))%Z with (m, 1 * 2 ^ (- e))%Z by (f_equal; lia).
  rewrite (Qratio_scale 2 m 1 e) by lia.
  unfold Qratio; cbn [fst snd]. change (inject_Z 2) with 2%Q.
  change (inject_Z 1) with 1%Q. field.
Qed.

Lemma ratio_of_positive (m e : Z) :
  (0 < m)%Z -> (0 < fst (ratio_of m e))%Z /\ (0 < snd (ratio_of m e))%Z.
Proof.
  intros Hm; unfold ratio_of.
  replace (m, 2 ^ (- e))%Z with (m, 1 * 2 ^ (- e))%Z by (f_equal; lia).
  apply (scale_positive 2 m 1 e); lia.
Qed.

Lemma scale10_value (r : Z * Z) (j : Z) :
  (0 < snd r)%Z -> (Qratio (scale10 r j) == Qratio r * 10 ^ j)%Q.
Proof.
  destruct r as (n, d); cbn [snd]; intros Hd; unfold scale10.
  rewrite (Qratio_scale 10 n d j) by lia. reflexivity.
Qed.

Lemma scale10_positive (r : Z * Z) (j : Z) :
  (0 < fst r)%Z -> (0 < snd r)%Z ->
  (0 < fst (scale10 r j))%Z /\ (0 < snd (scale10 r j))%Z.
Proof.
  destruct r as (n, d); cbn [fst snd]; intros Hn Hd; unfold scale10.
  apply (scale_positive 10 n d j); lia.
Qed.

(** [pow10_le j r] decides [10^j <= r]. *)
Lemma pow10_le_spec (j : Z) (r : Z * Z) :
  (0 < snd r)%Z ->
  pow10_le j r = true <-> (10 ^ j <= Qratio r)%Q.
Proof.
  intros Hd; unfold pow10_le.
  pose proof (scale10_value r (- j) Hd) as E.
  assert (Hs : (0 < snd (scale10 r (- j)))%Z).
  { destruct r as (n, d); cbn [snd] in *; unfold scale10.
    destruct (Z.leb_spec 0 (- j)); cbn [snd]; [assumption|].
    apply Z.mul_pos_pos; [assumption | apply Z.pow_pos_nonneg; lia]. }
  destruct (scale10 r (- j)) as (n', d'); cbn [snd] in Hs.
  unfold Qratio in E at 1; cbn [fst snd] in E.
  rewrite Qpower_opp in E. rewrite Z.leb_le.
  pose proof (Qpow_pos 10 j ltac:(lra)) as P10.
  pose proof (inject_Z_pos d' Hs) as Qd.
  rewrite Zle_Qle.
  assert (En : (inject_Z n' == inject_Z n' / inject_Z d' * inject_Z d')%Q)
    by (field; lra).
  assert (Ep : (10 ^ j * / 10 ^ j == 1)%Q) by (field; lra).
  pose proof (Qinv_lt_0_compat _ P10) as Pi.
  rewrite E in En.
  set (t := Qratio r) in *; set (p := (10 ^ j)%Q) in *.
  set (ip := (/ p)%Q) in *; set (qd := inject_Z d') in *.
  rewrite En; clearbody t p ip qd; clear - Ep Pi P10 Qd.
  split; intros H.
  - assert (H1 : (1 <= t * ip)%Q) by nra. nra.
  - assert (H1 : (1 <= t * ip)%Q) by nra. nra.
Qed.

Section Magnitude.
Variables (r : Z * Z) (N : Z).
Hypothesis Hd : (0 < snd r)%Z.
Hypothesis HN : decade (Qratio r) N.

Lemma pow10_le_decade (j : Z) : pow10_le j r = true <-> (j < N)%Z.
Proof.
  rewrite (pow10_le_spec j r Hd); destruct HN as (H1 & H2); split; intros H.
  - apply (Qpow_lt_inv 10); [lra|]. eapply Qle_lt_trans; eassumption.
  - eapply Qle_trans; [|exact H1]. apply Qpow_le; [lra | lia].
Qed.

Lemma mag10_down_spec (fuel : nat) :
  forall n : Z,
    (n - N < Z.of_nat fuel)%Z -> (0 < fuel)%nat ->
    mag10_down fuel n r = Z.min n N.
Proof.
  induction fuel as [|fuel IH]; intros n Hn Hf; [lia|].
  cbn [mag10_down].
  destruct (pow10_le (n - 1) r) eqn:E.
  - apply pow10_le_decade in E; lia.
  - assert (~ (n - 1 < N)%Z).
    { intros H; apply pow10_le_decade in H; congruence. }
    rewrite IH; lia.
Qed.

Lemma mag10_up_spec (fuel : nat) :
  forall n : Z,
    (n <= N)%Z -> (N - n < Z.of_nat fuel)%Z -> mag10_up fuel n r = N.
Proof.
  induction fuel as [|fuel IH]; intros n Hn Hf; [lia|].
  cbn [mag10_up].
  destruct (pow10_le n r) eqn:E.
  - apply pow10_le_decade in E. apply IH; lia.
  - assert (~ (n < N)%Z).
    { intros H; apply pow10_le_decade in H; congruence. }
    lia.
Qed.

End Magnitude.

(** Every positive rational between two powers of ten is in a decade. *)
Lemma decade_exists (x : Q) (k : nat) :
  forall a : Z,
    (10 ^ a <= x < 10 ^ (a + Z.of_nat k))%Q ->
    exists N, (a < N <= a + Z.of_nat k)%Z /\ decade x N.
Proof.
  induction k as [|k IH]; intros a (H1 & H2).
  - rewrite Z.add_0_r in H2; lra.
  - destruct (Qlt_le_dec x (10 ^ (a + 1))) as [Hlt | Hge].
    + exists (a + 1)%Z; split; [lia|]. unfold decade.
      replace (a + 1 - 1)%Z with a by lia. split; assumption.
    + destruct (IH (a + 1)%Z) as (N & HN & Hdec).
      * split; [assumption|].
        replace (a + 1 + Z.of_nat k)%Z with (a + Z.of_nat (S k))%Z by lia.
        exact H2.
      * exists N; split; [lia | exact Hdec].
Qed.

(** The estimate is within a few units for every binary exponent of a
    binary64: checked one exponent after the other. *)
Lemma estimate_range :
  forallb (fun i => estimate_ok (Z.of_nat i - 1074)) (seq 0 2098) = true.
Proof. vm_compute; reflexivity. Qed.

Lemma estimate_bounds (L : Z) :
  (-1074 <= L <= 1023)%Z ->
  (10 ^ (estimate L - 5) <= 2 ^ L)%Q /\ (2 ^ (L + 1) <= 10 ^ (estimate L + 9))%Q.
Proof.
  intros HL.
  pose proof estimate_range as H.
  rewrite forallb_forall in H.
  specialize (H (Z.to_nat (L + 1074))).
  replace (Z.of_nat (Z.to_nat (L + 1074)) - 1074)%Z with L in H by lia.
  unfold estimate_ok in H; rewrite andb_true_iff, !Qle_bool_iff in H.
  apply H, in_seq; lia.
Qed.

(** The exponents and digits of a finite binary64. *)
Lemma bounded_range (m : positive) (e : Z) :
  bounded prec emax m e = true ->
  (Zpos (digits2_pos m) <= 53)%Z /\ (-1074 <= e <= 971)%Z.
Proof.
  intros Hb; destruct (bounded_spec m e Hb) as (Hc & Hmax).
  unfold fexp, SpecFloat.emin, prec, emax in *; lia.
Qed.

Lemma log2_ratio_of (m : positive) (e : Z) :
  (Z.log2 (fst (ratio_of (Zpos m) e)) - Z.log2 (snd (ratio_of (Zpos m) e))
   = Z.log2 (Zpos m) + e)%Z.
Proof.
  unfold ratio_of; destruct (Z.leb_spec 0 e) as [He|He]; cbn [fst snd].
  - rewrite Z.log2_mul_pow2 by lia. change (Z.log2 1) with 0%Z. ring.
  - rewrite Z.log2_pow2 by lia. ring.
Qed.

(** A positive binary64 between two powers of two. *)
Lemma binary_magnitude (m : positive) (e : Z) :
  let L := (Z.log2 (Zpos m) + e)%Z in
  (2 ^ L <= inject_Z (Zpos m) * 2 ^ e < 2 ^ (L + 1))%Q.
Proof.
  intros L; unfold L.
  pose proof (Z.log2_spec (Zpos m) ltac:(lia)) as (H1 & H2).
  pose proof (Z.log2_nonneg (Zpos m)) as H0.
  replace (Z.log2 (Zpos m) + e + 1)%Z with (Z.succ (Z.log2 (Zpos m)) + e)%Z by lia.
  rewrite !Qpow_add by lra.
  pose proof (Qpow_pos 2 e ltac:(lra)) as P2.
  pose proof (Qpow_Z 2 (Z.log2 (Zpos m)) H0) as A1.
  pose proof (Qpow_Z 2 (Z.succ (Z.log2 (Zpos m))) ltac:(lia)) as A2.
  change (inject_Z 2) with 2%Q in A1, A2.
  rewrite <- A1, <- A2.
  rewrite Zle_Qle in H1; rewrite Zlt_Qlt in H2.
  split; [apply Qmult_le_compat_r | apply Qmult_lt_compat_r]; lra.
Qed.

(** [mag10] finds the decade of a positive binary64. *)
Lemma mag10_spec (m : positive) (e : Z) :
  bounded prec emax m e = true ->
  decade (Qratio (ratio_of (Zpos m) e)) (mag10 (ratio_of (Zpos m) e)).
Proof.
  intros Hb.
  destruct (bounded_range m e Hb) as (Hdm & He).
  rewrite digits2_pos_log2 in Hdm.
  pose proof (Z.log2_nonneg (Zpos m)) as H0.
  pose proof (log2_ratio_of m e) as HL.
  pose proof (ratio_of_positive (Zpos m) e ltac:(lia)) as (Hn & Hd).
  pose proof (binary_magnitude m e) as (B1 & B2); cbv zeta in B1, B2.
  rewrite <- ratio_of_value in B1, B2.
  set (L := (Z.log2 (Zpos m) + e)%Z) in *.
  destruct (estimate_bounds L ltac:(unfold L; lia)) as (E1 & E2).
  set (r := ratio_of (Zpos m) e) in *.
  destruct (decade_exists (Qratio r) 14 (estimate L - 5)) as (N & HN & Hdec).
  { split; [lra|].
    replace (estimate L - 5 + Z.of_nat 14)%Z with (estimate L + 9)%Z by lia.
    lra. }
  assert (Hlow : (estimate L - 5 < N)%Z) by lia.
  assert (Hmag : mag10 r = N).
  { unfold mag10. destruct r as (n, d) eqn:Er; cbn [fst snd] in *.
    rewrite HL; fold (estimate L).
    rewrite (mag10_down_spec (n, d) N Hd Hdec) by lia.
    apply (mag10_up_spec (n, d) N Hd Hdec); lia. }
  rewrite Hmag; exact Hdec.
Qed.

(* ================================================================= *)
(** * Seventeen digits *)

(** The fraction that [of_decimal] rounds. *)
Lemma of_decimal_ratio (s j : Z) :
  (0 < s)%Z ->
  exists n d,
    (0 < n)%Z /\ (0 < d)%Z
    /\ (inject_Z n / inject_Z d == inject_Z s * 10 ^ j)%Q
    /\ of_decimal false s j = SF2Prim (round_ratio false n d).
Proof.
  intros Hs.
  pose proof (Qratio_scale 10 s 1 j ltac:(lia) ltac:(lia)) as E.
  pose proof (scale_positive 10 s 1 j ltac:(lia) Hs ltac:(lia)) as P.
  cbv zeta in P; unfold of_decimal.
  destruct (0 <=? j)%Z.
  - exists (s * 10 ^ j)%Z, 1%Z; cbn [fst snd] in *.
    unfold Qratio in E; cbn [fst snd] in E.
    repeat split; try tauto.
    rewrite E; change (inject_Z 10) with 10%Q; change (inject_Z 1) with 1%Q.
    field.
  - exists s, (10 ^ (- j))%Z; cbn [fst snd] in *.
    rewrite Z.mul_1_l in *.
    unfold Qratio in E; cbn [fst snd] in E.
    repeat split; try tauto.
    rewrite E; change (inject_Z 10) with 10%Q; change (inject_Z 1) with 1%Q.
    field.
Qed.

Section Reads.
Variables (x : number) (m : positive) (e : Z).
Hypothesis Hx : Prim2SF x = S754_finite false m e.

Lemma finite_bounded : bounded prec emax m e = true.
Proof.
  pose proof (FloatAxioms.Prim2SF_valid x) as V; rewrite Hx in V; exact V.
Qed.

(** A decimal in the half-unit above [x] reads as [x]. *)
Lemma of_decimal_above (s j : Z) :
  (0 < s)%Z ->
  (inject_Z (Zpos m) * 2 ^ e <= inject_Z s * 10 ^ j)%Q ->
  (inject_Z s * 10 ^ j < (inject_Z (Zpos m) + (1 # 2)) * 2 ^ e)%Q ->
  of_decimal false s j = x.
Proof.
  intros Hs Hlo Hhi.
  destruct (of_decimal_ratio s j Hs) as (n & d & Hn & Hd & E & ->).
  rewrite <- E in Hlo, Hhi.
  rewrite (round_ratio_above n d m e Hn Hd finite_bounded Hlo Hhi).
  rewrite <- Hx; apply FloatAxioms.SF2Prim_Prim2SF.
Qed.

(** A decimal in the half-unit below [x] reads as [x]. *)
Lemma of_decimal_below (s j : Z) :
  (0 < s)%Z ->
  (2 ^ (Zpos (digits2_pos m) - 1) < Zpos m)%Z \/ e = emin64 ->
  ((inject_Z (Zpos m) - (1 # 2)) * 2 ^ e < inject_Z s * 10 ^ j)%Q ->
  (inject_Z s * 10 ^ j < inject_Z (Zpos m) * 2 ^ e)%Q ->
  of_decimal false s j = x.
Proof.
  intros Hs Hside Hlo Hhi.
  destruct (of_decimal_ratio s j Hs) as (n & d & Hn & Hd & E & ->).
  rewrite <- E in Hlo, Hhi.
  rewrite (round_ratio_below n d m e Hn Hd finite_bounded Hside Hlo Hhi).
  rewrite <- Hx; apply FloatAxioms.SF2Prim_Prim2SF.
Qed.

End Reads.

(** The integer part of a fraction. *)
Lemma floor_bounds (p q : Z) :
  (0 < q)%Z ->
  (inject_Z (p / q) <= inject_Z p / inject_Z q)%Q
  /\ (inject_Z p / inject_Z q < inject_Z (p / q) + 1)%Q.
Proof.
  intros Hq.
  pose proof (inject_Z_pos q Hq) as Qq.
  pose proof (Z.div_mod p q ltac:(lia)) as E.
  pose proof (Z.mod_pos_bound p q Hq) as B.
  split.
  - apply Qle_shift_div_l; [exact Qq|].
    rewrite <- inject_Z_mult, <- Zle_Qle. lia.
  - apply Qlt_shift_div_r; [exact Qq|].
    change 1%Q with (inject_Z 1).
    rewrite <- inject_Z_plus, <- inject_Z_mult, <- Zlt_Qlt. lia.
Qed.

Lemma floor_exact (p q : Z) :
  (0 < q)%Z -> (p mod q = 0)%Z ->
  (inject_Z (p / q) == inject_Z p / inject_Z q)%Q.
Proof.
  intros Hq H0.
  pose proof (inject_Z_pos q Hq) as Qq.
  pose proof (Z.div_mod p q ltac:(lia)) as E.
  rewrite H0, Z.add_0_r in E.
  rewrite E at 2. rewrite inject_Z_mult. field; lra.
Qed.

Lemma floor_inexact (p q : Z) :
  (0 < q)%Z -> (p mod q <> 0)%Z ->
  (inject_Z (p / q) < inject_Z p / inject_Z q)%Q.
Proof.
  intros Hq H0.
  pose proof (inject_Z_pos q Hq) as Qq.
  pose proof (Z.div_mod p q ltac:(lia)) as E.
  pose proof (Z.mod_pos_bound p q Hq) as B.
  apply Qlt_shift_div_l; [exact Qq|].
  rewrite <- inject_Z_mult, <- Zlt_Qlt. lia.
Qed.

(** An integer between two integer bounds, from its fraction. *)
Lemma floor_range (p q a b : Z) :
  (0 < q)%Z ->
  (inject_Z a <= inject_Z p / inject_Z q)%Q ->
  (inject_Z p / inject_Z q < inject_Z b)%Q ->
  (a <= p / q < b)%Z.
Proof.
  intros Hq Ha Hb.
  destruct (floor_bounds p q Hq) as (F1 & F2).
  split.
  - assert (H : (inject_Z a < inject_Z (p / q) + 1)%Q) by lra.
    change 1%Q with (inject_Z 1) in H.
    rewrite <- inject_Z_plus, <- Zlt_Qlt in H. lia.
  - rewrite Zlt_Qlt. lra.
Qed.

Section Seventeen.
Variables (x : number) (m : positive) (e : Z).
Hypothesis Hx : Prim2SF x = S754_finite false m e.

(** Of the two seventeen-digit decimals next to a positive binary64, one
    reads back as it: they are less than a unit in the last place apart. *)
Lemma seventeen_digits (p q : Z) :
  let r := ratio_of (Zpos m) e in
  let n0 := mag10 r in
  scale10 r (17 - n0) = (p, q) ->
  let lo := (p / q)%Z in
  (10 ^ 16 <= lo < 10 ^ 17)%Z
  /\ (of_decimal false lo (n0 - 17) = x
      \/ forall s' j' : Z,
           (0 < s')%Z ->
           (inject_Z s' * 10 ^ j' == (inject_Z lo + 1) * 10 ^ (n0 - 17))%Q ->
           of_decimal false s' j' = x).
Proof.
  intros r n0 Hs lo.
  pose proof (finite_bounded x m e Hx) as Hb.
  destruct (bounded_spec m e Hb) as (Hc & _).
  destruct (bounded_range m e Hb) as (Hdm & He).
  pose proof (mag10_spec m e Hb) as (D1 & D2); fold r in D1, D2; fold n0 in D1, D2.
  pose proof (ratio_of_positive (Zpos m) e ltac:(lia)) as (Hn & Hd).
  pose proof (ratio_of_value (Zpos m) e) as EX; fold r in Hn, Hd, EX.
  pose proof (scale10_value r (17 - n0) Hd) as ES.
  pose proof (scale10_positive r (17 - n0) Hn Hd) as (Hp & Hq).
  rewrite Hs in ES, Hp, Hq; cbn [fst snd] in Hp, Hq.
  unfold Qratio in ES at 1; cbn [fst snd] in ES.
  pose proof (Zdigits2_bounds (Zpos m) ltac:(lia)) as (Bm1 & Bm2).
  cbn [Zdigits2] in Bm1, Bm2.
  assert (Bm3 : (2 ^ Zpos (digits2_pos m) <= 2 ^ 53)%Z).
  { apply Z.pow_le_mono_r; lia. }
  (* the quantities, as rationals *)
  pose proof (Qpow_pos 10 (n0 - 17) ltac:(lra)) as Pd.
  pose proof (Qpow_pos 10 (17 - n0) ltac:(lra)) as Pi.
  pose proof (Qpow_pos 2 e ltac:(lra)) as Pu.
  assert (E17 : (10 ^ (17 - n0) * 10 ^ (n0 - 17) == 1)%Q).
  { rewrite <- Qpow_add by lra.
    replace (17 - n0 + (n0 - 17))%Z with 0%Z by lia. reflexivity. }
  assert (E16 : (10 ^ (n0 - 1) == 10 ^ 16 * 10 ^ (n0 - 17))%Q).
  { rewrite <- Qpow_add by lra. replace (16 + (n0 - 17))%Z with (n0 - 1)%Z by lia.
    reflexivity. }
  assert (E18 : (10 ^ n0 == 10 ^ 17 * 10 ^ (n0 - 17))%Q).
  { rewrite <- Qpow_add by lra. replace (17 + (n0 - 17))%Z with n0 by lia.
    reflexivity. }
  rewrite E16 in D1; rewrite E18 in D2.
  destruct (floor_bounds p q Hq) as (F1 & F2); fold lo in F1, F2.
  set (X := Qratio r) in *.
  set (W := (inject_Z p / inject_Z q)%Q) in *.
  set (dl := (10 ^ (n0 - 17))%Q) in *.
  set (il := (10 ^ (17 - n0))%Q) in *.
  set (u := (2 ^ e)%Q) in *.
  set (M := inject_Z (Zpos m)) in *.
  set (L := inject_Z lo) in *.
  assert (EW : (X == W * dl)%Q).
  { rewrite ES. rewrite <- Qmult_assoc, E17. ring. }
  assert (HM : (M <= 9007199254740991)%Q).
  { unfold M. change 9007199254740991%Q with (inject_Z (2 ^ 53 - 1)).
    rewrite <- Zle_Qle. lia. }
  assert (HMu : (M * u <= 9007199254740991 * u)%Q).
  { apply Qmult_le_compat_r; lra. }
  assert (Hylo : (L * dl <= X)%Q).
  { rewrite EW. apply Qmult_le_compat_r; lra. }
  assert (Hyhi : (X < (L + 1) * dl)%Q).
  { rewrite EW. apply Qmult_lt_compat_r; lra. }
  assert (Hdu : (dl < u)%Q) by lra.
  assert (HW1 : (inject_Z (10 ^ 16) <= W)%Q).
  { change (inject_Z (10 ^ 16)) with (10 ^ 16)%Q.
    apply (Qmult_le_r _ _ dl); [exact Pd|]. rewrite <- EW. exact D1. }
  assert (HW2 : (W < inject_Z (10 ^ 17))%Q).
  { change (inject_Z (10 ^ 17)) with (10 ^ 17)%Q.
    apply (Qmult_lt_r _ _ dl); [exact Pd|]. rewrite <- EW. exact D2. }
  pose proof (floor_range p q _ _ Hq HW1 HW2) as Hrange; fold lo in Hrange.
  split; [exact Hrange|].
  assert (Hlo0 : (0 < lo)%Z) by lia.
  destruct (Z.eq_dec (p mod q) 0) as [Hex | Hin].
  - (* the lower decimal is the number itself *)
    left; apply (of_decimal_above x m e Hx lo (n0 - 17) Hlo0).
    + pose proof (floor_exact p q Hq Hex) as E; fold lo in E; fold L W in E.
      fold L dl M u. rewrite E, <- EW. lra.
    + pose proof (floor_exact p q Hq Hex) as E; fold lo in E; fold L W in E.
      fold L dl M u. rewrite E, <- EW. lra.
  - pose proof (floor_inexact p q Hq Hin) as F3; fold lo in F3; fold L W in F3.
    assert (Hylo' : (L * dl < X)%Q).
    { rewrite EW. apply Qmult_lt_compat_r; lra. }
    destruct (Z.ltb_spec (2 ^ (Zpos (digits2_pos m) - 1)) (Zpos m)) as [Hnp | Hp2];
      [|destruct (Z.eq_dec e emin64) as [Hem | Hne]].
    + destruct (Qlt_le_dec ((L + 1) * dl - X) (u * (1 # 2))) as [Hnear | Hfar].
      * right; intros s' j' Hs' Ev.
        apply (of_decimal_above x m e Hx s' j' Hs'); rewrite Ev;
          fold L dl M u; lra.
      * left; apply (of_decimal_below x m e Hx lo (n0 - 17) Hlo0);
          [left; exact Hnp | |]; fold L dl M u; lra.
    + destruct (Qlt_le_dec ((L + 1) * dl - X) (u * (1 # 2))) as [Hnear | Hfar].
      * right; intros s' j' Hs' Ev.
        apply (of_decimal_above x m e Hx s' j' Hs'); rewrite Ev;
          fold L dl M u; lra.
      * left; apply (of_decimal_below x m e Hx lo (n0 - 17) Hlo0);
          [right; exact Hem | |]; fold L dl M u; lra.
    + (* a power of two above the least exponent: [m = 2^52] *)
      assert (Hm52 : Zpos m = (2 ^ 52)%Z).
      { assert (Zpos (digits2_pos m) = 53%Z).
        { unfold fexp, SpecFloat.emin, prec, emax in *. lia. }
        replace (Zpos (digits2_pos m) - 1)%Z with 52%Z in * by lia. lia. }
      assert (HM52 : (M == 4503599627370496)%Q).
      { unfold M; rewrite Hm52; reflexivity. }
      right; intros s' j' Hs' Ev.
      apply (of_decimal_above x m e Hx s' j' Hs'); rewrite Ev;
        fold L dl M u; [lra|].
      assert (HMu2 : (M * u == 4503599627370496 * u)%Q) by (rewrite HM52; ring).
      lra.
Qed.

End Seventeen.

(* ================================================================= *)
(** * JSON text of numbers *)

Lemma is_digit_range (c : code_unit) :
  is_digit c = true <-> (48 <= c <= 57)%N.
Proof. unfold is_digit; rewrite andb_true_iff, !N.leb_le; tauto. Qed.

Lemma span_digits_app (ds rest : jsstring) :
  all_digits ds ->
  match rest with [] => True | c :: _ => is_digit c = false end ->
  span_digits (ds ++ rest) = (ds, rest).
Proof.
  unfold all_digits; induction ds as [|c ds IH]; simpl; intros Hd Hr.
  - destruct rest as [|c r]; [reflexivity | simpl; rewrite Hr; reflexivity].
  - apply andb_true_iff in Hd; destruct Hd as (Hc & Hd).
    rewrite Hc, IH by assumption; reflexivity.
Qed.

Section Token.
Implicit Types (ip fp rest : jsstring) (ex : option (bool * jsstring)).

Lemma exponent_text_head ex :
  match exponent_text ex with [] => True | c :: _ => is_digit c = false end.
Proof. destruct ex as [[neg ed]|]; simpl; auto. Qed.

(** The first character of the token is a digit. *)
Lemma token_head ip fp ex :
  well_formed_token ip fp ex ->
  exists c ip', ip = c :: ip' /\ (48 <= c <= 57)%N.
Proof.
  intros WF; destruct WF as (Hip & Hne & _).
  destruct ip as [|c ip']; [congruence|].
  exists c, ip'; split; [reflexivity|].
  unfold all_digits in Hip; simpl in Hip.
  apply andb_true_iff in Hip; apply is_digit_range; tauto.
Qed.

Lemma exponent_part_text ip fp ex rest :
  well_formed_token ip fp ex ->
  ends_number rest ->
  exponent_part (exponent_text ex ++ rest) = Some (exponent_value ex, rest).
Proof.
  intros WF Hrest; destruct WF as (_ & _ & _ & _ & Hex).
  unfold exponent_part.
  destruct ex as [[neg ed]|]; simpl.
  - destruct Hex as (Hd & Hne).
    assert (Hs : span_digits (ed ++ rest) = (ed, rest)).
    { apply span_digits_app; [exact Hd|].
      destruct rest; [exact I | apply Hrest]. }
    destruct neg; simpl; rewrite Hs; destruct ed; congruence.
  - destruct rest as [|c r]; [reflexivity|].
    destruct Hrest as (_ & _ & H1 & H2).
    apply N.eqb_neq in H1, H2; rewrite H1, H2; reflexivity.
Qed.

Lemma take_exponent_text ip fp ex :
  well_formed_token ip fp ex ->
  take_exponent (exponent_text ex) = (exponent_value ex, []).
Proof.
  intros WF; destruct WF as (_ & _ & _ & _ & Hex).
  unfold take_exponent.
  destruct ex as [[neg ed]|]; simpl; [|reflexivity].
  destruct Hex as (Hd & Hne).
  assert (Hs : span_digits ed = (ed, [])).
  { rewrite <- (List.app_nil_r ed) at 1; apply span_digits_app; [exact Hd | exact I]. }
  destruct neg; simpl; rewrite Hs; destruct ed;
    try reflexivity; exfalso; apply Hne; reflexivity.
Qed.

Lemma fraction_span ip fp ex rest :
  well_formed_token ip fp ex ->
  ends_number rest ->
  span_digits (fp ++ exponent_text ex ++ rest)
  = (fp, exponent_text ex ++ rest).
Proof.
  intros WF Hrest; destruct WF as (_ & _ & _ & Hfp & _).
  apply span_digits_app; [exact Hfp|].
  pose proof (exponent_text_head ex) as Hh.
  destruct (exponent_text ex); simpl; [|exact Hh].
  destruct rest; [exact I | apply Hrest].
Qed.

Lemma fraction_part_text ip fp ex rest :
  well_formed_token ip fp ex ->
  ends_number rest ->
  fraction_part (fraction_text fp ++ exponent_text ex ++ rest)
  = Some (fp, exponent_text ex ++ rest).
Proof.
  intros WF Hrest; unfold fraction_part.
  destruct fp as [|f fp'] eqn:Efp.
  - destruct ex as [[neg ed]|]; simpl; [reflexivity|].
    destruct rest as [|c0 r]; [reflexivity|].
    destruct Hrest as (_ & H46 & _); apply N.eqb_neq in H46.
    rewrite H46; reflexivity.
  - pose proof (fraction_span ip (f :: fp') ex rest WF Hrest) as Hs.
    cbn [fraction_text app] in *; rewrite Hs; reflexivity.
Qed.

Lemma optional_fraction_text ip fp ex :
  well_formed_token ip fp ex ->
  optional_fraction (fraction_text fp ++ exponent_text ex)
  = (fp, exponent_text ex).
Proof.
  intros WF; unfold optional_fraction.
  destruct fp as [|f fp'] eqn:Efp.
  - destruct ex as [[neg ed]|]; reflexivity.
  - pose proof (fraction_span ip (f :: fp') ex [] WF I) as Hs.
    rewrite List.app_nil_r in Hs.
    cbn [fraction_text app] in *; rewrite Hs; reflexivity.
Qed.

Lemma integer_span ip fp ex rest :
  well_formed_token ip fp ex ->
  ends_number rest ->
  span_digits (number_token ip fp ex ++ rest)
  = (ip, fraction_text fp ++ exponent_text ex ++ rest).
Proof.
  intros WF Hrest; destruct WF as (Hip & _).
  unfold number_token; rewrite <- !app_assoc.
  apply span_digits_app; [exact Hip|].
  destruct fp; simpl; [|reflexivity].
  pose proof (exponent_text_head ex) as Hh.
  destruct (exponent_text ex); simpl; [|exact Hh].
  destruct rest; [exact I | apply Hrest].
Qed.

Lemma parse_number_token ip fp ex rest :
  well_formed_token ip fp ex ->
  ends_number rest ->
  parse_number (number_token ip fp ex ++ rest)
  = Some (token_value ip fp ex, rest).
Proof.
  intros WF Hrest; pose proof WF as (Hip & Hne & Hlz & Hfp & Hex).
  destruct (token_head ip fp ex WF) as (c & ip' & Eip & Hc).
  unfold parse_number.
  assert (Hm : strip_minus (number_token ip fp ex ++ rest)
               = (false, number_token ip fp ex ++ rest)).
  { unfold number_token, strip_minus; rewrite Eip; cbn [app].
    destruct (N.eqb_spec c 45); [lia | reflexivity]. }
  rewrite Hm, (integer_span ip fp ex rest WF Hrest).
  assert (Hlead : has_leading_zero ip = false).
  { unfold has_leading_zero; destruct ip as [|c0 [|c1 r]]; try reflexivity.
    apply N.eqb_neq; exact Hlz. }
  rewrite Hlead, (fraction_part_text ip fp ex rest WF Hrest),
    (exponent_part_text ip fp ex rest WF Hrest).
  rewrite Eip at 1; reflexivity.
Qed.

Lemma scan_decimal_token ip fp ex :
  well_formed_token ip fp ex ->
  scan_decimal (number_token ip fp ex) = Some (token_value ip fp ex, []).
Proof.
  intros WF; pose proof WF as (Hip & Hne & Hlz & Hfp & Hex).
  destruct (token_head ip fp ex WF) as (c & ip' & Eip & Hc).
  unfold scan_decimal.
  assert (Hs : take_sign (number_token ip fp ex)
               = (false, number_token ip fp ex)).
  { unfold number_token, take_sign; rewrite Eip; cbn [app].
    destruct (N.eqb_spec c 43); [lia|].
    destruct (N.eqb_spec c 45); [lia | reflexivity]. }
  rewrite Hs.
  assert (Hinf : prefix_of (js "Infinity") (number_token ip fp ex) = None).
  { unfold number_token; rewrite Eip.
    change (js "Infinity") with (73%N :: js "nfinity").
    cbn [app prefix_of].
    destruct (N.eqb_spec 73 c); [lia | reflexivity]. }
  rewrite Hinf.
  pose proof (integer_span ip fp ex [] WF I) as Hspan.
  rewrite !List.app_nil_r in Hspan.
  rewrite Hspan, (optional_fraction_text ip fp ex WF),
    (take_exponent_text ip fp ex WF).
  rewrite Eip at 1; reflexivity.
Qed.
End Token.

Lemma number_char_not_space (c : code_unit) :
  number_char c -> is_white_space c = false.
Proof.
  intros H; unfold is_white_space.
  repeat match goal with
  | |- context [(?a <=? ?b)%N] => destruct (N.leb_spec a b)
  | |- context [(?a =? ?b)%N] => destruct (N.eqb_spec a b)
  end; try reflexivity; unfold number_char in H; lia.
Qed.

Lemma trimStart_id (s : jsstring) :
  match s with [] => True | c :: _ => is_white_space c = false end ->
  trimStart s = s.
Proof. destruct s as [|c s]; simpl; [reflexivity | intros ->; reflexivity]. Qed.

Lemma trim_id (s : jsstring) :
  Forall number_char s -> trim s = s.
Proof.
  intros H; unfold trim, trimEnd.
  rewrite (trimStart_id s).
  - rewrite trimStart_id; [apply rev_involutive|].
    destruct (rev s) as [|c r] eqn:E; [exact I|].
    apply number_char_not_space.
    rewrite Forall_forall in H; apply H, in_rev; rewrite E; left; reflexivity.
  - destruct s as [|c r]; [exact I|].
    apply number_char_not_space; inversion H; assumption.
Qed.

Lemma all_digits_number_chars (ds : jsstring) :
  all_digits ds -> Forall number_char ds.
Proof.
  unfold all_digits; rewrite forallb_forall, Forall_forall.
  intros H c Hc; left; apply is_digit_range, H, Hc.
Qed.

Lemma number_token_chars ip fp ex :
  well_formed_token ip fp ex -> Forall number_char (number_token ip fp ex).
Proof.
  intros (Hip & _ & _ & Hfp & Hex); unfold number_token.
  apply all_digits_number_chars in Hip, Hfp.
  repeat (apply Forall_app; split); auto.
  - destruct fp; simpl; [constructor|].
    constructor; [right; left; reflexivity | exact Hfp].
  - destruct ex as [[neg ed]|]; simpl; [|constructor].
    destruct Hex as (Hed & _); apply all_digits_number_chars in Hed.
    constructor; [right; right; left; reflexivity|].
    constructor; [destruct neg; unfold number_char; lia | exact Hed].
Qed.

Lemma scan_radix_token ip fp ex :
  well_formed_token ip fp ex -> scan_radix (number_token ip fp ex) = None.
Proof.
  intros WF; pose proof (number_token_chars ip fp ex WF) as Hch.
  destruct WF as (Hip & Hne & Hlz & _).
  unfold scan_radix.
  destruct (number_token ip fp ex) as [|c0 [|c1 [|c2 r]]] eqn:E;
    try reflexivity.
  inversion Hch as [|? ? _ Hch1]; subst.
  inversion Hch1 as [|? ? Hc1 _]; subst.
  replace ((c1 =? 120) || (c1 =? 88))%N with false
    by (unfold number_char in Hc1;
        destruct (N.eqb_spec c1 120), (N.eqb_spec c1 88); try reflexivity; lia).
  replace ((c1 =? 111) || (c1 =? 79))%N with false
    by (unfold number_char in Hc1;
        destruct (N.eqb_spec c1 111), (N.eqb_spec c1 79); try reflexivity; lia).
  replace ((c1 =? 98) || (c1 =? 66))%N with false
    by (unfold number_char in Hc1;
        destruct (N.eqb_spec c1 98), (N.eqb_spec c1 66); try reflexivity; lia).
  simpl; rewrite orb_true_r; reflexivity.
Qed.

(** [Number] reads a number literal as [parseFloat] and [JSON.parse] do. *)
Lemma Number_of_string_token ip fp ex :
  well_formed_token ip fp ex ->
  Number_of_string (number_token ip fp ex) = token_value ip fp ex.
Proof.
  intros WF; unfold Number_of_string.
  rewrite (trim_id _ (number_token_chars ip fp ex WF)).
  pose proof (scan_radix_token ip fp ex WF) as Hr.
  pose proof (scan_decimal_token ip fp ex WF) as Hd.
  destruct (token_head ip fp ex WF) as (c & ip' & Eip & _).
  destruct (number_token ip fp ex) as [|c0 t] eqn:E.
  - unfold number_token in E; rewrite Eip in E; discriminate.
  - rewrite Hr, Hd; reflexivity.
Qed.

(* ----------------------------------------------------------------- *)
(** ** The digits of [Number::toString] *)

Lemma nzhead_head (d : Decimal.uint) :
  match Decimal.nzhead d with Decimal.D0 _ => False | _ => True end.
Proof. induction d; simpl; auto. Qed.

Lemma pos_to_uint_head (p : positive) :
  match Pos.to_uint p with
  | Decimal.Nil | Decimal.D0 _ => False
  | _ => True
  end.
Proof.
  pose proof (DecimalPos.Unsigned.to_of (Pos.to_uint p)) as H.
  rewrite DecimalPos.Unsigned.of_to in H; simpl in H.
  pose proof (DecimalPos.Unsigned.to_uint_nonzero p) as Hz.
  pose proof (nzhead_head (Pos.to_uint p)) as Hh.
  unfold Decimal.unorm in H.
  destruct (Decimal.nzhead (Pos.to_uint p)) eqn:E; rewrite H in *; auto.
Qed.

(** The decimal digits of a positive integer: at least one, the first not
    zero. *)
Lemma decimal_string_positive (s : Z) :
  (1 <= s)%Z ->
  all_digits (decimal_string s)
  /\ exists c r, decimal_string s = c :: r /\ c <> 48%N.
Proof.
  intros Hs; unfold decimal_string; split; [apply uint_digits_are_digits|].
  destruct (Z.to_N s) as [|p] eqn:E; [lia|]; simpl.
  pose proof (pos_to_uint_head p) as Hh.
  destruct (Pos.to_uint p); try contradiction; simpl;
    eexists; eexists; (split; [reflexivity | discriminate]).
Qed.

Lemma decimal_string_digits (s : Z) :
  all_digits (decimal_string s) /\ decimal_string s <> [].
Proof.
  split; [apply uint_digits_are_digits|].
  destruct (decimal_string_head s) as (c & r & E & _); rewrite E; discriminate.
Qed.

Lemma all_digits_app (a b : jsstring) :
  all_digits (a ++ b) <-> all_digits a /\ all_digits b.
Proof. unfold all_digits; rewrite forallb_app, andb_true_iff; tauto. Qed.

Lemma all_digits_zeros (n : Z) : all_digits (zeros n).
Proof.
  unfold all_digits, zeros; induction (Z.to_nat n); simpl; auto.
Qed.

Lemma all_digits_firstn_skipn (n : nat) (ds : jsstring) :
  all_digits ds -> all_digits (firstn n ds) /\ all_digits (skipn n ds).
Proof.
  intros H; apply all_digits_app; rewrite firstn_skipn; exact H.
Qed.

(** The value of a run of digits. *)

Lemma fold_digits (ds : jsstring) :
  forall acc : Z,
    fold_left (fun acc c => 10 * acc + digit_value c)%Z ds acc
    = (acc * 10 ^ Z.of_nat (List.length ds) + digits_value ds)%Z.
Proof.
  unfold digits_value.
  induction ds as [|c ds IH]; intros acc.
  - simpl; lia.
  - cbn [fold_left List.length]. rewrite IH, (IH (10 * 0 + digit_value c)%Z).
    rewrite Nat2Z.inj_succ, Z.pow_succ_r by lia. ring.
Qed.

Lemma digits_value_cons (c : code_unit) (ds : jsstring) :
  digits_value (c :: ds)
  = (digit_value c * 10 ^ Z.of_nat (List.length ds) + digits_value ds)%Z.
Proof.
  unfold digits_value at 1; cbn [fold_left]. rewrite fold_digits. ring.
Qed.

Lemma digits_value_app (a b : jsstring) :
  digits_value (a ++ b)
  = (digits_value a * 10 ^ Z.of_nat (List.length b) + digits_value b)%Z.
Proof.
  unfold digits_value at 1; rewrite fold_left_app.
  fold (digits_value a). apply fold_digits.
Qed.

Lemma digits_value_zeros (n : Z) : digits_value (zeros n) = 0%Z.
Proof.
  unfold zeros; induction (Z.to_nat n) as [|k IH]; [reflexivity|].
  cbn [repeat]; rewrite digits_value_cons, IH. reflexivity.
Qed.

Lemma length_zeros (n : Z) : List.length (zeros n) = Z.to_nat n.
Proof. apply repeat_length. Qed.

(** The digits of a decimal numeral are those of its value. *)
Lemma uint_digits_value (d : Decimal.uint) :
  digits_value (uint_digits d)
  = Z.of_N (DecimalPos.Unsigned.of_lu (Decimal.rev d))
  /\ Z.of_nat (List.length (uint_digits d))
     = Z.of_N (DecimalPos.Unsigned.usize d).
Proof.
  induction d as [|d (IH & IL)|d (IH & IL)|d (IH & IL)|d (IH & IL)
                  |d (IH & IL)|d (IH & IL)|d (IH & IL)|d (IH & IL)
                  |d (IH & IL)|d (IH & IL)];
    [split; reflexivity|..];
    (split;
     [ cbn [uint_digits]; rewrite digits_value_cons, IH, IL;
       match goal with
       | |- context [Decimal.rev (?c d)] =>
           change (Decimal.rev (c d))
             with (Decimal.revapp d (c Decimal.Nil));
           rewrite (DecimalPos.Unsigned.of_lu_revapp d (c Decimal.Nil))
       end;
       cbn [DecimalPos.Unsigned.of_lu];
       rewrite N2Z.inj_add, N2Z.inj_mul, N2Z.inj_pow;
       unfold digit_value; cbn; lia
     | cbn [uint_digits List.length DecimalPos.Unsigned.usize];
       rewrite Nat2Z.inj_succ, N2Z.inj_succ, IL; reflexivity ]).
Qed.

Lemma digits_value_decimal_string (s : Z) :
  (0 <= s)%Z -> digits_value (decimal_string s) = s.
Proof.
  intros Hs; unfold decimal_string.
  destruct (uint_digits_value (N.to_uint (Z.to_N s))) as (-> & _).
  rewrite <- DecimalPos.Unsigned.of_uint_alt.
  change (Pos.of_uint (N.to_uint (Z.to_N s)))
    with (N.of_uint (N.to_uint (Z.to_N s))).
  rewrite DecimalN.Unsigned.of_to. lia.
Qed.

(** A run of digits is below the power of ten of its length, and not below
    the one before when it does not start with a zero. *)
Lemma digit_value_range (c : code_unit) :
  is_digit c = true -> (0 <= digit_value c <= 9)%Z.
Proof.
  unfold is_digit, digit_value; rewrite andb_true_iff, !N.leb_le; lia.
Qed.

Lemma digits_value_upper (ds : jsstring) :
  all_digits ds -> (0 <= digits_value ds < 10 ^ Z.of_nat (List.length ds))%Z.
Proof.
  unfold all_digits; induction ds as [|c ds IH];
    [intros _; unfold digits_value; simpl; lia|].
  cbn [forallb]; rewrite andb_true_iff; intros (Hc & Hds).
  apply digit_value_range in Hc; specialize (IH Hds).
  rewrite digits_value_cons; cbn [List.length].
  rewrite Nat2Z.inj_succ, Z.pow_succ_r by lia.
  set (P := (10 ^ Z.of_nat (List.length ds))%Z) in *.
  assert (H9 : (digit_value c * P <= 9 * P)%Z)
    by (apply Z.mul_le_mono_nonneg_r; lia).
  assert (H0 : (0 <= digit_value c * P)%Z)
    by (apply Z.mul_nonneg_nonneg; lia).
  lia.
Qed.

Lemma digits_value_lower (c : code_unit) (ds : jsstring) :
  all_digits (c :: ds) -> c <> 48%N ->
  (10 ^ Z.of_nat (List.length ds) <= digits_value (c :: ds))%Z.
Proof.
  unfold all_digits; cbn [forallb]; rewrite andb_true_iff; intros (Hc & Hds) Hnz.
  pose proof (digits_value_upper ds Hds) as Hu.
  assert (H1 : (1 <= digit_value c)%Z).
  { unfold is_digit, digit_value in *.
    rewrite andb_true_iff, !N.leb_le in Hc. lia. }
  rewrite digits_value_cons.
  set (P := (10 ^ Z.of_nat (List.length ds))%Z) in *.
  assert (H2 : (1 * P <= digit_value c * P)%Z)
    by (apply Z.mul_le_mono_nonneg_r; lia).
  lia.
Qed.

(** The number of digits of a positive integer. *)
Lemma decimal_string_length (s k : Z) :
  (10 ^ (k - 1) <= s < 10 ^ k)%Z -> (1 <= s)%Z ->
  Z.of_nat (List.length (decimal_string s)) = k.
Proof.
  intros Hk Hs.
  destruct (decimal_string_positive s Hs) as (Hd & c & r & E & Hc).
  pose proof (digits_value_decimal_string s ltac:(lia)) as Hv.
  rewrite E in Hd, Hv |- *.
  pose proof (digits_value_upper _ Hd) as Hu.
  pose proof (digits_value_lower c r Hd Hc) as Hl.
  rewrite Hv in Hu, Hl; cbn [List.length] in *.
  rewrite Nat2Z.inj_succ in *.
  set (len := Z.of_nat (List.length r)) in *.
  assert (Hlen : (0 <= len)%Z) by (unfold len; lia).
  assert (Hk0 : (0 < k)%Z).
  { destruct (Z.lt_ge_cases 0 k) as [|G]; [assumption|].
    destruct (Z.eq_dec k 0) as [->|]; [simpl in Hk; lia|].
    rewrite (Z.pow_neg_r 10 k) in Hk by lia. lia. }
  destruct (Z.lt_trichotomy (Z.succ len) k) as [Hlt | [Heq | Hgt]];
    [exfalso | exact Heq | exfalso].
  - assert (10 ^ Z.succ len <= 10 ^ (k - 1))%Z
      by (apply Z.pow_le_mono_r; lia). lia.
  - assert (10 ^ k <= 10 ^ len)%Z by (apply Z.pow_le_mono_r; lia). lia.
Qed.

Lemma of_decimal_zeros (s j : Z) :
  (0 <= j)%Z -> of_decimal false (s * 10 ^ j) 0 = of_decimal false s j.
Proof.
  intros Hj; unfold of_decimal.
  apply Z.leb_le in Hj; rewrite Hj; cbn [Z.leb Z.compare].
  rewrite Z.pow_0_r, Z.mul_1_r; reflexivity.
Qed.

(** Every text [format_digits] writes for a positive [s] is a JSON number
    literal, whose value is the Number value of [s * 10^(n-k)]. *)
Lemma format_digits_token (n s : Z) :
  (1 <= s)%Z ->
  exists ip fp ex,
    format_digits n s = number_token ip fp ex
    /\ well_formed_token ip fp ex
    /\ token_value ip fp ex
       = of_decimal false s (n - Z.of_nat (List.length (decimal_string s))).
Proof.
  intros Hs; unfold format_digits.
  destruct (decimal_string_positive s Hs) as (Hd & c & r & E & Hc).
  destruct (decimal_string_digits (Z.abs (n - 1))) as (Hed & Hene).
  pose proof (digits_value_decimal_string s ltac:(lia)) as Hv.
  pose proof (digits_value_decimal_string (Z.abs (n - 1)) ltac:(lia)) as Hve.
  set (ds := decimal_string s) in *.
  set (k := Z.of_nat (List.length ds)).
  assert (Hk : (1 <= k)%Z) by (unfold k; rewrite E; simpl; lia).
  set (sign := if (0 <? n - 1)%Z then [43%N] else [45%N]).
  assert (Hsign : forall ed,
             [101%N] ++ sign ++ ed
             = exponent_text (Some (negb (0 <? n - 1)%Z, ed))).
  { intros ed; unfold sign; destruct (0 <? n - 1)%Z; reflexivity. }
  assert (Hexp : exponent_value
                   (Some (negb (0 <? n - 1)%Z, decimal_string (Z.abs (n - 1))))
                 = (n - 1)%Z).
  { unfold exponent_value; rewrite Hve.
    destruct (Z.ltb_spec 0 (n - 1)); cbn [negb]; lia. }
  destruct ((k <=? n) && (n <=? 21))%Z eqn:C1.
  { exists (ds ++ zeros (n - k)), [], None; split; [|split].
    - unfold number_token; simpl; rewrite !List.app_nil_r; reflexivity.
    - repeat split; auto.
      + apply all_digits_app; split; [exact Hd | apply all_digits_zeros].
      + rewrite E; discriminate.
      + rewrite E; simpl; destruct (r ++ zeros (n - k)); auto.
    - unfold token_value; rewrite List.app_nil_r.
      rewrite digits_value_app, digits_value_zeros, length_zeros, Hv.
      cbn [exponent_value List.length]. rewrite Z.add_0_r.
      rewrite Z2Nat.id by lia. apply of_decimal_zeros; lia. }
  destruct ((0 <? n) && (n <=? 21))%Z eqn:C2.
  { assert (Hn : (0 < n < k)%Z) by lia.
    destruct (all_digits_firstn_skipn (Z.to_nat n) ds Hd) as (Hf & Hsk).
    exists (firstn (Z.to_nat n) ds), (skipn (Z.to_nat n) ds), None;
      split; [|split].
    - unfold number_token, fraction_text.
      destruct (skipn (Z.to_nat n) ds) eqn:Esk.
      + exfalso.
        assert (Hl : List.length (skipn (Z.to_nat n) ds) = 0%nat)
          by (rewrite Esk; reflexivity).
        rewrite length_skipn in Hl; unfold k in Hn; lia.
      + simpl; rewrite List.app_nil_r; reflexivity.
    - repeat split; auto.
      + rewrite E; destruct (Z.to_nat n) eqn:En; [lia | discriminate].
      + rewrite E; destruct (Z.to_nat n) as [|[|m]] eqn:En; simpl; auto.
        destruct r; simpl; auto.
    - unfold token_value; rewrite firstn_skipn, Hv, length_skipn.
      cbn [exponent_value]. f_equal. unfold k in *. lia. }
  destruct ((-6 <? n) && (n <=? 0))%Z eqn:C3.
  { exists [48%N], (zeros (- n) ++ ds), None; split; [|split].
    - unfold number_token, fraction_text.
      destruct (zeros (- n) ++ ds) eqn:Ez.
      + apply app_eq_nil in Ez; destruct Ez as (_ & Ez);
          rewrite E in Ez; discriminate.
      + simpl; rewrite List.app_nil_r; reflexivity.
    - repeat split; auto; try discriminate.
      apply all_digits_app; split; [apply all_digits_zeros | exact Hd].
    - unfold token_value; cbn [app].
      rewrite digits_value_cons, digits_value_app, digits_value_zeros, Hv.
      rewrite length_app, length_zeros.
      cbn [exponent_value]. f_equal. unfold k in *. lia. }
  destruct (k =? 1)%Z eqn:C4.
  { exists ds, [], (Some (negb (0 <? n - 1)%Z, decimal_string (Z.abs (n - 1)))).
    split; [|split].
    - unfold number_token; rewrite <- Hsign; reflexivity.
    - repeat split; auto.
      + rewrite E; discriminate.
      + rewrite E; destruct r; auto.
    - unfold token_value; rewrite List.app_nil_r, Hv, Hexp.
      cbn [List.length]. f_equal. lia. }
  destruct (all_digits_firstn_skipn 1 ds Hd) as (Hf & Hsk).
  exists (firstn 1 ds), (skipn 1 ds),
    (Some (negb (0 <? n - 1)%Z, decimal_string (Z.abs (n - 1)))).
  split; [|split].
  - unfold number_token, fraction_text; rewrite <- Hsign.
    destruct (skipn 1 ds) eqn:Esk.
    + exfalso; rewrite E in Esk; simpl in Esk; subst r.
      unfold k in C4; rewrite E in C4; simpl in C4; lia.
    + reflexivity.
  - repeat split; auto.
    + rewrite E; discriminate.
    + rewrite E; simpl; auto.
  - unfold token_value; rewrite firstn_skipn, Hv, Hexp, length_skipn.
    f_equal. unfold k in *. lia.
Qed.

(* ----------------------------------------------------------------- *)
(** ** The search of [Number::toString] *)

(** A candidate has the digits asked for and reads back as the number. *)
Lemma digits_candidate_reads (x : number) (r : Z * Z) (n0 k n s : Z) :
  digits_candidate x r n0 k = Some (n, s) ->
  (10 ^ (k - 1) <= s < 10 ^ k)%Z /\ of_decimal false s (n - k) = x.
Proof.
  unfold digits_candidate.
  destruct (scale10 r (k - n0)) as (p, q).
  set (ok := fun n1 s1 : Z =>
               ((10 ^ (k - 1) <=? s1)%Z && (s1 <? 10 ^ k)%Z
                && PrimFloat.Leibniz.eqb (of_decimal false s1 (n1 - k)) x)).
  assert (Hok : forall n1 s1, ok n1 s1 = true ->
                  (10 ^ (k - 1) <= s1 < 10 ^ k)%Z
                  /\ of_decimal false s1 (n1 - k) = x).
  { intros n1 s1 H; unfold ok in H.
    apply andb_true_iff in H; destruct H as (H & H3).
    apply andb_true_iff in H; destruct H as (H1 & H2).
    apply Z.leb_le in H1; apply Z.ltb_lt in H2.
    apply FloatAxioms.Leibniz.eqb_spec in H3. auto. }
  cbv zeta.
  set (hi := if (p / q + 1 =? 10 ^ k)%Z then ((n0 + 1)%Z, (10 ^ (k - 1))%Z)
             else (n0, (p / q + 1)%Z)).
  fold (ok n0 (p / q)%Z); fold (ok (fst hi) (snd hi)).
  clearbody hi; destruct hi as (hn, hs); cbn [fst snd].
  destruct (ok n0 (p / q)%Z) eqn:Elo; destruct (ok hn hs) eqn:Ehi;
    cbn [andb].
  - destruct (_ || _); intros H; inversion H; subst; apply Hok; assumption.
  - intros H; inversion H; subst; apply Hok; assumption.
  - intros H; inversion H; subst; apply Hok; assumption.
  - discriminate.
Qed.

Lemma shortest_digits_reads (fuel : nat) (x : number) (r : Z * Z) :
  forall (n0 k n s : Z),
    shortest_digits fuel x r n0 k = Some (n, s) ->
    exists k', (k <= k')%Z /\ (10 ^ (k' - 1) <= s < 10 ^ k')%Z
               /\ of_decimal false s (n - k') = x.
Proof.
  induction fuel as [|fuel IH]; intros n0 k n s; simpl; [discriminate|].
  destruct (digits_candidate x r n0 k) as [[n1 s1]|] eqn:E.
  - intros H; inversion H; subst.
    exists k; split; [lia|]. eapply digits_candidate_reads; exact E.
  - intros H; destruct (IH _ _ _ _ H) as (k' & Hk & Hr).
    exists k'; split; [lia | exact Hr].
Qed.

Lemma shortest_digits_found (fuel : nat) (x : number) (r : Z * Z) (n0 : Z) :
  forall k : Z,
    (exists i : nat, (i < fuel)%nat
                     /\ digits_candidate x r n0 (k + Z.of_nat i) <> None) ->
    shortest_digits fuel x r n0 k <> None.
Proof.
  induction fuel as [|fuel IH]; intros k (i & Hi & Hc); [lia|].
  cbn [shortest_digits].
  destruct (digits_candidate x r n0 k) as [ns|] eqn:E; [discriminate|].
  apply IH. destruct i as [|i].
  - rewrite Z.add_0_r in Hc; congruence.
  - exists i; split; [lia|].
    replace (k + 1 + Z.of_nat i)%Z with (k + Z.of_nat (S i))%Z by lia.
    exact Hc.
Qed.

(** Seventeen digits are enough for every positive binary64. *)
Lemma digits_candidate_17 (x : number) (m : positive) (e : Z) :
  Prim2SF x = S754_finite false m e ->
  digits_candidate x (ratio_of (Zpos m) e) (mag10 (ratio_of (Zpos m) e)) 17
  <> None.
Proof.
  intros Hx; unfold digits_candidate.
  set (r := ratio_of (Zpos m) e); set (n0 := mag10 r).
  destruct (scale10 r (17 - n0)) as (p, q) eqn:Hs.
  destruct (seventeen_digits x m e Hx p q Hs) as (Hrange & Hread).
  fold r in Hread; fold n0 in Hread.
  change (17 - 1)%Z with 16%Z.
  set (ok := fun n1 s1 : Z =>
               ((10 ^ 16 <=? s1)%Z && (s1 <? 10 ^ 17)%Z
                && PrimFloat.Leibniz.eqb (of_decimal false s1 (n1 - 17)) x)).
  assert (Hok : forall n1 s1,
             (10 ^ 16 <= s1 < 10 ^ 17)%Z ->
             of_decimal false s1 (n1 - 17) = x -> ok n1 s1 = true).
  { intros n1 s1 (H1 & H2) H3; unfold ok.
    apply Z.leb_le in H1; apply Z.ltb_lt in H2.
    apply FloatAxioms.Leibniz.eqb_spec in H3.
    rewrite H1, H2, H3; reflexivity. }
  cbv zeta.
  set (lo := (p / q)%Z) in *.
  set (hi := if (lo + 1 =? 10 ^ 17)%Z then ((n0 + 1)%Z, (10 ^ 16)%Z)
             else (n0, (lo + 1)%Z)).
  fold (ok n0 lo); fold (ok (fst hi) (snd hi)).
  assert (H : ok n0 lo = true \/ ok (fst hi) (snd hi) = true).
  { destruct Hread as [Hlo | Hhi]; [left; apply Hok; assumption|].
    right; unfold hi.
    destruct (Z.eqb_spec (lo + 1) (10 ^ 17)) as [E17 | N17]; cbn [fst snd].
    - apply Hok; [lia|]. apply Hhi; [lia|].
      replace (n0 + 1 - 17)%Z with (1 + (n0 - 17))%Z by lia.
      rewrite Qpow_add by lra.
      change 1%Q with (inject_Z 1); rewrite <- inject_Z_plus, E17.
      change (inject_Z (10 ^ 16)) with (10 ^ 16)%Q.
      change (inject_Z (10 ^ 17)) with (10 ^ 17)%Q.
      change (10 ^ 17)%Q with (10 ^ 16 * 10 ^ 1)%Q. ring.
    - apply Hok; [lia|]. apply Hhi; [lia|].
      rewrite inject_Z_plus; reflexivity. }
  clearbody hi ok.
  destruct (ok n0 lo), (ok (fst hi) (snd hi)); cbn [andb];
    try discriminate.
  - destruct (_ || _); discriminate.
  - destruct H; discriminate.
Qed.

(** A positive finite number is [m * 2^e]. *)
Lemma positive_finite_value (a : number) :
  is_positive a = true -> PrimFloat.is_finite a = true ->
  exists m e, Prim2SF a = S754_finite false m e.
Proof.
  unfold is_positive, PrimFloat.is_finite, PrimFloat.is_infinity, PrimFloat.is_nan.
  rewrite FloatAxioms.ltb_spec, !FloatAxioms.eqb_spec, FloatAxioms.abs_spec.
  change (Prim2SF 0%float) with (S754_zero false).
  change (Prim2SF PrimFloat.infinity) with (S754_infinity false).
  destruct (Prim2SF a) as [[]|[]| |[] m e]; simpl; try discriminate.
  intros _ _; exists m, e; reflexivity.
Qed.

(** The absolute value of a positive number is the number. *)
Lemma abs_positive (x : number) (m : positive) (e : Z) :
  Prim2SF x = S754_finite false m e -> PrimFloat.abs x = x.
Proof.
  intros Hx; apply FloatAxioms.Prim2SF_inj.
  rewrite FloatAxioms.abs_spec, Hx; reflexivity.
Qed.

(** The text of a positive finite number is a number literal whose value
    is the number. *)
Lemma amount_token (a : number) :
  is_positive_finite a = true ->
  exists ip fp ex,
    Number_toString a = number_token ip fp ex
    /\ well_formed_token ip fp ex /\ token_value ip fp ex = a.
Proof.
  intros Ha; apply andb_true_iff in Ha; destruct Ha as (Hpos & Hfin).
  destruct (positive_finite_value a Hpos Hfin) as (m & e & Em).
  unfold Number_toString; rewrite Em; cbn [app].
  rewrite (abs_positive a m e Em); unfold positive_toString.
  pose proof (shortest_digits_found 17 a (ratio_of (Zpos m) e)
                (mag10 (ratio_of (Zpos m) e)) 1) as Hfound.
  destruct (shortest_digits 17 a (ratio_of (Zpos m) e)
              (mag10 (ratio_of (Zpos m) e)) 1) as [[n s]|] eqn:E.
  - destruct (shortest_digits_reads _ _ _ _ _ _ _ E) as (k & Hk & Hr & Hv).
    assert (Hs : (1 <= s)%Z).
    { assert (1 <= 10 ^ (k - 1))%Z
        by (apply (Z.pow_le_mono_r 10 0 (k - 1)); lia). lia. }
    destruct (format_digits_token n s Hs) as (ip & fp & ex & Ef & WF & Ev).
    exists ip, fp, ex; split; [exact Ef | split; [exact WF|]].
    rewrite Ev, (decimal_string_length s k Hr Hs); exact Hv.
  - exfalso; apply Hfound; [|reflexivity].
    exists 16%nat; split; [lia|].
    change (1 + Z.of_nat 16)%Z with 17%Z.
    apply (digits_candidate_17 a m e Em).
Qed.

(** [Number] reads the text of a positive finite number back as the
    number. *)
Lemma Number_toString_reads_back (a : number) :
  is_positive_finite a = true -> Number_of_string (Number_toString a) = a.
Proof.
  intros Ha; destruct (amount_token a Ha) as (ip & fp & ex & -> & WF & <-).
  apply Number_of_string_token; exact WF.
Qed.

(** In a document, the text of a positive finite amount is read back as
    the amount. *)
Lemma parse_number_amount (a : number) (rest : jsstring) :
  is_positive_finite a = true -> ends_number rest ->
  parse_number (Number_toString a ++ rest) = Some (a, rest).
Proof.
  intros Ha Hrest.
  destruct (amount_token a Ha) as (ip & fp & ex & -> & WF & <-).
  apply parse_number_token; assumption.
Qed.

(** The shortest digits of some amounts. *)
Example Number_toString_examples :
  Number_toString 4.5%float = js "4.5"
  /\ Number_toString 0.1%float = js "0.1"
  /\ Number_toString 1e21%float = js "1e+21"
  /\ Number_toString 5e-324%float = js "5e-324".
Proof. repeat split; vm_compute; reflexivity. Qed.

(* ================================================================= *)
(** * The stored document *)

(** A value that starts with a character other than white space. *)
Lemma parse_value_head (f : nat) (c : code_unit) (r : jsstring) :
  is_json_ws c = false ->
  parse_value (S f) (c :: r)
  = if (c =? 110)%N then
      option_map (fun rest => (JNull, rest)) (prefix_of (js "ull") r)
    else if (c =? 116)%N then
      option_map (fun rest => (JBool true, rest)) (prefix_of (js "rue") r)
    else if (c =? 102)%N then
      option_map (fun rest => (JBool false, rest)) (prefix_of (js "alse") r)
    else if (c =? 34)%N then
      option_map (fun '(t, rest) => (JStr t, rest)) (parse_string_body r)
    else if (c =? 91)%N then
      match skip_ws r with
      | 93%N :: r' => Some (JArr [], r')
      | _ =>
          option_map (fun '(vs, rest) => (JArr vs, rest))
            (parse_elements (parse_value f) f r)
      end
    else if (c =? 123)%N then
      match skip_ws r with
      | 125%N :: r' => Some (JObj [], r')
      | _ =>
          option_map (fun '(o, rest) => (JObj o, rest))
            (parse_members (parse_value f) f r [])
      end
    else
      option_map (fun '(x, rest) => (JNum x, rest)) (parse_number (c :: r)).
Proof. intros H; cbn [parse_value skip_ws]; rewrite H; reflexivity. Qed.

Lemma parse_value_string (f : nat) (s rest : jsstring) :
  parse_value (S f) (QuoteJSONString s ++ rest) = Some (JStr s, rest).
Proof.
  unfold QuoteJSONString; cbn [app].
  rewrite parse_value_head by reflexivity.
  cbn [N.eqb Pos.eqb].
  rewrite <- app_assoc; cbn [app]; rewrite parse_quote_chars; reflexivity.
Qed.

Lemma parse_value_number (f : nat) (a : number) (rest : jsstring) :
  is_positive_finite a = true -> ends_number rest ->
  parse_value (S f) (Number_toString a ++ rest) = Some (JNum a, rest).
Proof.
  intros Ha Hrest.
  pose proof (parse_number_amount a rest Ha Hrest) as Hp.
  destruct (amount_token a Ha) as (ip & fp & ex & E & WF & _).
  destruct (token_head ip fp ex WF) as (c & ip' & Eip & Hc).
  rewrite E in *; unfold number_token in *; rewrite Eip in *.
  cbn [app] in *.
  rewrite parse_value_head.
  - repeat match goal with
    | |- context [(c =? ?k)%N] => destruct (N.eqb_spec c k); [lia|]
    end.
    rewrite Hp; reflexivity.
  - unfold is_json_ws.
    repeat match goal with
    | |- context [(c =? ?k)%N] => destruct (N.eqb_spec c k); [lia|]
    end.
    reflexivity.
Qed.

Section Members.
Variable pv : jsstring -> option (json * jsstring).

Lemma parse_members_comma (fm : nat) (k value more : jsstring) (v : json)
    (acc : object json) :
  pv (value ++ 44%N :: more) = Some (v, 44%N :: more) ->
  parse_members pv (S fm) (member_text k value (44%N :: more)) acc
  = parse_members pv fm more (define k v acc).
Proof.
  intros Hv; unfold member_text.
  cbn [parse_members skip_ws is_json_ws N.eqb Pos.eqb orb].
  rewrite parse_quote_chars.
  cbn [skip_ws is_json_ws N.eqb Pos.eqb orb].
  rewrite Hv; reflexivity.
Qed.

Lemma parse_members_brace (fm : nat) (k value rest : jsstring) (v : json)
    (acc : object json) :
  pv (value ++ 125%N :: rest) = Some (v, 125%N :: rest) ->
  parse_members pv (S fm) (member_text k value (125%N :: rest)) acc
  = Some (define k v acc, rest).
Proof.
  intros Hv; unfold member_text.
  cbn [parse_members skip_ws is_json_ws N.eqb Pos.eqb orb].
  rewrite parse_quote_chars.
  cbn [skip_ws is_json_ws N.eqb Pos.eqb orb].
  rewrite Hv; reflexivity.
Qed.
End Members.

Lemma parse_value_object (f : nat) (k value tail : jsstring) :
  parse_value (S f) (123%N :: member_text k value tail)
  = option_map (fun '(o, rest) => (JObj o, rest))
      (parse_members (parse_value f) f (member_text k value tail) []).
Proof. rewrite parse_value_head by reflexivity; reflexivity. Qed.

(** The text of a record, member by member. *)
Lemma tx_text (t : Transaction) (rest : jsstring) :
  JSON_stringify (tx_json t) ++ rest
  = 123%N ::
      member_text (js "id") (QuoteJSONString (Tx.id t))
        (44%N :: member_text (js "description")
                   (QuoteJSONString (Tx.description t))
        (44%N :: member_text (js "amount")
                   (JSON_stringify (JNum (Tx.amount t)))
        (44%N :: member_text (js "category")
                   (QuoteJSONString (Tx.category t))
        (44%N :: member_text (js "type")
                   (QuoteJSONString (TxType_string (Tx.type t)))
        (44%N :: member_text (js "date") (QuoteJSONString (Tx.date t))
        (125%N :: rest)))))).
Proof.
  unfold tx_json, member_text.
  cbn [JSON_stringify map join_comma fst snd].
  unfold QuoteJSONString.
  repeat (rewrite <- ?app_assoc; cbn [app]).
  reflexivity.
Qed.

Lemma parse_value_record (f : nat) (t : Transaction) (rest : jsstring) :
  (6 <= f)%nat -> is_positive_finite (Tx.amount t) = true ->
  parse_value (S f) (JSON_stringify (tx_json t) ++ rest)
  = Some (tx_json t, rest).
Proof.
  intros Hf Ha; rewrite tx_text, parse_value_object.
  do 6 (destruct f as [|f]; [lia|]).
  set (pv := parse_value (S (S (S (S (S (S f))))))).
  assert (Hstr : forall s more, pv (QuoteJSONString s ++ more)
                                = Some (JStr s, more)).
  { intros s more; apply parse_value_string. }
  assert (Hnum : forall more,
             pv (JSON_stringify (JNum (Tx.amount t)) ++ 44%N :: more)
             = Some (JNum (Tx.amount t), 44%N :: more)).
  { intros more; cbn [JSON_stringify].
    pose proof Ha as Hfin; apply andb_true_iff in Hfin.
    destruct Hfin as (_ & Hfin); rewrite Hfin.
    apply parse_value_number; [exact Ha|].
    simpl; repeat split; discriminate. }
  rewrite (parse_members_comma pv _ _ _ _ _ _ (Hstr _ _)).
  rewrite (parse_members_comma pv _ _ _ _ _ _ (Hstr _ _)).
  rewrite (parse_members_comma pv _ _ _ _ _ _ (Hnum _)).
  rewrite (parse_members_comma pv _ _ _ _ _ _ (Hstr _ _)).
  rewrite (parse_members_comma pv _ _ _ _ _ _ (Hstr _ _)).
  rewrite (parse_members_brace pv _ _ _ _ _ _ (Hstr _ _)).
  reflexivity.
Qed.

Lemma tx_text_head (t : Transaction) :
  exists body, JSON_stringify (tx_json t) = 123%N :: body
               /\ (6 <= List.length body)%nat.
Proof.
  pose proof (tx_text t []) as H; rewrite List.app_nil_r in H.
  eexists; split; [exact H|].
  unfold member_text; simpl; rewrite !length_app; simpl; lia.
Qed.

Lemma join_comma_cons (p q : jsstring) (rest : list jsstring) :
  join_comma (p :: q :: rest) = p ++ 44%N :: join_comma (q :: rest).
Proof. reflexivity. Qed.

Lemma join_comma_length (txs : list Transaction) :
  (List.length txs
   <= List.length (join_comma (map JSON_stringify (map tx_json txs))))%nat.
Proof.
  induction txs as [|t [|u txs] IH].
  - simpl; lia.
  - destruct (tx_text_head t) as (body & E & Hb).
    cbn [map join_comma]; rewrite E; simpl; lia.
  - destruct (tx_text_head t) as (body & E & Hb).
    cbn [map] in *; rewrite join_comma_cons, length_app.
    simpl List.length in *; lia.
Qed.

(** The elements of the array, up to the closing bracket. *)
Lemma parse_elements_records (f : nat) (txs : list Transaction) :
  forall (fe : nat) (t : Transaction) (rest : jsstring),
    (6 <= f)%nat -> (List.length txs < fe)%nat ->
    Forall (fun t => is_positive_finite (Tx.amount t) = true) (t :: txs) ->
    parse_elements (parse_value (S f)) fe
      (join_comma (map JSON_stringify (map tx_json (t :: txs)))
         ++ 93%N :: rest)
    = Some (map tx_json (t :: txs), rest).
Proof.
  induction txs as [|u txs IH]; intros fe t rest Hf Hfe Hall;
    (destruct fe as [|fe]; [simpl in Hfe; lia|]);
    inversion Hall as [|? ? Ht Hrest]; subst.
  - cbn [map join_comma parse_elements].
    rewrite (parse_value_record f t (93%N :: rest) Hf Ht); reflexivity.
  - cbn [map]; rewrite join_comma_cons, <- app_assoc.
    change (map tx_json (u :: txs)) with (tx_json u :: map tx_json txs).
    cbn [parse_elements app].
    rewrite (parse_value_record f t _ Hf Ht).
    cbn [skip_ws is_json_ws N.eqb Pos.eqb orb].
    change (JSON_stringify (tx_json u) :: map JSON_stringify (map tx_json txs))
      with (map JSON_stringify (map tx_json (u :: txs))).
    rewrite (IH fe u rest Hf); [reflexivity | simpl in Hfe; lia | exact Hrest].
Qed.

(** [JSON.parse] reads the document [JSON.stringify] wrote. *)
Lemma JSON_parse_stringify (txs : list Transaction) :
  Forall (fun t => is_positive_finite (Tx.amount t) = true) txs ->
  JSON_parse (JSON_stringify (transactions_json txs))
  = Some (transactions_json txs).
Proof.
  intros Hall; unfold JSON_parse, transactions_json.
  cbn [JSON_stringify].
  set (body := join_comma (map JSON_stringify (map tx_json txs))).
  destruct txs as [|t txs]; [reflexivity|].
  pose proof (join_comma_length (t :: txs)) as Hlen; fold body in Hlen.
  destruct (tx_text_head t) as (tb & Et & Htb).
  assert (Hbody : exists b, body = 123%N :: b /\ (6 <= List.length b)%nat).
  { unfold body; destruct txs as [|u txs].
    - cbn [map join_comma]; rewrite Et; eauto.
    - cbn [map]; rewrite join_comma_cons, Et; cbn [app].
      eexists; split; [reflexivity|]; rewrite length_app.
      eapply Nat.le_trans; [exact Htb | apply Nat.le_add_r]. }
  destruct Hbody as (b & Eb & Hb).
  cbn [app List.length]; rewrite length_app; cbn [List.length].
  remember (List.length body + 1)%nat as L eqn:EL.
  assert (HL : (7 <= L)%nat /\ (List.length txs < L)%nat).
  { rewrite EL; simpl in Hlen; rewrite Eb in *; simpl List.length in *.
    unfold code_unit in *; clear - Hlen Hb; lia. }
  rewrite parse_value_head by reflexivity; cbn [N.eqb Pos.eqb].
  rewrite Eb at 1; cbn [app skip_ws is_json_ws N.eqb Pos.eqb orb].
  assert (Hp : parse_elements (parse_value (S L)) (S L) (body ++ [93%N])
               = Some (map tx_json (t :: txs), [])).
  { apply (parse_elements_records L txs (S L) t []);
      [clear - HL; lia | clear - HL; lia | exact Hall]. }
  rewrite Hp; reflexivity.
Qed.

(** The typed reading of the value of a record list is the list. *)
Lemma as_transaction_tx_json (t : Transaction) :
  as_transaction (tx_json t) = Some t.
Proof. destruct t as [i d a c [] dt]; reflexivity. Qed.

Lemma as_transactions_json (txs : list Transaction) :
  as_transactions (transactions_json txs) = Some txs.
Proof.
  unfold as_transactions, transactions_json.
  induction txs as [|t txs IH]; [reflexivity|].
  cbn [map as_transaction_list]; rewrite as_transaction_tx_json, IH.
  reflexivity.
Qed.

Lemma lookup_store_item (k v : jsstring) (l : list (jsstring * jsstring)) :
  lookup_item k (store_item k v l) = Some v.
Proof.
  induction l as [|[k' v'] l IH]; simpl.
  - rewrite str_eqb_refl; reflexivity.
  - destruct (str_eqb k' k) eqn:E; simpl; rewrite E; [reflexivity | exact IH].
Qed.

(** C4.  Saving a sequence of valid records and loading it again returns
    the same sequence, in the same order and with every field as it was.  A
    valid record is one whose amount is a positive finite number, as the
    specification has it for every record; the storage must be one that
    accepts the write. *)
Theorem save_load_roundtrip (transactions : list Transaction)
    (ls : LocalStorage) :
  blocked ls = false ->
  Forall (fun t => is_positive_finite (Tx.amount t) = true) transactions ->
  exists ls',
    save transactions ls = Normal ls'
    /\ load ls' = transactions_json transactions
    /\ as_transactions (load ls') = Some transactions.
Proof.
  intros Hb Hall; unfold save, setItem; rewrite Hb.
  eexists; split; [reflexivity|].
  assert (Hload : load {| blocked := false;
                          items := store_item STORAGE_KEY
                                     (JSON_stringify
                                        (transactions_json transactions))
                                     (items ls) |}
                  = transactions_json transactions).
  { rewrite load_never_throws; cbn [blocked items].
    rewrite lookup_store_item, (JSON_parse_stringify transactions Hall).
    reflexivity. }
  rewrite Hload; split; [reflexivity | apply as_transactions_json].
Qed.

Lemma save_load_roundtrip_witness :
  exists ls',
    save paycheck_and_coffee empty_storage = Normal ls'
    /\ load ls' = transactions_json paycheck_and_coffee
    /\ as_transactions (load ls') = Some paycheck_and_coffee.
Proof.
  apply (save_load_roundtrip paycheck_and_coffee empty_storage).
  - reflexivity.
  - repeat constructor; vm_compute; reflexivity.
Defined.

(** The document saved for the scenario of the specification. *)
Example saved_document :
  JSON_stringify (transactions_json paycheck_and_coffee)
  = json_text
      ("[{'id':'1704153600000','description':'Paycheck','amount':1000,"
       ++ "'category':'Other','type':'Income','date':'2024-01-02'},"
       ++ "{'id':'1704067200000','description':'Coffee','amount':4.5,"
       ++ "'category':'Food','type':'Expense','date':'2024-01-01'}]").
Proof. vm_compute; reflexivity. Qed.

(** An infinite amount, which [addTransaction] lets through, is saved as
    [null] and is not restored. *)
Example infinite_amount_is_not_restored :
  JSON_stringify (tx_json infinite_record)
  = json_text
      ("{'id':'1704067200000','description':'Rent','amount':null,"
       ++ "'category':'Bills','type':'Expense','date':'2024-01-01'}")
  /\ as_transactions
       (load {| blocked := false;
                items := [(STORAGE_KEY,
                           JSON_stringify
                             (transactions_json [infinite_record]))] |})
     = None.
Proof. split; vm_compute; reflexivity. Qed.

(* ================================================================= *)
(** * More on adding and removing records *)

(** X1.  Removing two ids gives the same list in either order. *)
Theorem deleteTx_commute (a b : jsstring) (transactions : list Transaction) :
  deleteTx a (deleteTx b transactions) = deleteTx b (deleteTx a transactions).
Proof.
  unfold deleteTx; rewrite !filter_filter.
  apply filter_ext; intros t; apply andb_comm.
Qed.

(** Removing never makes the list longer, and keeps its length only when
    it removes nothing. *)
Lemma deleteTx_length (id : jsstring) (l : list Transaction) :
  (List.length (deleteTx id l) <= List.length l)%nat
  /\ (List.length (deleteTx id l) = List.length l -> deleteTx id l = l).
Proof.
  induction l as [|t l (IH1 & IH2)]; [split; auto|].
  rewrite deleteTx_cons; destruct (str_eqb (Tx.id t) id); simpl; split.
  - lia.
  - lia.
  - lia.
  - intros H; f_equal; apply IH2; lia.
Qed.

(** X2.  Removing the record that an accepted add has just put in takes with it
    every older record that carries the same id; when there is none, the
    list is as it was before the add. *)
Theorem add_then_delete (now : Z) (today : jsstring) (f : Form)
    (l l' : list Transaction) (f' : Form) :
  addTransaction now today f l = Added l' f' ->
  deleteTx (Date_now_toString now) l' = deleteTx (Date_now_toString now) l
  /\ (~ In (Date_now_toString now) (map Tx.id l) ->
      deleteTx (Date_now_toString now) l' = l).
Proof.
  intros H; destruct (addTransaction_id now today f l l' f' H) as (t & -> & Hid).
  rewrite deleteTx_cons, Hid, str_eqb_refl.
  split; [reflexivity | apply deleteTx_absent].
Qed.

Lemma add_then_delete_witness :
  deleteTx (js "1704153600000") paycheck_and_coffee
  = run_operations [OpAdd 1704067200000 (js "2024-01-01") coffee_form] [].
Proof.
  destruct (add_then_delete 1704153600000 (js "2024-01-02") paycheck_form
              (run_operations [OpAdd 1704067200000 (js "2024-01-01") coffee_form] [])
              paycheck_and_coffee (initial_form (js "2024-01-02")) eq_refl)
    as (H1 & H2).
  apply H2; vm_compute; intros [H | []]; discriminate.
Defined.

(* ================================================================= *)
(** * What the store keeps *)

Lemma trimStart_head (s : jsstring) :
  match trimStart s with
  | [] => True
  | c :: _ => is_white_space c = false
  end.
Proof.
  induction s as [|c s IH]; simpl; [exact I|].
  destruct (is_white_space c) eqn:E; [exact IH | exact E].
Qed.

Lemma trimStart_suffix (s : jsstring) : exists p, s = p ++ trimStart s.
Proof.
  induction s as [|c s (p & IH)]; simpl; [exists []; reflexivity|].
  destruct (is_white_space c).
  - exists (c :: p); simpl; f_equal; exact IH.
  - exists []; reflexivity.
Qed.

Lemma trimStart_trimStart (s : jsstring) : trimStart (trimStart s) = trimStart s.
Proof. apply trimStart_id, trimStart_head. Qed.

(** A trimmed string has no white space left to trim. *)
Lemma trim_trim (s : jsstring) : trim (trim s) = trim s.
Proof.
  unfold trim, trimEnd.
  set (t := trimStart s); set (w := trimStart (rev t)).
  assert (Hst : trimStart (rev w) = rev w).
  { apply trimStart_id.
    destruct (trimStart_suffix (rev t)) as (p & Hp); fold w in Hp.
    assert (Ht : t = rev w ++ rev p).
    { rewrite <- rev_app_distr, <- Hp, rev_involutive; reflexivity. }
    pose proof (trimStart_head s) as Hh; fold t in Hh.
    destruct (rev w) as [|c r]; [exact I|].
    rewrite Ht in Hh; exact Hh. }
  rewrite Hst, rev_involutive; unfold w.
  rewrite trimStart_trimStart; reflexivity.
Qed.

Lemma addTransaction_kept (now : Z) (today : jsstring) (f : Form)
    (l l' : list Transaction) (f' : Form) :
  addTransaction now today f l = Added l' f' ->
  exists t, l' = t :: l /\ kept t.
Proof.
  unfold addTransaction.
  rewrite <- orb_assoc, not_positive_spec.
  destruct (trim (description f)) as [|c d] eqn:Et; [discriminate|].
  cbn [orb].
  destruct (is_positive (parseFloat (amountStr f))) eqn:Ep; [|discriminate].
  cbn [negb]; intros [= <- _]; eexists; split; [reflexivity|].
  unfold kept; cbn [Tx.amount Tx.description Tx.category].
  repeat split.
  - exact Ep.
  - discriminate.
  - rewrite <- Et; apply trim_trim.
  - destruct (category f); discriminate.
Qed.

Lemma run_operations_kept (ops : list operation) :
  forall l : list Transaction,
    Forall kept l -> Forall kept (run_operations ops l).
Proof.
  induction ops as [|op ops IH]; intros l Hl; [exact Hl|].
  unfold run_operations; cbn [fold_left];
    fold (run_operations ops (apply_operation l op)).
  apply IH; destruct op as [now today f | id]; cbn [apply_operation].
  - destruct (addTransaction now today f l) as [msg | l' f'] eqn:E;
      [exact Hl|].
    destruct (addTransaction_kept now today f l l' f' E) as (t & -> & Ht).
    constructor; assumption.
  - rewrite Forall_forall in *; intros t Hin.
    apply deleteTx_In in Hin; apply Hl; tauto.
Qed.

(** X3.  In a store built from the empty list by adds and removes, every record
    has an amount above zero, a trimmed description that is not empty, and
    a category that is not empty. *)
Theorem store_keeps_valid_records (ops : list operation) :
  Forall kept (run_operations ops []).
Proof. apply run_operations_kept; constructor. Qed.

(* ================================================================= *)
(** * More on persistence *)

Lemma lookup_store_other (k k' v : jsstring) (l : list (jsstring * jsstring)) :
  k' <> k -> lookup_item k' (store_item k v l) = lookup_item k' l.
Proof.
  intros Hne; induction l as [|[k0 v0] l IH]; simpl.
  - destruct (str_eqb k k') eqn:E; [|reflexivity].
    apply str_eqb_eq in E; congruence.
  - destruct (str_eqb k0 k) eqn:E0; simpl.
    + apply str_eqb_eq in E0; subst k0.
      destruct (str_eqb k k') eqn:E; [|reflexivity].
      apply str_eqb_eq in E; congruence.
    + destruct (str_eqb k0 k'); [reflexivity | exact IH].
Qed.

(** X4.  The last save wins, and a save leaves the items under other keys as
    they are. *)
Theorem save_overwrites (a b : list Transaction) (ls : LocalStorage) :
  blocked ls = false ->
  exists ls1 ls2,
    save a ls = Normal ls1 /\ save b ls1 = Normal ls2
    /\ getItem ls2 STORAGE_KEY
       = Normal (Some (JSON_stringify (transactions_json b)))
    /\ forall k, k <> STORAGE_KEY ->
                 getItem ls2 k = getItem ls k.
Proof.
  intros Hb; unfold save, setItem, getItem; rewrite Hb; cbn [blocked items].
  eexists; eexists; split; [reflexivity | split; [reflexivity|]].
  cbn [blocked items]; split.
  - rewrite lookup_store_item; reflexivity.
  - intros k Hk; rewrite !lookup_store_other by exact Hk; reflexivity.
Qed.

Lemma save_overwrites_witness :
  exists ls1 ls2,
    save holding_500 empty_storage = Normal ls1
    /\ save paycheck_and_coffee ls1 = Normal ls2
    /\ getItem ls2 STORAGE_KEY
       = Normal (Some (JSON_stringify (transactions_json paycheck_and_coffee)))
    /\ forall k, k <> STORAGE_KEY -> getItem ls2 k = getItem empty_storage k.
Proof.
  apply (save_overwrites holding_500 paycheck_and_coffee empty_storage).
  reflexivity.
Defined.

(* ================================================================= *)
(** * The chart, for any categories *)

Section Keys.
Variable V : Type.
Implicit Types (o : object V) (k : jsstring) (v : V).

Lemma own_get_In k o : own_get k o = None <-> ~ In k (Object_keys o).
Proof.
  induction o as [|[k' v'] o IH]; simpl; [tauto|].
  destruct (str_eqb k' k) eqn:E.
  - apply str_eqb_eq in E; split; [discriminate | tauto].
  - apply str_eqb_neq in E; rewrite IH; tauto.
Qed.

Lemma insert_index_keys i k v o :
  Permutation (Object_keys (insert_index i k v o)) (k :: Object_keys o).
Proof.
  induction o as [|[k' v'] o IH]; simpl; [apply Permutation_refl|].
  destruct (array_index k') as [j|]; [|apply Permutation_refl].
  destruct (j <? i)%Z; [|apply Permutation_refl].
  simpl; eapply Permutation_trans; [apply perm_skip, IH | apply perm_swap].
Qed.

(** Creating a property adds its key; writing an existing one leaves the
    keys as they are. *)
Lemma define_keys k v o :
  match own_get k o with
  | Some _ => Object_keys (define k v o) = Object_keys o
  | None => Permutation (Object_keys (define k v o)) (k :: Object_keys o)
  end.
Proof.
  unfold define; destruct (own_get k o) eqn:E.
  - apply own_update_keys.
  - destruct (array_index k) as [i|]; [apply insert_index_keys|].
    unfold Object_keys; rewrite map_app; simpl.
    apply Permutation_sym, Permutation_cons_append.
Qed.
End Keys.

(** One step of the reduce adds the record's category to the keys, unless
    it is there already or is [__proto__]. *)
Lemma reduce_step_keys (acc : object total) (t : Transaction) :
  let k := Tx.category t in
  if existsb (str_eqb k) (Object_keys acc) || str_eqb k (js "__proto__")
  then Object_keys (reduce_step acc t) = Object_keys acc
  else Permutation (Object_keys (reduce_step acc t)) (k :: Object_keys acc).
Proof.
  intros k; unfold reduce_step, assign; fold k.
  pose proof (@define_keys _ k (accumulate k acc (Tx.amount t)) acc) as Hd.
  destruct (existsb (str_eqb k) (Object_keys acc)) eqn:Ex; cbn [orb].
  - destruct (own_get k acc) as [x|] eqn:E; [apply own_update_keys|].
    apply own_get_keys in E; congruence.
  - apply own_get_keys in Ex; rewrite Ex in *.
    destruct (str_eqb k (js "__proto__")); [reflexivity | exact Hd].
Qed.

Lemma existsb_str_In (k : jsstring) (l : list jsstring) :
  existsb (str_eqb k) l = true <-> In k l.
Proof.
  rewrite existsb_exists; split.
  - intros (x & Hx & E); apply str_eqb_eq in E; subst; exact Hx.
  - intros H; exists k; split; [exact H | apply str_eqb_refl].
Qed.

(** The keys after the reduce: those before it and the categories met,
    [__proto__] apart, each once. *)
Lemma reduce_keys (l : list Transaction) :
  forall acc : object total,
    NoDup (Object_keys acc) ->
    NoDup (Object_keys (fold_left reduce_step l acc))
    /\ forall c,
         In c (Object_keys (fold_left reduce_step l acc))
         <-> In c (Object_keys acc)
             \/ (c <> js "__proto__" /\ In c (map Tx.category l)).
Proof.
  induction l as [|t l IH]; intros acc Hnd; cbn [fold_left map].
  - split; [exact Hnd|]. intros c; simpl; tauto.
  - pose proof (reduce_step_keys acc t) as Hs; cbv zeta in Hs.
    set (k := Tx.category t) in *.
    destruct (existsb (str_eqb k) (Object_keys acc)) eqn:Ex; cbn [orb] in Hs.
    + apply existsb_str_In in Ex.
      destruct (IH (reduce_step acc t)) as (N1 & I1); [rewrite Hs; exact Hnd|].
      split; [exact N1|]. intros c; rewrite I1, Hs; simpl.
      split; [tauto|]. intros [H | (Hc & [<- | H])]; auto.
    + destruct (str_eqb k (js "__proto__")) eqn:Ep.
      * apply str_eqb_eq in Ep.
        destruct (IH (reduce_step acc t)) as (N1 & I1); [rewrite Hs; exact Hnd|].
        split; [exact N1|]. intros c; rewrite I1, Hs; simpl.
        split; [tauto|]. intros [H | (Hc & [<- | H])]; auto.
        congruence.
      * apply str_eqb_neq in Ep.
        assert (Hnot : ~ In k (Object_keys acc)).
        { intros H; apply existsb_str_In in H; congruence. }
        destruct (IH (reduce_step acc t)) as (N1 & I1).
        { eapply Permutation_NoDup; [apply Permutation_sym, Hs|].
          constructor; assumption. }
        split; [exact N1|]. intros c; rewrite I1; simpl.
        split.
        -- intros [H | H]; [|tauto].
           apply (Permutation_in _ Hs) in H; destruct H as [<- | H]; auto.
        -- intros [H | (Hc & [<- | H])]; auto.
           ++ left; apply (Permutation_in _ (Permutation_sym Hs)); right; exact H.
           ++ left; apply (Permutation_in _ (Permutation_sym Hs)); left; reflexivity.
Qed.

Lemma chartLabels_NoDup (transactions : list Transaction) :
  NoDup (chartLabels transactions).
Proof.
  unfold chartLabels; rewrite grouped_fold.
  destruct (reduce_keys (expenseTx transactions) []) as (Hnd & _);
    [constructor | exact Hnd].
Qed.

Lemma chartLabels_In (transactions : list Transaction) (c : jsstring) :
  In c (chartLabels transactions)
  <-> c <> js "__proto__"
      /\ exists t, In t transactions /\ is_Expense t = true
                   /\ Tx.category t = c.
Proof.
  unfold chartLabels; rewrite grouped_fold.
  destruct (reduce_keys (expenseTx transactions) []) as (_ & Hin);
    [constructor|].
  rewrite Hin; simpl; unfold expenseTx.
  rewrite in_map_iff; split.
  - intros [[] | (Hc & t & E & Ht)]; split; [exact Hc|].
    apply filter_In in Ht; exists t; tauto.
  - intros (Hc & t & Ht & He & E); right; split; [exact Hc|].
    exists t; split; [exact E | apply filter_In; tauto].
Qed.

(** X6.  The labels of the chart are the categories of the expense records,
    each once, for every record list; the category [__proto__] alone gets
    no label. *)
Theorem chartLabels_are_the_categories (transactions : list Transaction) :
  NoDup (chartLabels transactions)
  /\ forall c,
       In c (chartLabels transactions)
       <-> c <> js "__proto__"
           /\ exists t, In t transactions /\ is_Expense t = true
                        /\ Tx.category t = c.
Proof.
  split; [apply chartLabels_NoDup | intros c; apply chartLabels_In].
Qed.

(** X7.  Every label has a slice: the series is as long as the labels and holds
    no [undefined]. *)
Theorem chartSeries_defined (transactions : list Transaction) :
  List.length (chartSeries transactions)
  = List.length (chartLabels transactions)
  /\ Forall (fun v => v <> None) (chartSeries transactions).
Proof.
  unfold chartSeries; split; [apply length_map|].
  rewrite Forall_forall; intros v Hv.
  apply in_map_iff in Hv; destruct Hv as (k & <- & Hk).
  intros H; apply own_get_In in H; apply H; exact Hk.
Qed.

(** X8.  The chart is drawn when some expense has a category other than
    [__proto__], and the placeholder is shown otherwise: so also for a list
    of incomes only. *)
Theorem chart_visible_iff (transactions : list Transaction) :
  chart_visible transactions = true
  <-> exists t, In t transactions /\ is_Expense t = true
                /\ Tx.category t <> js "__proto__".
Proof.
  unfold chart_visible, chartSeries; rewrite length_map.
  pose proof (chartLabels_In transactions) as Hin.
  rewrite negb_true_iff, Nat.eqb_neq; split.
  - intros Hne; destruct (chartLabels transactions) as [|c l] eqn:E;
      [simpl in Hne; congruence|].
    destruct (proj1 (Hin c) (or_introl eq_refl)) as (Hc & t & Ht & He & Ec).
    exists t; subst c; auto.
  - intros (t & Ht & He & Hc) Hlen0.
    assert (Hl : In (Tx.category t) (chartLabels transactions)).
    { apply Hin; split; [exact Hc | exists t; auto]. }
    destruct (chartLabels transactions); [exact Hl | discriminate].
Qed.

(* ================================================================= *)
(** * Amounts that are not finite *)

Lemma parse_value_amount (f : nat) (a : number) (more : jsstring) :
  is_positive a = true ->
  parse_value (S f) (JSON_stringify (JNum a) ++ 44%N :: more)
  = Some (if PrimFloat.is_finite a then JNum a else JNull, 44%N :: more).
Proof.
  intros Hp; cbn [JSON_stringify].
  destruct (PrimFloat.is_finite a) eqn:Hf.
  - apply parse_value_number.
    + unfold is_positive_finite; rewrite Hp, Hf; reflexivity.
    + simpl; repeat split; discriminate.
  - reflexivity.
Qed.

Lemma parse_value_stored (f : nat) (t : Transaction) (rest : jsstring) :
  (6 <= f)%nat -> is_positive (Tx.amount t) = true ->
  parse_value (S f) (JSON_stringify (tx_json t) ++ rest)
  = Some (stored_json t, rest).
Proof.
  intros Hf Ha; rewrite tx_text, parse_value_object.
  do 6 (destruct f as [|f]; [lia|]).
  set (pv := parse_value (S (S (S (S (S (S f))))))).
  assert (Hstr : forall s more, pv (QuoteJSONString s ++ more)
                                = Some (JStr s, more)).
  { intros s more; apply parse_value_string. }
  assert (Hnum : forall more,
             pv (JSON_stringify (JNum (Tx.amount t)) ++ 44%N :: more)
             = Some (if PrimFloat.is_finite (Tx.amount t)
                     then JNum (Tx.amount t) else JNull, 44%N :: more)).
  { intros more; apply parse_value_amount; exact Ha. }
  rewrite (parse_members_comma pv _ _ _ _ _ _ (Hstr _ _)).
  rewrite (parse_members_comma pv _ _ _ _ _ _ (Hstr _ _)).
  rewrite (parse_members_comma pv _ _ _ _ _ _ (Hnum _)).
  rewrite (parse_members_comma pv _ _ _ _ _ _ (Hstr _ _)).
  rewrite (parse_members_comma pv _ _ _ _ _ _ (Hstr _ _)).
  rewrite (parse_members_brace pv _ _ _ _ _ _ (Hstr _ _)).
  reflexivity.
Qed.

Lemma parse_elements_stored (f : nat) (txs : list Transaction) :
  forall (fe : nat) (t : Transaction) (rest : jsstring),
    (6 <= f)%nat -> (List.length txs < fe)%nat ->
    Forall (fun t => is_positive (Tx.amount t) = true) (t :: txs) ->
    parse_elements (parse_value (S f)) fe
      (join_comma (map JSON_stringify (map tx_json (t :: txs)))
         ++ 93%N :: rest)
    = Some (map stored_json (t :: txs), rest).
Proof.
  induction txs as [|u txs IH]; intros fe t rest Hf Hfe Hall;
    (destruct fe as [|fe]; [simpl in Hfe; lia|]);
    inversion Hall as [|? ? Ht Hrest]; subst.
  - cbn [map join_comma parse_elements].
    rewrite (parse_value_stored f t (93%N :: rest) Hf Ht); reflexivity.
  - cbn [map]; rewrite join_comma_cons, <- app_assoc.
    change (map tx_json (u :: txs)) with (tx_json u :: map tx_json txs).
    cbn [parse_elements app].
    rewrite (parse_value_stored f t _ Hf Ht).
    cbn [skip_ws is_json_ws N.eqb Pos.eqb orb].
    change (JSON_stringify (tx_json u) :: map JSON_stringify (map tx_json txs))
      with (map JSON_stringify (map tx_json (u :: txs))).
    rewrite (IH fe u rest Hf); [reflexivity | simpl in Hfe; lia | exact Hrest].
Qed.

(** [JSON.parse] of the document [JSON.stringify] wrote, for amounts above
    zero, [Infinity] included. *)
Lemma JSON_parse_stored (txs : list Transaction) :
  Forall (fun t => is_positive (Tx.amount t) = true) txs ->
  JSON_parse (JSON_stringify (transactions_json txs))
  = Some (JArr (map stored_json txs)).
Proof.
  intros Hall; unfold JSON_parse, transactions_json.
  cbn [JSON_stringify].
  set (body := join_comma (map JSON_stringify (map tx_json txs))).
  destruct txs as [|t txs]; [reflexivity|].
  pose proof (join_comma_length (t :: txs)) as Hlen; fold body in Hlen.
  destruct (tx_text_head t) as (tb & Et & Htb).
  assert (Hbody : exists b, body = 123%N :: b /\ (6 <= List.length b)%nat).
  { unfold body; destruct txs as [|u txs].
    - cbn [map join_comma]; rewrite Et; eauto.
    - cbn [map]; rewrite join_comma_cons, Et; cbn [app].
      eexists; split; [reflexivity|]; rewrite length_app.
      eapply Nat.le_trans; [exact Htb | apply Nat.le_add_r]. }
  destruct Hbody as (b & Eb & Hb).
  cbn [app List.length]; rewrite length_app; cbn [List.length].
  remember (List.length body + 1)%nat as L eqn:EL.
  assert (HL : (7 <= L)%nat /\ (List.length txs < L)%nat).
  { rewrite EL; simpl in Hlen; rewrite Eb in *; simpl List.length in *.
    unfold code_unit in *; clear - Hlen Hb; lia. }
  rewrite parse_value_head by reflexivity; cbn [N.eqb Pos.eqb].
  rewrite Eb at 1; cbn [app skip_ws is_json_ws N.eqb Pos.eqb orb].
  assert (Hp : parse_elements (parse_value (S L)) (S L) (body ++ [93%N])
               = Some (map stored_json (t :: txs), [])).
  { apply (parse_elements_stored L txs (S L) t []);
      [clear - HL; lia | clear - HL; lia | exact Hall]. }
  rewrite Hp; reflexivity.
Qed.

Lemma as_transaction_stored (t : Transaction) :
  as_transaction (stored_json t)
  = if PrimFloat.is_finite (Tx.amount t) then Some t else None.
Proof.
  destruct t as [i d a c ty dt]; unfold stored_json; cbn [Tx.amount Tx.id
    Tx.description Tx.category Tx.type Tx.date].
  destruct (PrimFloat.is_finite a); destruct ty; reflexivity.
Qed.

Lemma as_transactions_stored (txs : list Transaction) :
  as_transactions (JArr (map stored_json txs))
  = if forallb (fun t => PrimFloat.is_finite (Tx.amount t)) txs
    then Some txs else None.
Proof.
  unfold as_transactions.
  induction txs as [|t txs IH]; [reflexivity|].
  cbn [map as_transaction_list forallb]; rewrite as_transaction_stored, IH.
  destruct (PrimFloat.is_finite (Tx.amount t)); [|reflexivity].
  destruct (forallb _ txs); reflexivity.
Qed.

(** X5.  Saving and loading a list whose amounts are above zero gives the list
    back exactly when every amount is finite: a record with the amount
    [Infinity] comes back with [null] for its amount. *)
Theorem reload_needs_finite_amounts (transactions : list Transaction)
    (ls : LocalStorage) :
  blocked ls = false ->
  Forall (fun t => is_positive (Tx.amount t) = true) transactions ->
  exists ls',
    save transactions ls = Normal ls'
    /\ load ls' = JArr (map stored_json transactions)
    /\ as_transactions (load ls')
       = if forallb (fun t => PrimFloat.is_finite (Tx.amount t)) transactions
         then Some transactions else None.
Proof.
  intros Hb Hall; unfold save, setItem; rewrite Hb.
  eexists; split; [reflexivity|].
  assert (Hload : load {| blocked := false;
                          items := store_item STORAGE_KEY
                                     (JSON_stringify
                                        (transactions_json transactions))
                                     (items ls) |}
                  = JArr (map stored_json transactions)).
  { unfold load, getItem; cbn [blocked items].
    rewrite lookup_store_item.
    destruct (JSON_stringify (transactions_json transactions)) eqn:E;
      [discriminate E|].
    rewrite <- E, (JSON_parse_stored transactions Hall); reflexivity. }
  rewrite Hload; split; [reflexivity | apply as_transactions_stored].
Qed.

Lemma reload_needs_finite_amounts_witness :
  exists ls',
    save [infinite_record] empty_storage = Normal ls'
    /\ load ls' = JArr (map stored_json [infinite_record])
    /\ as_transactions (load ls') = None.
Proof.
  apply (reload_needs_finite_amounts [infinite_record] empty_storage).
  - reflexivity.
  - repeat constructor.
Defined.

(* ================================================================= *)
(** * The component, event after event *)

Section Session.
(** A property of the component that the mount establishes and every
    handler keeps. *)
Variable P : Component -> Prop.
Hypothesis keeps : forall c e c', P c -> handle c e = Normal c' -> P c'.

Lemma run_events_keeps (events : list event) :
  forall c c', P c -> run_events events c = Normal c' -> P c'.
Proof.
  induction events as [|e events IH]; intros c c' Hc; cbn [run_events].
  - intros [= <-]; exact Hc.
  - destruct (handle c e) as [c1|] eqn:E; [|discriminate].
    apply IH, (keeps c e c1 Hc E).
Qed.
End Session.

(** What a commit leaves behind. *)
Lemma commit_spec (c c' : Component) (l : list Transaction) (f : Form)
    (time : number) :
  commit c l f time = Normal c' ->
  State.transactions c' = l /\ State.form c' = f
  /\ State.animator c' = rerender (State.transactions c) l time (State.animator c)
  /\ save l (State.storage c) = Normal (State.storage c').
Proof.
  unfold commit; destruct (save l (State.storage c)) as [ls|]; [|discriminate].
  intros [= <-]; auto.
Qed.

(** The list after an event is the list after the operation it stands
    for. *)
Lemma handle_transactions (c c' : Component) (e : event) :
  handle c e = Normal c' ->
  State.transactions c'
  = match operation_of (State.form c) e with
    | Some op => apply_operation (State.transactions c) op
    | None => State.transactions c
    end.
Proof.
  destruct e; cbn [handle operation_of apply_operation];
    try (intros [= <-]; reflexivity).
  - destruct (addTransaction now today (State.form c) (State.transactions c))
      as [msg | l' f'] eqn:E; [intros [= <-]; reflexivity|].
    intros H; apply commit_spec in H; tauto.
  - intros H; apply commit_spec in H; tauto.
Qed.

Lemma save_getItem (l : list Transaction) (ls ls' : LocalStorage) :
  save l ls = Normal ls' ->
  getItem ls' STORAGE_KEY = Normal (Some (JSON_stringify (transactions_json l))).
Proof.
  unfold save, setItem, getItem; destruct (blocked ls); [discriminate|].
  intros [= <-]; cbn [blocked items]; rewrite lookup_store_item; reflexivity.
Qed.

Lemma getItem_load (l : list Transaction) (ls : LocalStorage) :
  getItem ls STORAGE_KEY = Normal (Some (JSON_stringify (transactions_json l))) ->
  Forall (fun t => is_positive_finite (Tx.amount t) = true) l ->
  load ls = transactions_json l.
Proof.
  intros Hg Hall; unfold load; rewrite Hg.
  destruct (JSON_stringify (transactions_json l)) eqn:E; [discriminate E|].
  rewrite <- E, (JSON_parse_stringify l Hall); reflexivity.
Qed.

(** X9.  After the mount and after every event, the storage holds the text of
    the current list; and when the amounts of the list are finite, the
    initialiser of the next visit reads that very list. *)
Theorem storage_follows_the_list
    (transactions0 : list Transaction) (today : jsstring) (time : number)
    (ls : LocalStorage) (events : list event) (c0 c : Component) :
  mount_component transactions0 today time ls = Normal c0 ->
  run_events events c0 = Normal c ->
  getItem (State.storage c) STORAGE_KEY
  = Normal (Some (JSON_stringify (transactions_json (State.transactions c))))
  /\ (Forall (fun t => is_positive_finite (Tx.amount t) = true)
        (State.transactions c) ->
      load (State.storage c) = transactions_json (State.transactions c)).
Proof.
  intros Hm Hr.
  set (P := fun c : Component =>
              getItem (State.storage c) STORAGE_KEY
              = Normal (Some (JSON_stringify
                                (transactions_json (State.transactions c))))).
  assert (HP : P c).
  { apply (run_events_keeps P) with (events := events) (c := c0);
      [| |exact Hr].
    - clear; intros c e c' Hc He; unfold P in *.
      destruct e as [v|v|v|v|v|now day tm|id tm|tm]; cbn [handle] in He;
        try (injection He as <-; exact Hc).
      + destruct (addTransaction now day (State.form c) (State.transactions c))
          as [msg | l' f'] eqn:E; [injection He as <-; exact Hc|].
        apply commit_spec in He; destruct He as (-> & _ & _ & Hs).
        apply (save_getItem _ _ _ Hs).
      + apply commit_spec in He; destruct He as (-> & _ & _ & Hs).
        apply (save_getItem _ _ _ Hs).
    - unfold P, mount_component in *.
      destruct (save transactions0 ls) as [ls'|] eqn:Hs; [|discriminate].
      injection Hm as <-; cbn [State.storage State.transactions].
      apply (save_getItem _ _ _ Hs). }
  split; [exact HP | apply getItem_load; exact HP].
Qed.

Lemma storage_follows_the_list_witness :
  exists c0 c,
    mount_component [] (js "2024-01-01") 0%float empty_storage = Normal c0
    /\ run_events coffee_visit c0 = Normal c
    /\ map Tx.description (State.transactions c) = [js "Paycheck"]
    /\ load (State.storage c) = transactions_json (State.transactions c).
Proof.
  eexists; eexists; split; [vm_compute; reflexivity|].
  split; [vm_compute; reflexivity|].
  split; [vm_compute; reflexivity|].
  refine (proj2 (storage_follows_the_list [] (js "2024-01-01") 0%float
                   empty_storage coffee_visit _ _ _ _) _).
  - vm_compute; reflexivity.
  - vm_compute; reflexivity.
  - repeat constructor.
Defined.

Lemma rerender_heading (previous l : list Transaction) (time : number)
    (a : Animator) :
  heading a = balance previous ->
  heading (rerender previous l time a) = balance l.
Proof.
  intros H; unfold rerender.
  destruct (Object_is (balance previous) (balance l)) eqn:E.
  - apply FloatAxioms.Leibniz.eqb_spec in E; congruence.
  - reflexivity.
Qed.

Lemma frame_heading (time : number) (a : Animator) :
  heading (frame time a) = heading a.
Proof.
  unfold frame, heading; destruct (raf a) as [r|] eqn:E; [|rewrite E; reflexivity].
  unfold step; destruct (_ <? _)%float; reflexivity.
Qed.

(** X10.  After the mount and after every event, the count-up is heading to the
    balance of the current list, or resting at it. *)
Theorem animator_heads_to_the_balance
    (transactions0 : list Transaction) (today : jsstring) (time : number)
    (ls : LocalStorage) (events : list event) (c0 c : Component) :
  mount_component transactions0 today time ls = Normal c0 ->
  run_events events c0 = Normal c ->
  heading (State.animator c) = balance (State.transactions c).
Proof.
  intros Hm Hr.
  apply (run_events_keeps
           (fun c => heading (State.animator c) = balance (State.transactions c)))
    with (events := events) (c := c0); [| |exact Hr].
  - clear; intros c e c' Hc He.
    destruct e as [v|v|v|v|v|now day tm|id tm|tm]; cbn [handle] in He;
      try (injection He as <-; exact Hc).
    + destruct (addTransaction now day (State.form c) (State.transactions c))
        as [msg | l' f'] eqn:E; [injection He as <-; exact Hc|].
      apply commit_spec in He; destruct He as (-> & _ & -> & _).
      apply rerender_heading; exact Hc.
    + apply commit_spec in He; destruct He as (-> & _ & -> & _).
      apply rerender_heading; exact Hc.
    + injection He as <-; cbn [State.animator State.transactions].
      rewrite frame_heading; exact Hc.
  - unfold mount_component in Hm.
    destruct (save transactions0 ls) as [ls'|]; [|discriminate].
    injection Hm as <-; reflexivity.
Qed.

Lemma animator_heads_to_the_balance_witness :
  exists c0 c,
    mount_component [] (js "2024-01-01") 0%float empty_storage = Normal c0
    /\ run_events coffee_visit c0 = Normal c
    /\ balance (State.transactions c) = 1000%float
    /\ heading (State.animator c) = balance (State.transactions c).
Proof.
  eexists; eexists; split; [vm_compute; reflexivity|].
  split; [vm_compute; reflexivity|].
  split; [vm_compute; reflexivity|].
  refine (animator_heads_to_the_balance [] (js "2024-01-01") 0%float
            empty_storage coffee_visit _ _ _ _).
  - vm_compute; reflexivity.
  - vm_compute; reflexivity.
Defined.

(** X11.  With the storage refused, the initialiser falls back on the empty list,
    and the persist effect of the first render throws. *)
Theorem blocked_storage_stops_the_mount (ls : LocalStorage)
    (today : jsstring) (time : number) :
  blocked ls = true ->
  load ls = JArr []
  /\ as_transactions (load ls) = Some []
  /\ mount_component [] today time ls = Throws.
Proof.
  intros Hb; unfold load, mount_component, save, setItem, getItem.
  rewrite Hb; auto.
Qed.

Lemma blocked_storage_stops_the_mount_witness :
  load blocked_storage = JArr []
  /\ as_transactions (load blocked_storage) = Some []
  /\ mount_component [] (js "2024-01-01") 0%float blocked_storage = Throws.
Proof.
  apply (blocked_storage_stops_the_mount blocked_storage); reflexivity.
Defined.

Section Visit.
(** The same, for the events that satisfy [allowed]. *)
Variable allowed : event -> Prop.
Variable P : Component -> Prop.
Hypothesis keeps :
  forall c e c', allowed e -> P c -> handle c e = Normal c' -> P c'.

Lemma run_allowed_events_keeps (events : list event) :
  forall c c',
    Forall allowed events -> P c -> run_events events c = Normal c' -> P c'.
Proof.
  induction events as [|e events IH]; intros c c' Hall Hc; cbn [run_events].
  - intros [= <-]; exact Hc.
  - inversion Hall as [|? ? He Hrest]; subst.
    destruct (handle c e) as [c1|] eqn:E; [|discriminate].
    apply IH; [exact Hrest | apply (keeps c e c1 He Hc E)].
Qed.
End Visit.

Lemma sampleCategories_plain :
  forall c, In c sampleCategories -> plain_key c = true /\ c <> [].
Proof.
  intros c Hc; unfold sampleCategories in Hc; simpl in Hc.
  repeat (destruct Hc as [<- | Hc]; [split; [reflexivity | discriminate]|]).
  destruct Hc.
Qed.

(** The records of a visit: their category is one of the select's options
    and their amount is above zero, when that holds for the list the visit
    started with and the events come from the page's controls. *)
Lemma visit_records
    (transactions0 : list Transaction) (today : jsstring) (time : number)
    (ls : LocalStorage) (events : list event) (c0 c : Component) :
  mount_component transactions0 today time ls = Normal c0 ->
  Forall (fun t => In (Tx.category t) sampleCategories
                   /\ is_positive (Tx.amount t) = true) transactions0 ->
  Forall from_controls events ->
  run_events events c0 = Normal c ->
  Forall (fun t => In (Tx.category t) sampleCategories
                   /\ is_positive (Tx.amount t) = true) (State.transactions c).
Proof.
  intros Hm H0 Hev Hr.
  set (good := fun t => In (Tx.category t) sampleCategories
                        /\ is_positive (Tx.amount t) = true).
  set (Q := fun c : Component =>
              In (category (State.form c)) sampleCategories
              /\ Forall good (State.transactions c)).
  assert (HQ : Q c).
  { apply (run_allowed_events_keeps from_controls Q)
      with (events := events) (c := c0); [|exact Hev| |exact Hr].
    - clear; intros c e c' Hall (Hf & Hl) He; unfold Q.
      destruct e as [v|v|v|v|v|now day tm|id tm|tm]; cbn [handle] in He;
        try (injection He as <-;
             cbn [with_form State.form State.transactions category];
             split; assumption).
      + destruct (addTransaction now day (State.form c) (State.transactions c))
          as [msg | l' f'] eqn:E; [injection He as <-; split; assumption|].
        apply commit_spec in He; destruct He as (-> & -> & _ & _).
        destruct (addTransaction_kept _ _ _ _ _ _ E) as (t & -> & Hp & _).
        unfold addTransaction in E.
        destruct (_ || _); [discriminate|].
        cbv zeta in E; injection E as <- <-; cbn [category]; split.
        * unfold sampleCategories; simpl; tauto.
        * constructor; [|exact Hl]. split; [|exact Hp].
          cbn [Tx.category].
          destruct (sampleCategories_plain _ Hf) as (_ & Hne).
          destruct (category (State.form c)); [congruence | exact Hf].
      + apply commit_spec in He; destruct He as (-> & -> & _ & _).
        split; [exact Hf|].
        rewrite Forall_forall in *; intros t Ht.
        apply deleteTx_In in Ht; apply Hl; tauto.
    - unfold Q, mount_component in *.
      destruct (save transactions0 ls) as [ls'|]; [|discriminate].
      injection Hm as <-; cbn [State.form State.transactions initial_form category].
      split; [unfold sampleCategories; simpl; tauto | exact H0]. }
  exact (proj2 HQ).
Qed.

(** X12.  On the page, the chart needs no condition on the records: in a visit
    that starts from a list with categories of the select and amounts above
    zero (the empty list, for one), and whose category changes come from
    the select, the labels are the categories in the order the expenses
    first show them, and each slice is the sum of its amounts. *)
Theorem chart_of_a_visit
    (transactions0 : list Transaction) (today : jsstring) (time : number)
    (ls : LocalStorage) (events : list event) (c0 c : Component) :
  mount_component transactions0 today time ls = Normal c0 ->
  Forall (fun t => In (Tx.category t) sampleCategories
                   /\ is_positive (Tx.amount t) = true) transactions0 ->
  Forall from_controls events ->
  run_events events c0 = Normal c ->
  let l := State.transactions c in
  chartLabels l = first_seen [] (map Tx.category (expenseTx l))
  /\ chartSeries l
     = map (fun k => option_map Sum (category_sum k l)) (chartLabels l)
  /\ incl (chartLabels l) sampleCategories.
Proof.
  intros Hm H0 Hev Hr l.
  pose proof (visit_records _ _ _ _ _ _ _ Hm H0 Hev Hr) as Hl; fold l in Hl.
  assert (Hp : Forall (fun t => plain_key (Tx.category t) = true) (expenseTx l)).
  { rewrite Forall_forall in *; intros t Ht.
    apply filter_In in Ht; destruct Ht as (Ht & _).
    apply sampleCategories_plain, Hl, Ht. }
  assert (Hpos : Forall (fun t => is_positive (Tx.amount t) = true) (expenseTx l)).
  { rewrite Forall_forall in *; intros t Ht.
    apply filter_In in Ht; destruct Ht as (Ht & _). apply Hl, Ht. }
  destruct (grouped_plain_keys l Hp) as (Hkeys & _ & Hseries).
  split; [exact Hkeys | split].
  - rewrite Hseries; apply map_ext; intros k.
    rewrite (category_total_sum k l Hpos); reflexivity.
  - intros k Hk.
    apply chartLabels_In in Hk; destruct Hk as (_ & t & Ht & _ & <-).
    rewrite Forall_forall in Hl; apply Hl, Ht.
Qed.

Lemma chart_of_a_visit_witness :
  exists c0 c,
    mount_component [] (js "2024-01-01") 0%float empty_storage = Normal c0
    /\ run_events lunch_visit c0 = Normal c
    /\ chartLabels (State.transactions c) = [js "Food"; js "Bills"]
    /\ chartSeries (State.transactions c)
       = [Some (Sum 15%float); Some (Sum 950%float)]
    /\ incl (chartLabels (State.transactions c)) sampleCategories.
Proof.
  eexists; eexists; split; [vm_compute; reflexivity|].
  split; [vm_compute; reflexivity|].
  split; [vm_compute; reflexivity|].
  split; [vm_compute; reflexivity|].
  refine (proj2 (proj2 (chart_of_a_visit [] (js "2024-01-01") 0%float
                          empty_storage lunch_visit _ _ _ _ _ _))).
  - vm_compute; reflexivity.
  - constructor.
  - repeat constructor; vm_compute; tauto.
  - vm_compute; reflexivity.
Defined.

(* ================================================================= *)
(** * The end of a run *)

(** The sign of the result of a rounding is the sign it is given. *)
Lemma binary_round_aux_sign (s : bool) (q e : Z) (l : location) :
  binary_round_aux prec emax s q e l
  = match binary_round_aux prec emax false q e l with
    | S754_zero _ => S754_zero s
    | S754_infinity _ => S754_infinity s
    | S754_nan => S754_nan
    | S754_finite _ m' e' => S754_finite s m' e'
    end.
Proof.
  unfold binary_round_aux.
  destruct (shr_fexp prec emax q e l) as (mrs, e1).
  destruct (shr_fexp prec emax _ e1 loc_Exact) as (mrs', e2).
  destruct (shr_m mrs'); try reflexivity.
  destruct (e2 <=? emax - prec)%Z; reflexivity.
Qed.

(** A mantissa with [k] zero bits under it is rounded to itself. *)
Lemma binary_round_aux_shifted (s : bool) (m : positive) (e k : Z) :
  bounded prec emax m e = true -> (0 <= k)%Z ->
  binary_round_aux prec emax s (Zpos m * 2 ^ k) (e - k) loc_Exact
  = S754_finite s m e.
Proof.
  intros Hb Hk; rewrite binary_round_aux_sign.
  destruct (bounded_spec m e Hb) as (Hc & _).
  assert (Pk : (0 < 2 ^ k)%Z) by (apply Z.pow_pos_nonneg; lia).
  rewrite (binary_round_aux_located (Zpos m * 2 ^ k) (e - k) loc_Exact
             (2 * (Zpos m * 2 ^ k)) 1 m e); try reflexivity; try lia.
  - unfold located; cbn [shr_record_of_loc shr_m shr_r shr_s Z.b2z].
    rewrite Z.div_1_r, Z.mod_1_r; split; [lia | reflexivity].
  - exact Hb.
  - pose proof (Zdigits2_bounds (Zpos m) ltac:(lia)) as (B1 & B2).
    assert (Hd : Zdigits2 (Zpos m * 2 ^ k) = (Zdigits2 (Zpos m) + k)%Z).
    { apply Zdigits2_unique; [|lia].
      replace (Zdigits2 (Zpos m) + k - 1)%Z
        with (Zdigits2 (Zpos m) - 1 + k)%Z by lia.
      assert (1 <= Zdigits2 (Zpos m))%Z by (simpl; lia).
      rewrite !Z.pow_add_r by lia. nia. }
    rewrite Hd. cbn [Zdigits2].
    replace (Zpos (digits2_pos m) + k + (e - k))%Z
      with (Zpos (digits2_pos m) + e)%Z by lia.
    rewrite Hc; lia.
  - left. replace (e - (e - k))%Z with k by lia.
    rewrite Z.mul_1_r, Z.mul_assoc, Z.div_mul by lia. reflexivity.
Qed.

(** Multiplying by one changes nothing. *)
Lemma mul_one (x : number) : (x * 1)%float = x.
Proof.
  apply FloatAxioms.Prim2SF_inj; rewrite FloatAxioms.mul_spec.
  change (Prim2SF 1%float) with (S754_finite false 4503599627370496 (-52)).
  pose proof (FloatAxioms.Prim2SF_valid x) as V.
  unfold FloatAxioms.SF64mul.
  destruct (Prim2SF x) as [s|s| |s m e]; cbn [SFmul xorb];
    rewrite ?xorb_false_r; try reflexivity.
  cbn [valid_binary] in V.
  rewrite Pos2Z.inj_mul.
  change (Zpos 4503599627370496) with (2 ^ 52)%Z.
  change (e + -52)%Z with (e - 52)%Z.
  apply binary_round_aux_shifted; [exact V | lia].
Qed.




(** Comparing as equal is being equal, for two numbers that are not zero. *)
Lemma SFcompare_Eq (x y : spec_float) :
  SFcompare x y = Some Eq ->
  match x, y with
  | S754_zero _, S754_zero _ => True
  | _, _ => x = y
  end.
Proof.
  destruct x as [sx|sx| |sx mx ex], y as [sy|sy| |sy my ey]; cbn [SFcompare];
    try discriminate; try (intros _; exact I);
    try (destruct sx, sy; discriminate);
    try (destruct sx; discriminate); try (destruct sy; discriminate).
  - destruct sx, sy; try discriminate; reflexivity.
  - destruct sx, sy; try discriminate;
      destruct (Z.compare_spec ex ey) as [Ee|Ee|Ee]; try discriminate;
      subst ey; intros H; f_equal; apply Pos.compare_eq; unfold Pos.compare;
      destruct (Pos.compare_cont Eq mx my); simpl in H;
      try reflexivity; discriminate.
Qed.

(** [Math.min(1, q)] is 1 when [1 <= q]. *)
Lemma Math_min_one (q : number) :
  (1 <=? q)%float = true -> Math_min 1%float q = 1%float.
Proof.
  intros Hle; unfold Math_min.
  pose proof Hle as H; rewrite FloatAxioms.leb_spec in H.
  change (Prim2SF 1%float) with (S754_finite false 4503599627370496 (-52)) in H.
  assert (Hnan : PrimFloat.is_nan q = false).
  { unfold PrimFloat.is_nan; rewrite FloatAxioms.eqb_spec.
    unfold SFleb, SFeqb in *.
    destruct (Prim2SF q) as [[]|[]| |[] m e]; try discriminate; try reflexivity;
      cbn [SFcompare] in *; rewrite Z.compare_refl, Pos.compare_cont_refl;
      reflexivity. }
  change (PrimFloat.is_nan 1%float) with false; rewrite Hnan; cbn [orb].
  destruct (1 <? q)%float eqn:Hlt; [reflexivity|].
  rewrite FloatAxioms.ltb_spec in Hlt.
  change (Prim2SF 1%float) with (S754_finite false 4503599627370496 (-52)) in Hlt.
  assert (Heq : SFcompare (S754_finite false 4503599627370496 (-52)) (Prim2SF q)
                = Some Eq).
  { unfold SFleb, SFltb in *.
    destruct (SFcompare _ (Prim2SF q)) as [[]|]; try discriminate; reflexivity. }
  apply SFcompare_Eq in Heq.
  assert (Eq1 : q = 1%float).
  { apply FloatAxioms.Prim2SF_inj.
    change (Prim2SF 1%float) with (S754_finite false 4503599627370496 (-52)).
    symmetry; exact Heq. }
  rewrite Eq1; reflexivity.
Qed.

Lemma frames_idle (nows : list number) (a : Animator) :
  raf a = None -> frames nows a = a.
Proof.
  intros H; unfold frames; induction nows as [|now nows IH]; [reflexivity|].
  cbn [fold_left]; unfold frame at 2; rewrite H; exact IH.
Qed.

Lemma last_frame (a : Animator) (r : Run) (now : number) :
  raf a = Some r ->
  (1 <=? (now - start r) / duration)%float = true ->
  frame now a
  = {| displayBalance :=
         Number_of_string (toFixed (from r + (to r - from r))%float 2);
       prevBalanceRef := to r;
       raf := None |}.
Proof.
  intros Hraf Hq.
  unfold frame; rewrite Hraf; unfold step, frame_value.
  rewrite (Math_min_one _ Hq).
  change (1 <? 1)%float with false.
  change (1 - Math_pow3 (1 - 1))%float with 1%float.
  rewrite mul_one; reflexivity.
Qed.

(** X13.  The frame that comes when the duration has passed ends the run: it
    shows [from + (to - from)] rounded to two decimals, records the target
    and asks for no further frame, so that later frames change nothing. *)
Theorem run_ends (a : Animator) (r : Run) (now : number)
    (nows : list number) :
  raf a = Some r ->
  (1 <=? (now - start r) / duration)%float = true ->
  displayBalance (frame now a)
  = Number_of_string (toFixed (from r + (to r - from r))%float 2)
  /\ prevBalanceRef (frame now a) = to r
  /\ raf (frame now a) = None
  /\ frames nows (frame now a) = frame now a.
Proof.
  intros Hraf Hq.
  rewrite (last_frame a r now Hraf Hq); cbn [displayBalance prevBalanceRef raf].
  repeat split; apply frames_idle; reflexivity.
Qed.

Lemma run_ends_witness :
  displayBalance (frame 1550%float running_to_100) = 100%float
  /\ prevBalanceRef (frame 1550%float running_to_100) = 100%float
  /\ raf (frame 1550%float running_to_100) = None
  /\ frames [1600; 1700]%float (frame 1550%float running_to_100)
     = frame 1550%float running_to_100.
Proof.
  destruct (run_ends running_to_100
              {| from := 500%float; to := 100%float; start := 1000%float |}
              1550%float [1600; 1700]%float) as (H1 & H2 & H3 & H4);
    [vm_compute; reflexivity | vm_compute; reflexivity |].
  split; [rewrite H1; vm_compute; reflexivity|].
  split; [exact H2 | split; [exact H3 | exact H4]].
Defined.



(* ================================================================= *)
(** * Whole amounts *)

Lemma Zdigits2_mul_pow2 (z j : Z) :
  (0 < z)%Z -> (0 <= j)%Z -> Zdigits2 (z * 2 ^ j) = (Zdigits2 z + j)%Z.
Proof.
  intros Hz Hj.
  pose proof (Zdigits2_bounds z Hz) as (B1 & B2).
  assert (Pj : (0 < 2 ^ j)%Z) by (apply Z.pow_pos_nonneg; lia).
  assert (Hd : (1 <= Zdigits2 z)%Z) by (destruct z; simpl; lia).
  apply Zdigits2_unique; [|nia].
  replace (Zdigits2 z + j - 1)%Z with (Zdigits2 z - 1 + j)%Z by lia.
  rewrite !Z.pow_add_r by lia. nia.
Qed.

(** The mantissa and exponent of a whole number are those of a
    binary64 and give its value. *)
Lemma whole_canonical (n : Z) :
  (0 < n <= 2 ^ 53)%Z ->
  bounded prec emax (whole_mantissa n) (whole_exponent n) = true
  /\ (-52 <= whole_exponent n <= 1)%Z
  /\ (Zpos (whole_mantissa n) * 2 ^ (whole_exponent n + 52) = n * 2 ^ 52)%Z.
Proof.
  intros Hn.
  pose proof (Zdigits2_bounds n ltac:(lia)) as (B1 & B2).
  assert (Hd : (1 <= Zdigits2 n <= 54)%Z).
  { split; [destruct n; simpl; lia|].
    destruct (Z.le_gt_cases (Zdigits2 n) 54) as [|G]; [assumption|].
    assert (2 ^ 54 <= 2 ^ (Zdigits2 n - 1))%Z by (apply Z.pow_le_mono_r; lia).
    lia. }
  unfold whole_mantissa, whole_exponent.
  set (E := (Zdigits2 n - 53)%Z).
  destruct (Z.leb_spec 0 E) as [HE | HE].
  - (* 53 or 54 digits *)
    assert (Hcases : E = 0%Z \/ (E = 1%Z /\ n = (2 ^ 53)%Z)).
    { destruct (Z.eq_dec E 0) as [|Hne]; [left; assumption | right].
      assert (E1 : E = 1%Z) by (unfold E in *; lia).
      split; [exact E1|].
      replace (Zdigits2 n - 1)%Z with 53%Z in B1 by (unfold E in *; lia). lia. }
    destruct Hcases as [E0 | (E1 & En)].
    + rewrite E0, Z.pow_0_r, Z.div_1_r.
      replace (Zdigits2 n) with 53%Z in * by (unfold E in *; lia).
      repeat split; try lia.
      unfold bounded, canonical_mantissa.
      apply andb_true_iff; split; [|reflexivity].
      apply Z.eqb_eq.
      assert (Hdm : Zpos (digits2_pos (Z.to_pos n)) = 53%Z).
      { change (Zpos (digits2_pos (Z.to_pos n)))
          with (Zdigits2 (Zpos (Z.to_pos n))).
        rewrite Z2Pos.id by lia. apply Zdigits2_unique; lia. }
      rewrite Hdm; reflexivity.
    + rewrite E1, En. repeat split; try lia; reflexivity.
  - (* fewer than 53 digits *)
    assert (Pk : (0 < 2 ^ (- E))%Z) by (apply Z.pow_pos_nonneg; lia).
    assert (Hm : (0 < n * 2 ^ (- E))%Z) by nia.
    assert (Hdm : Zpos (digits2_pos (Z.to_pos (n * 2 ^ (- E)))) = 53%Z).
    { change (Zpos (digits2_pos (Z.to_pos (n * 2 ^ (- E)))))
        with (Zdigits2 (Zpos (Z.to_pos (n * 2 ^ (- E))))).
      rewrite Z2Pos.id by lia.
      rewrite Zdigits2_mul_pow2 by lia. unfold E; lia. }
    repeat split; try (unfold E in *; lia).
    + unfold bounded, canonical_mantissa.
      apply andb_true_iff; split.
      * apply Z.eqb_eq; rewrite Hdm.
        unfold fexp, SpecFloat.emin, prec, emax. unfold E in *; lia.
      * apply Z.leb_le; unfold prec, emax; unfold E in *; lia.
    + rewrite Z2Pos.id by lia.
      rewrite <- Z.mul_assoc, <- Z.pow_add_r by (unfold E in *; lia).
      f_equal; f_equal; lia.
Qed.

(** The Number value of a whole number from 1 to [2^53] is exact. *)
Lemma whole_spec (n : Z) :
  (0 < n <= 2 ^ 53)%Z ->
  Prim2SF (whole n)
  = S754_finite false (whole_mantissa n) (whole_exponent n).
Proof.
  intros Hn.
  destruct (whole_canonical n Hn) as (B & HE & V).
  unfold whole, of_decimal.
  change (0 <=? 0)%Z with true. cbv iota.
  rewrite Z.pow_0_r, Z.mul_1_r.
  assert (EQ : (inject_Z (Zpos (whole_mantissa n)) * 2 ^ whole_exponent n
                == inject_Z n / inject_Z 1)%Q).
  { assert (P52 : ~ (2 ^ 52 == 0)%Q) by (vm_compute; discriminate).
    assert (VQ : (inject_Z (Zpos (whole_mantissa n))
                  * (2 ^ whole_exponent n * 2 ^ 52)
                  == inject_Z n * 2 ^ 52)%Q).
    { rewrite <- Qpower_plus by (intros C; discriminate C).
      change 2%Q with (inject_Z 2).
      rewrite <- !Zpower_Qpower by lia.
      rewrite <- !inject_Z_mult. rewrite V. reflexivity. }
    change (inject_Z 1) with 1%Q. field_simplify_eq.
    apply (Qmult_inj_r _ _ (2 ^ 52)%Q P52).
    rewrite <- VQ. ring. }
  rewrite (round_ratio_above n 1 (whole_mantissa n) (whole_exponent n));
    [| lia | lia | exact B | rewrite EQ; apply Qle_refl |].
  - apply Prim2SF_SF2Prim. exact B.
  - rewrite <- EQ.
    assert (P : (0 < 2 ^ whole_exponent n)%Q).
    { apply Qpower_0_lt. reflexivity. }
    nra.
Qed.

Lemma whole_signed_spec (c : Z) :
  (c <> 0)%Z -> (Z.abs c <= 2 ^ 53)%Z ->
  Prim2SF (whole_signed c)
  = S754_finite (c <? 0)%Z (whole_mantissa (Z.abs c))
      (whole_exponent (Z.abs c)).
Proof.
  intros Hc Hb. destruct c as [|p|p]; [congruence | |].
  - apply whole_spec. lia.
  - unfold whole_signed. rewrite opp_spec.
    rewrite whole_spec by lia. reflexivity.
Qed.

Lemma iter_xO (m d : positive) :
  Zpos (Pos.iter xO m d) = (Zpos m * 2 ^ Zpos d)%Z.
Proof.
  induction d as [|d IH] using Pos.peano_ind.
  - cbn [Pos.iter]. rewrite Z.pow_1_r. lia.
  - rewrite Pos.iter_succ, Pos2Z.inj_succ, Z.pow_succ_r by lia.
    rewrite Pos2Z.inj_xO, IH. ring.
Qed.

(** Aligning a mantissa to a smaller exponent shifts it left. *)
Lemma shl_align_spec (m : positive) (e e' : Z) :
  (e' <= e)%Z ->
  shl_align m e e' = (Z.to_pos (Zpos m * 2 ^ (e - e')), e')
  /\ (0 < Zpos m * 2 ^ (e - e'))%Z.
Proof.
  intros H. unfold shl_align.
  assert (P : (0 < 2 ^ (e - e'))%Z) by (apply Z.pow_pos_nonneg; lia).
  split; [|lia].
  destruct (e' - e)%Z as [|d|d] eqn:D; try lia.
  - replace (e - e')%Z with 0%Z by lia.
    rewrite Z.pow_0_r, Z.mul_1_r. simpl. f_equal. lia.
  - replace (e - e')%Z with (Zpos d) by lia.
    rewrite <- iter_xO. reflexivity.
Qed.

(** Rounding a number that a binary64 holds gives that binary64. *)
Lemma binary_round_exact (s : bool) (z m : positive) (ez e k : Z) :
  bounded prec emax m e = true ->
  (0 <= ez + k)%Z -> (0 <= e + k)%Z ->
  (Zpos z * 2 ^ (ez + k) = Zpos m * 2 ^ (e + k))%Z ->
  binary_round prec emax s z ez = S754_finite s m e.
Proof.
  intros B Hz He V.
  assert (Hmag : (Zpos (digits2_pos z) + ez = Zpos (digits2_pos m) + e)%Z).
  { change (Zpos (digits2_pos z)) with (Zdigits2 (Zpos z)).
    change (Zpos (digits2_pos m)) with (Zdigits2 (Zpos m)).
    pose proof (Zdigits2_mul_pow2 (Zpos z) (ez + k) ltac:(lia) Hz) as D1.
    pose proof (Zdigits2_mul_pow2 (Zpos m) (e + k) ltac:(lia) He) as D2.
    rewrite V in D1. lia. }
  assert (Hfe : fexp prec emax (Zpos (digits2_pos z) + ez) = e).
  { rewrite Hmag. unfold bounded, canonical_mantissa in B.
    apply andb_true_iff in B. destruct B as (B & _).
    apply Z.eqb_eq in B. exact B. }
  unfold binary_round. rewrite Hfe.
  destruct (Z.le_gt_cases e ez) as [L | G].
  - destruct (shl_align_spec z ez e L) as (-> & P).
    rewrite Z2Pos.id by exact P.
    assert (EQ : (Zpos z * 2 ^ (ez - e) = Zpos m)%Z).
    { assert (Pk : (0 < 2 ^ (e + k))%Z) by (apply Z.pow_pos_nonneg; lia).
      replace (ez + k)%Z with ((ez - e) + (e + k))%Z in V by lia.
      rewrite (Z.pow_add_r 2 (ez - e) (e + k)) in V by lia.
      rewrite Z.mul_assoc in V.
      apply Z.mul_reg_r in V; [exact V | lia]. }
    rewrite EQ.
    pose proof (binary_round_aux_shifted s m e 0 B ltac:(lia)) as R.
    rewrite Z.pow_0_r, Z.mul_1_r, Z.sub_0_r in R. exact R.
  - unfold shl_align.
    destruct (e - ez)%Z as [|d|d] eqn:D; try lia.
    assert (EQ : (Zpos z = Zpos m * 2 ^ (e - ez))%Z).
    { assert (Pk : (0 < 2 ^ (ez + k))%Z) by (apply Z.pow_pos_nonneg; lia).
      replace (e + k)%Z with ((e - ez) + (ez + k))%Z in V by lia.
      rewrite (Z.pow_add_r 2 (e - ez) (ez + k)) in V by lia.
      rewrite Z.mul_assoc in V.
      apply Z.mul_reg_r in V; [exact V | lia]. }
    rewrite EQ.
    pose proof (binary_round_aux_shifted s m e (e - ez) B ltac:(lia)) as R.
    replace (e - (e - ez))%Z with ez in R by lia. exact R.
Qed.

(** Adding two whole numbers is exact while the sum stays within
    [2^53]. *)
Lemma whole_signed_add (a b : Z) :
  (Z.abs a <= 2 ^ 53)%Z -> (Z.abs b <= 2 ^ 53)%Z ->
  (Z.abs (a + b) <= 2 ^ 53)%Z ->
  (whole_signed a + whole_signed b)%float = whole_signed (a + b).
Proof.
  intros Ha Hb Hc.
  apply FloatAxioms.Prim2SF_inj; rewrite FloatAxioms.add_spec.
  destruct (Z.eq_dec a 0) as [-> | Na].
  { change (Prim2SF (whole_signed 0)) with (S754_zero false).
    rewrite Z.add_0_l.
    destruct (Z.eq_dec b 0) as [-> | Nb]; [reflexivity|].
    rewrite (whole_signed_spec b Nb Hb). reflexivity. }
  destruct (Z.eq_dec b 0) as [-> | Nb].
  { change (Prim2SF (whole_signed 0)) with (S754_zero false).
    rewrite Z.add_0_r.
    rewrite (whole_signed_spec a Na Ha). reflexivity. }
  rewrite (whole_signed_spec a Na Ha), (whole_signed_spec b Nb Hb).
  destruct (whole_canonical (Z.abs a) ltac:(lia)) as (Ba & HEa & Va).
  destruct (whole_canonical (Z.abs b) ltac:(lia)) as (Bb & HEb & Vb).
  remember (whole_mantissa (Z.abs a)) as ma eqn:Rma.
  remember (whole_exponent (Z.abs a)) as ea eqn:Rea.
  remember (whole_mantissa (Z.abs b)) as mb eqn:Rmb.
  remember (whole_exponent (Z.abs b)) as eb eqn:Reb.
  clear Rma Rea Rmb Reb.
  unfold FloatAxioms.SF64add; cbn [SFadd]; cbv zeta.
  remember (Z.min ea eb) as ez eqn:Rez.
  destruct (shl_align_spec ma ea ez ltac:(lia)) as (-> & Pa).
  destruct (shl_align_spec mb eb ez ltac:(lia)) as (-> & Pb).
  cbn [fst]. rewrite !Z2Pos.id by assumption.
  remember (cond_Zopp (a <? 0)%Z (Zpos ma * 2 ^ (ea - ez))
            + cond_Zopp (b <? 0)%Z (Zpos mb * 2 ^ (eb - ez)))%Z as z eqn:Rz.
  assert (Vz : (z * 2 ^ (ez + 52) = (a + b) * 2 ^ 52)%Z).
  { assert (Sa : (cond_Zopp (a <? 0)%Z (Zpos ma * 2 ^ (ea - ez))
                  * 2 ^ (ez + 52) = a * 2 ^ 52)%Z).
    { replace (ea + 52)%Z with ((ea - ez) + (ez + 52))%Z in Va by lia.
      rewrite (Z.pow_add_r 2 (ea - ez) (ez + 52)) in Va by lia.
      rewrite Z.mul_assoc in Va.
      destruct (Z.ltb_spec a 0); cbn [cond_Zopp];
        [rewrite Z.mul_opp_l, Va | rewrite Va]; lia. }
    assert (Sb : (cond_Zopp (b <? 0)%Z (Zpos mb * 2 ^ (eb - ez))
                  * 2 ^ (ez + 52) = b * 2 ^ 52)%Z).
    { replace (eb + 52)%Z with ((eb - ez) + (ez + 52))%Z in Vb by lia.
      rewrite (Z.pow_add_r 2 (eb - ez) (ez + 52)) in Vb by lia.
      rewrite Z.mul_assoc in Vb.
      destruct (Z.ltb_spec b 0); cbn [cond_Zopp];
        [rewrite Z.mul_opp_l, Vb | rewrite Vb]; lia. }
    rewrite Rz, Z.mul_add_distr_r, Sa, Sb. ring. }
  clear Rz Va Vb Pa Pb.
  assert (Pz : (0 < 2 ^ (ez + 52))%Z) by (apply Z.pow_pos_nonneg; lia).
  destruct (Z.eq_dec (a + b) 0) as [Zc | Nc].
  { rewrite Zc in *. assert (z = 0%Z) by nia. subst z. reflexivity. }
  rewrite (whole_signed_spec (a + b) Nc Hc).
  destruct (whole_canonical (Z.abs (a + b)) ltac:(lia)) as (Bc & HEc & Vc).
  remember (whole_mantissa (Z.abs (a + b))) as mc eqn:Rmc.
  remember (whole_exponent (Z.abs (a + b))) as ec eqn:Rec.
  clear Rmc Rec.
  destruct z as [|pz|pz].
  - exfalso. nia.
  - assert (Hpos : (0 < a + b)%Z) by nia.
    replace (a + b <? 0)%Z with false by (symmetry; apply Z.ltb_ge; lia).
    cbn [binary_normalize].
    apply (binary_round_exact false pz mc ez ec 52 Bc); lia.
  - assert (Hneg : (a + b < 0)%Z) by nia.
    replace (a + b <? 0)%Z with true by (symmetry; apply Z.ltb_lt; lia).
    cbn [binary_normalize].
    apply (binary_round_exact true pz mc ez ec 52 Bc); lia.
Qed.

Lemma total_units_nonneg (units : Transaction -> Z) (l : list Transaction) :
  whole_amounts units l ->
  (0 <= total_units units l)%Z
  /\ (Z.abs (signed_units units l) <= total_units units l)%Z.
Proof.
  induction 1 as [|t l (P & _) _ IH]; cbn [total_units signed_units fold_right].
  - lia.
  - fold (total_units units l). fold (signed_units units l).
    destruct (is_Income t); lia.
Qed.

Lemma balance_from (units : Transaction -> Z) (l : list Transaction) (acc : Z) :
  whole_amounts units l ->
  (Z.abs acc + total_units units l <= 2 ^ 53)%Z ->
  fold_left
    (fun x t => (x + (if is_Income t then Tx.amount t
                      else - Tx.amount t))%float)
    l (whole_signed acc)
  = whole_signed (acc + signed_units units l).
Proof.
  intros H; revert acc.
  induction H as [|t l (P & A) Hl IH]; intros acc Hb;
    cbn [total_units signed_units fold_right fold_left] in Hb |- *.
  - rewrite Z.add_0_r; reflexivity.
  - fold (total_units units l) in Hb. fold (signed_units units l).
    destruct (total_units_nonneg units l Hl) as (T0 & T1).
    match goal with
    | |- context [(whole_signed acc + ?y)%float] =>
        assert (S : y = whole_signed (if is_Income t then units t
                                      else - units t))
    end.
    { rewrite A. destruct (units t) as [|p|p]; try lia.
      destruct (is_Income t); reflexivity. }
    rewrite S, whole_signed_add by (destruct (is_Income t); lia).
    rewrite IH by (destruct (is_Income t); lia).
    f_equal. lia.
Qed.

Lemma whole_amounts_Permutation (units : Transaction -> Z)
    (l l' : list Transaction) :
  Permutation l l' ->
  (whole_amounts units l -> whole_amounts units l')
  /\ total_units units l' = total_units units l
  /\ signed_units units l' = signed_units units l.
Proof.
  induction 1 as [|t l l' _ IH|t u l|l l' l'' _ IH1 _ IH2];
    cbn [total_units signed_units fold_right].
  - repeat split; auto.
  - destruct IH as (I1 & I2 & I3).
    fold (total_units units l) (total_units units l')
      (signed_units units l) (signed_units units l').
    repeat split; [|lia|lia].
    intros H; inversion H; subst; constructor; [assumption|].
    apply I1; assumption.
  - repeat split; [|lia|lia].
    intros H; inversion H as [|? ? Ht H']; subst.
    inversion H' as [|? ? Hu H'']; subst.
    constructor; [exact Hu|]. constructor; [exact Ht | exact H''].
  - destruct IH1 as (I1 & I2 & I3), IH2 as (J1 & J2 & J3).
    repeat split; [intros H; apply J1, I1, H | congruence | congruence].
Qed.

Lemma balance_whole (units : Transaction -> Z) (l : list Transaction) :
  whole_amounts units l -> (total_units units l <= 2 ^ 53)%Z ->
  balance l = whole_signed (signed_units units l).
Proof.
  intros Hl Hbl. unfold balance.
  change 0%float with (whole_signed 0).
  rewrite (balance_from units l 0 Hl) by (simpl Z.abs; lia).
  reflexivity.
Qed.

Lemma balance_whole_reordered (units : Transaction -> Z)
    (l l' : list Transaction) :
  whole_amounts units l -> (total_units units l <= 2 ^ 53)%Z ->
  Permutation l l' -> balance l' = balance l.
Proof.
  intros H Hb HP.
  destruct (whole_amounts_Permutation units _ _ HP) as (P1 & P2 & P3).
  rewrite (balance_whole units l' (P1 H)) by lia.
  rewrite (balance_whole units l H Hb), P3. reflexivity.
Qed.

(** X15.  While every amount is a whole number and the amounts add up to at
    most [2^53], the balance is exactly the incomes minus the expenses, in
    whatever order the records stand. *)
Theorem balance_of_whole_amounts (units : Transaction -> Z)
    (transactions : list Transaction) :
  whole_amounts units transactions ->
  (total_units units transactions <= 2 ^ 53)%Z ->
  balance transactions = whole_signed (signed_units units transactions)
  /\ forall reordered, Permutation transactions reordered ->
       balance reordered = balance transactions.
Proof.
  intros H Hb; split.
  - exact (balance_whole units transactions H Hb).
  - intros l' HP. exact (balance_whole_reordered units _ _ H Hb HP).
Qed.

Lemma balance_of_whole_amounts_witness :
  balance holding_200 = 200%float
  /\ balance (rev holding_200) = balance holding_200.
Proof.
  assert (H : whole_amounts units_of holding_200).
  { repeat constructor; vm_compute; reflexivity. }
  assert (Hb : (total_units units_of holding_200 <= 2 ^ 53)%Z).
  { vm_compute; discriminate. }
  destruct (balance_of_whole_amounts _ _ H Hb) as (B & P).
  split.
  - rewrite B. vm_compute. reflexivity.
  - apply P. apply Permutation_rev.
Defined.

(* ================================================================= *)
(** * Whole amounts as typed *)

Lemma span_digits_spec (s : jsstring) :
  s = fst (span_digits s) ++ snd (span_digits s)
  /\ forallb is_digit (fst (span_digits s)) = true.
Proof.
  induction s as [|c s (IH1 & IH2)]; cbn [span_digits]; [split; reflexivity|].
  destruct (is_digit c) eqn:D; [|split; reflexivity].
  destruct (span_digits s) as (ds, rest); cbn [fst snd] in *.
  split; [cbn [app]; f_equal; exact IH1|].
  cbn [forallb]; rewrite D; exact IH2.
Qed.

Lemma digits_value_bound (ds : jsstring) :
  forallb is_digit ds = true ->
  (0 <= digits_value ds < 10 ^ Z.of_nat (List.length ds))%Z.
Proof.
  intros H; unfold digits_value.
  assert (G : forall acc, (0 <= acc)%Z ->
            (0 <= fold_left (fun a c => 10 * a + digit_value c) ds acc
             < (acc + 1) * 10 ^ Z.of_nat (List.length ds))%Z).
  { induction ds as [|c ds IH]; intros acc Ha; cbn [fold_left List.length].
    - rewrite Z.pow_0_r; lia.
    - cbn [forallb] in H; apply andb_true_iff in H; destruct H as (Hc & Hds).
      apply is_digit_range in Hc.
      assert (Hv : (0 <= digit_value c <= 9)%Z) by (unfold digit_value; lia).
      specialize (IH Hds (10 * acc + digit_value c)%Z ltac:(lia)).
      rewrite Nat2Z.inj_succ, Z.pow_succ_r by lia.
      assert (P : (0 < 10 ^ Z.of_nat (List.length ds))%Z)
        by (apply Z.pow_pos_nonneg; lia).
      nia. }
  specialize (G 0%Z ltac:(lia)); lia.
Qed.

(** [parseFloat] reads the digits of a whole amount and ignores what
    follows them. *)
Lemma parseFloat_whole_text (s : jsstring) :
  whole_text s = true ->
  parseFloat s = whole (whole_text_value s)
  /\ (0 <= whole_text_value s < 10 ^ 15)%Z.
Proof.
  unfold whole_text, whole_text_value; intros H.
  destruct (span_digits_spec s) as (Hs & Hd).
  destruct (span_digits s) as (ds, rest) eqn:SD; cbn [fst snd] in *.
  apply andb_true_iff in H; destruct H as (H & Ht).
  apply andb_true_iff in H; destruct H as (Hn & Hl).
  apply Nat.leb_le in Hl.
  split.
  2:{ pose proof (digits_value_bound ds Hd) as (B1 & B2). split; [exact B1|].
      assert ((10 ^ Z.of_nat (List.length ds) <= 10 ^ 15)%Z)
        by (apply Z.pow_le_mono_r; lia).
      lia. }
  destruct ds as [|c ds]; [discriminate Hn|]. clear Hn Hl.
  cbn [forallb] in Hd; apply andb_true_iff in Hd; destruct Hd as (Hc & Hds).
  pose proof (proj1 (is_digit_range c) Hc) as Rc.
  assert (W : is_white_space c = false).
  { unfold is_white_space.
    repeat match goal with
           | |- context [(?a <=? ?b)%N] => destruct (N.leb_spec a b)
           | |- context [(?a =? ?b)%N] => destruct (N.eqb_spec a b)
           end; try lia; reflexivity. }
  unfold parseFloat. rewrite Hs at 1. cbn [app trimStart]. rewrite W.
  unfold scan_decimal, take_sign.
  destruct (N.eqb_spec c 43) as [|_]; [lia|].
  destruct (N.eqb_spec c 45) as [|_]; [lia|].
  assert (PI : prefix_of (js "Infinity") (c :: ds ++ rest) = None).
  { cbn [js map list_ascii_of_string prefix_of].
    change (N_of_ascii "I") with 73%N.
    destruct (N.eqb_spec 73 c); [lia | reflexivity]. }
  rewrite PI. change (c :: ds ++ rest) with ((c :: ds) ++ rest).
  rewrite <- Hs, SD.
  assert (OF : optional_fraction rest = ([], rest)).
  { destruct rest as [|r rest]; [reflexivity|]. cbn [plain_tail] in Ht.
    cbn [optional_fraction].
    destruct (N.eqb_spec r 46) as [->|]; [|reflexivity].
    discriminate Ht. }
  rewrite OF.
  assert (TE : take_exponent rest = (0%Z, rest)).
  { destruct rest as [|r rest]; [reflexivity|]. cbn [plain_tail] in Ht.
    cbn [take_exponent].
    destruct ((r =? 101) || (r =? 69))%N eqn:X; [|reflexivity].
    rewrite <- orb_assoc, X, orb_true_r in Ht. discriminate Ht. }
  rewrite TE. rewrite app_nil_r. reflexivity.
Qed.

Lemma whole_positive (n : Z) :
  (0 < n <= 2 ^ 53)%Z -> is_positive (whole n) = true.
Proof.
  intros Hn; unfold is_positive.
  rewrite FloatAxioms.ltb_spec, (whole_spec n Hn).
  reflexivity.
Qed.

(** The whole part of the Number of a whole number is that number. *)
Lemma whole_part_whole (n : Z) :
  (0 < n <= 2 ^ 53)%Z -> whole_part (whole n) = n.
Proof.
  intros Hn; unfold whole_part; rewrite (whole_spec n Hn).
  destruct (whole_canonical n Hn) as (_ & HE & V).
  cbn [cond_Zopp].
  remember (whole_exponent n) as e eqn:Re.
  remember (whole_mantissa n) as m eqn:Rm. clear Re Rm.
  assert (P52 : (0 < 2 ^ 52)%Z) by reflexivity.
  destruct (Z.leb_spec 0 e) as [L | L].
  - rewrite Z.pow_add_r in V by lia.
    rewrite Z.mul_assoc in V. apply Z.mul_reg_r in V; [exact V | lia].
  - assert (Pk : (0 < 2 ^ (- e))%Z) by (apply Z.pow_pos_nonneg; lia).
    assert (M : Zpos m = (n * 2 ^ (- e))%Z).
    { assert (P : (0 < 2 ^ (e + 52))%Z) by (apply Z.pow_pos_nonneg; lia).
      replace 52%Z with ((- e) + (e + 52))%Z in V at 2 by lia.
      rewrite (Z.pow_add_r 2 (- e) (e + 52)) in V by lia.
      rewrite Z.mul_assoc in V. apply Z.mul_reg_r in V; [exact V | lia]. }
    rewrite M. apply Z.div_mul. lia.
Qed.


(** What [addTransaction] makes of a whole amount. *)
Lemma addTransaction_whole (now : Z) (today : jsstring) (f : Form)
    (l l' : list Transaction) (f' : Form) :
  whole_text (amountStr f) = true ->
  addTransaction now today f l = Added l' f' ->
  exists t, l' = t :: l
    /\ (0 < whole_text_value (amountStr f) < 10 ^ 15)%Z
    /\ Tx.amount t = whole (whole_text_value (amountStr f))
    /\ units_of t = whole_text_value (amountStr f).
Proof.
  intros W. destruct (parseFloat_whole_text _ W) as (PF & B0 & B1).
  unfold addTransaction.
  rewrite <- orb_assoc, not_positive_spec.
  destruct (trim (description f)) as [|c d] eqn:Et; [discriminate|].
  cbn [orb].
  destruct (is_positive (parseFloat (amountStr f))) eqn:Ep; [|discriminate].
  cbn [negb]; intros [= <- _]; eexists; split; [reflexivity|].
  assert (Hv : (0 < whole_text_value (amountStr f))%Z).
  { destruct (Z.eq_dec (whole_text_value (amountStr f)) 0) as [Z0|]; [|lia].
    rewrite PF, Z0 in Ep. discriminate Ep. }
  unfold units_of; cbn [Tx.amount].
  split; [lia|]. split; [exact PF|].
  rewrite PF. apply whole_part_whole.
  assert ((10 ^ 15 < 2 ^ 53)%Z) by reflexivity. lia.
Qed.

(** X16.  An amount typed as a whole number is stored as that number, whatever
    text follows its digits. *)
Theorem typed_whole_amount (now : Z) (today : jsstring) (f : Form)
    (l : list Transaction) :
  trim (description f) <> [] ->
  whole_text (amountStr f) = true ->
  (0 < whole_text_value (amountStr f))%Z ->
  addTransaction now today f l
  = Added ({| Tx.id := Date_now_toString now;
              Tx.description := trim (description f);
              Tx.amount := whole (whole_text_value (amountStr f));
              Tx.category := match category f with
                             | [] => js "Other"
                             | c => c
                             end;
              Tx.type := type f;
              Tx.date := date f |} :: l)
      {| description := []; amountStr := []; category := js "Other";
         type := Expense; date := today |}.
Proof.
  intros Hd W Hv. destruct (parseFloat_whole_text _ W) as (PF & B0 & B1).
  unfold addTransaction.
  rewrite <- orb_assoc, not_positive_spec, PF.
  rewrite whole_positive
    by (assert ((10 ^ 15 < 2 ^ 53)%Z) by reflexivity; lia).
  destruct (trim (description f)) as [|c d]; [congruence|].
  reflexivity.
Qed.

Lemma typed_whole_amount_witness :
  addTransaction 1704240000000 (js "2024-01-03")
    (form_of "Lunch" "12abc" "Food" Expense "2024-01-03") []
  = Added [{| Tx.id := js "1704240000000"; Tx.description := js "Lunch";
              Tx.amount := 12%float; Tx.category := js "Food";
              Tx.type := Expense; Tx.date := js "2024-01-03" |}]
      {| description := []; amountStr := []; category := js "Other";
         type := Expense; date := js "2024-01-03" |}.
Proof.
  rewrite (typed_whole_amount 1704240000000 (js "2024-01-03")
             (form_of "Lunch" "12abc" "Food" Expense "2024-01-03") []).
  - vm_compute. reflexivity.
  - vm_compute. discriminate.
  - vm_compute. reflexivity.
  - vm_compute. reflexivity.
Defined.

Lemma run_operations_whole (ops : list operation) (l : list Transaction) :
  Forall whole_operation ops -> whole_amounts units_of l ->
  whole_amounts units_of (run_operations ops l).
Proof.
  intros H; revert l; unfold run_operations.
  induction H as [|op ops Hop _ IH]; intros l Hl; cbn [fold_left];
    [exact Hl|].
  apply IH. destruct op as [now today f | id]; cbn [apply_operation].
  - cbn [whole_operation] in Hop.
    destruct (addTransaction now today f l) as [m | l' f'] eqn:E;
      [exact Hl|].
    destruct (addTransaction_whole _ _ _ _ _ _ Hop E)
      as (t & -> & Hv & Ha & Hu).
    constructor; [|exact Hl]. rewrite Hu. split; [lia | exact Ha].
  - unfold deleteTx, whole_amounts in *.
    apply Forall_forall; intros t Ht. apply filter_In in Ht.
    destruct Ht as (Ht & _). rewrite Forall_forall in Hl. apply Hl, Ht.
Qed.

(** X17.  While the user types whole amounts, every stored amount is the whole
    number typed, and the balance of a store whose amounts add up to at
    most [2^53] is exact and does not depend on the order of the
    records. *)
Theorem whole_ledger (ops : list operation) :
  Forall whole_operation ops ->
  (total_units units_of (run_operations ops []) <= 2 ^ 53)%Z ->
  whole_amounts units_of (run_operations ops [])
  /\ balance (run_operations ops [])
     = whole_signed (signed_units units_of (run_operations ops []))
  /\ forall reordered, Permutation (run_operations ops []) reordered ->
       balance reordered = balance (run_operations ops []).
Proof.
  intros H Hb.
  pose proof (run_operations_whole ops [] H (Forall_nil _)) as W.
  split; [exact W|]. split.
  - exact (balance_whole units_of _ W Hb).
  - intros l' HP. exact (balance_whole_reordered units_of _ _ W Hb HP).
Qed.

Lemma whole_ledger_witness :
  map Tx.amount (run_operations lenient_adds []) = [12; 1000; 950]%float
  /\ balance (run_operations lenient_adds []) = 38%float.
Proof.
  assert (H : Forall whole_operation lenient_adds).
  { repeat constructor; vm_compute; reflexivity. }
  assert (Hb : (total_units units_of (run_operations lenient_adds [])
                <= 2 ^ 53)%Z).
  { vm_compute; discriminate. }
  destruct (whole_ledger lenient_adds H Hb) as (_ & B & _).
  split.
  - vm_compute. reflexivity.
  - rewrite B. vm_compute. reflexivity.
Defined.
